(** * The P-256 group wrapper of kyber (package p256) and its
      vector-commitment consumer (package vc)

    A shallow embedding of [group/p256/p256.go], of the curve-point file
    of the same package and of [util/vc], followed by the properties of
    the specification that were checked against it.

    Conventions.
    - A Go [*big.Int] that can be reached from a point is a cell of a
      heap of integers; a [nil] pointer is [None].  Temporaries that never
      leave the function that creates them are plain [Z] values.
    - A run-time panic (nil dereference, index out of range) is [None] in
      the monad [Exec].
    - Go [int] arithmetic is modelled on [Z]; [/] on [int] truncates
      toward zero and is [Z.quot].
    - A [cipher.Stream] is the infinite key stream together with a
      cursor.
    - The one unbounded loop, in [Embed], takes a bound on its number of
      turns and reports when it is exhausted. *)

From Stdlib Require Import ZArith List Bool Lia Zpow_facts Znumtheory.
From Stdlib.Strings Require Import String Byte.
From Stdlib Require Import Zmod.
From stdpp Require Import base list.

Local Open Scope Z_scope.

Abbreviation byte := Byte.byte.

(** Go's conversion [byte(n)] of an [int]: the low eight bits. *)
Definition byte_of_Z (z : Z) : byte :=
  default x00 (Byte.of_N (Z.to_N (z mod 256))).

(** Go's conversion [int(b)] of a byte. *)
Definition Z_of_byte (b : byte) : Z := Z.of_N (Byte.to_N b).

(** [b[i]] on a slice: panics outside [0 <= i < len(b)]. *)
Definition index {A} (l : list A) (i : Z) : option A :=
  if i <? 0 then None else l !! Z.to_nat i.

(** [b[i] = v] on a slice. *)
Definition set_index {A} (l : list A) (i : Z) (v : A) : option (list A) :=
  if (i <? 0) || (Z.of_nat (length l) <=? i) then None
  else Some (<[Z.to_nat i := v]> l).

(** [b[lo:hi]] on a slice whose capacity is its length. *)
Definition slice {A} (l : list A) (lo hi : Z) : option (list A) :=
  if (lo <? 0) || (hi <? lo) || (Z.of_nat (length l) <? hi) then None
  else Some (take (Z.to_nat (hi - lo)) (drop (Z.to_nat lo) l)).

(** [copy(b[lo:hi], src)]: writes [min(hi-lo, len(src))] elements of [src]
    into [b] from offset [lo]. *)
Definition copy_into {A} (l : list A) (lo hi : Z) (src : list A)
  : option (list A) :=
  if (lo <? 0) || (hi <? lo) || (Z.of_nat (length l) <? hi) then None
  else
    let n := Nat.min (Z.to_nat (hi - lo)) (length src) in
    Some (take (Z.to_nat lo) l ++ take n src ++ drop (Z.to_nat lo + n) l).

(** ** math/big: the operations of [big.Int] used by the package *)
Module big.

(** [z.SetBytes(buf)]: [buf] read as a big-endian unsigned integer. *)
Definition SetBytes (buf : list byte) : Z :=
  fold_left (fun acc b => acc * 256 + Z_of_byte b) buf 0.

(** [x.BitLen()]: length of the absolute value in bits, 0 for 0. *)
Definition BitLen (v : Z) : Z :=
  if v =? 0 then 0 else Z.log2 (Z.abs v) + 1.

(** The [n] low-order bytes of [v], most significant first. *)
Fixpoint be_bytes (n : nat) (v : Z) : list byte :=
  match n with
  | O => []
  | S n' => be_bytes n' (v / 256) ++ [byte_of_Z v]
  end.

(** [x.Bytes()]: the absolute value as a big-endian byte slice without
    leading zero bytes. *)
Definition Bytes (v : Z) : list byte :=
  be_bytes (Z.to_nat ((BitLen v + 7) / 8)) (Z.abs v).

(** [z.Mod(x, m)]: Euclidean modulus, for [m <> 0]. *)
Definition Mod (v m : Z) : Z := v mod Z.abs m.

(** [z.Exp(x, y, m)] for [y >= 0] (the only use in this package):
    [x**y mod |m|], and [x**y] when [m] is 0. *)
Definition Exp (b e m : Z) : Z :=
  if m =? 0 then (if e <=? 0 then 1 else b ^ e)
  else Zpow_mod b e (Z.abs m).

(** [z.SetBit(x, i, b)]. *)
Definition SetBit (v : Z) (i : Z) (b : Z) : Z :=
  if b =? 0 then Z.clearbit v i else Z.setbit v i.

(** [z.Lsh(x, n)]. *)
Definition Lsh (v : Z) (n : Z) : Z := Z.shiftl v n.

(** [x.Sign()]. *)
Definition Sign (v : Z) : Z := Z.sgn v.

(** [x.Cmp(y)]. *)
Definition Cmp (a b : Z) : Z :=
  match a ?= b with Lt => -1 | Eq => 0 | Gt => 1 end.

End big.

(** ** The heap of [big.Int] cells and the panic/state monad *)

Abbreviation addr := nat (only parsing).
Abbreviation heap := (list Z) (only parsing).

Definition Exec (A : Type) : Type := heap -> option (A * heap).

Definition ret {A} (a : A) : Exec A := fun h => Some (a, h).

Definition bind {A B} (m : Exec A) (k : A -> Exec B) : Exec B :=
  fun h => match m h with
           | Some (a, h') => k a h'
           | None => None
           end.

Definition panic {A} : Exec A := fun _ => None.

Definition lift {A} (o : option A) : Exec A :=
  match o with Some a => ret a | None => panic end.

#[global] Instance Exec_ret : MRet Exec := @ret.
#[global] Instance Exec_bind : MBind Exec := fun A B k m => bind m k.

(** [new(big.Int)] set to [v]: a fresh cell. *)
Definition new_Int (v : Z) : Exec (option addr) :=
  fun h => Some (Some (length h), h ++ [v]).

(** Reading through a [*big.Int]; a nil pointer panics. *)
Definition deref (a : option addr) : Exec Z :=
  fun h => match a with
           | Some n => match h !! n with
                       | Some v => Some (v, h)
                       | None => None
                       end
           | None => None
           end.

(** Overwriting the integer behind a [*big.Int] in place. *)
Definition assign (a : option addr) (v : Z) : Exec unit :=
  fun h => match a with
           | Some n => match h !! n with
                       | Some _ => Some (tt, <[n := v]> h)
                       | None => None
                       end
           | None => None
           end.

(** ** crypto/cipher: a key stream *)
Module cipher.

Record Stream := { key : nat -> byte; off : nat }.

Definition xor_byte (a b : byte) : byte :=
  byte_of_Z (Z.lxor (Z_of_byte a) (Z_of_byte b)).

Fixpoint xor_from (k : nat -> byte) (i : nat) (src : list byte)
  : list byte :=
  match src with
  | [] => []
  | s :: rest => xor_byte s (k i) :: xor_from k (S i) rest
  end.

(** The stream after [n] more bytes have been drawn. *)
Definition advance (s : Stream) (n : nat) : Stream :=
  {| key := key s; off := (off s + n)%nat |}.

(** [s.XORKeyStream(dst, src)] with [dst] and [src] the same slice:
    returns the new contents and the advanced stream. *)
Definition XORKeyStream (s : Stream) (src : list byte)
  : list byte * Stream :=
  (xor_from (key s) (off s) src, advance s (length src)).

End cipher.

(** ** util/random *)
Module random.

(** Modelled from the spec: [random.Bits] (package util/random, outside
    the files at hand) draws [bitlen] random bits from the key stream:
    [ceil(bitlen/8)] key-stream bytes over a zeroed buffer, the surplus
    high bits of the first byte cleared, and with [exact] the top bit
    forced to one. *)
Definition Bits (bitlen : Z) (exact : bool) (rand : cipher.Stream)
  : option (list byte * cipher.Stream) :=
  let '(b, rand) :=
    cipher.XORKeyStream rand (replicate (Z.to_nat ((bitlen + 7) ÷ 8)) x00) in
  let highbits := Z.land bitlen 7 in
  b ← (if highbits =? 0 then Some b
       else b0 ← index b 0;
            set_index b 0
              (byte_of_Z (Z.land (Z_of_byte b0)
                            (Z.lnot (Z.shiftl 255 highbits)))));
  b ← (if exact then
         b0 ← index b 0;
         set_index b 0
           (byte_of_Z (Z.lor (Z_of_byte b0)
                         (if highbits =? 0 then 128
                          else Z.shiftl 1 (highbits - 1))))
       else Some b);
  Some (b, rand).

End random.

(** ** crypto/elliptic: the curve-arithmetic provider

    The Go standard library is an external collaborator.  [Curve] is its
    interface; [CurveParams_Curve] is the textbook affine arithmetic of a
    short-Weierstrass curve with [a = -3], with (0,0) standing for the
    point at infinity.  The general theorems hold for any provider; this
    one serves to run the code on concrete inputs. *)
Module elliptic.

Record CurveParams := {
  P : Z; N : Z; B : Z; Gx : Z; Gy : Z; BitSize : Z
}.

Record Curve := {
  Params : CurveParams;
  IsOnCurve : Z -> Z -> bool;
  Add : Z -> Z -> Z -> Z -> Z * Z;
  Double : Z -> Z -> Z * Z;
  ScalarMult : Z -> Z -> list byte -> Z * Z;
  ScalarBaseMult : list byte -> Z * Z;
  (** [elliptic.Unmarshal(curve, data)]; [None] is the pair of nil
      pointers returned on error *)
  unmarshal : list byte -> option (Z * Z);
  (** [elliptic.Marshal(curve, x, y)] *)
  marshal : Z -> Z -> list byte
}.

Definition Unmarshal (curve : Curve) (data : list byte) : option (Z * Z) :=
  unmarshal curve data.

Definition Marshal (curve : Curve) (x y : Z) : list byte :=
  marshal curve x y.

Section CurveParams_methods.
Variable cp : CurveParams.

(** [x^3 - 3x + b mod p] *)
Definition polynomial (x : Z) : Z :=
  (x * x * x - 3 * x + B cp) mod P cp.

(** [IsOnCurve]: both coordinates in [[0, p)] and on the curve; the
    point at infinity (0,0) is not. *)
Definition params_IsOnCurve (x y : Z) : bool :=
  if (x <? 0) || (P cp <=? x) || (y <? 0) || (P cp <=? y) then false
  else (y * y) mod P cp =? polynomial x.

(** The inverse modulo the prime [p]. *)
Definition inverse (a : Z) : Z := Zpow_mod a (P cp - 2) (P cp).

(** [Double] by the tangent rule. *)
Definition params_Double (x y : Z) : Z * Z :=
  if y =? 0 then (0, 0)
  else
    let lam := ((3 * x * x - 3) * inverse (2 * y)) mod P cp in
    let x3 := (lam * lam - 2 * x) mod P cp in
    (x3, (lam * (x - x3) - y) mod P cp).

(** [Add] by the chord rule. *)
Definition params_Add (x1 y1 x2 y2 : Z) : Z * Z :=
  if (x1 =? 0) && (y1 =? 0) then (x2, y2)
  else if (x2 =? 0) && (y2 =? 0) then (x1, y1)
  else if x1 =? x2 then
    (if y1 =? y2 then params_Double x1 y1 else (0, 0))
  else
    let lam := ((y2 - y1) * inverse (x2 - x1)) mod P cp in
    let x3 := (lam * lam - x1 - x2) mod P cp in
    (x3, (lam * (x1 - x3) - y1) mod P cp).

(** [ScalarMult]: [k] is the big-endian multiplier. *)
Definition params_ScalarMult (x y : Z) (k : list byte) : Z * Z :=
  match big.SetBytes k with
  | Zpos n =>
      Pos.iter_op (fun a b => params_Add (fst a) (snd a) (fst b) (snd b))
        n (x, y)
  | _ => (0, 0)
  end.

(** [elliptic.Unmarshal]: an error (nil, nil) when the length is wrong,
    the point is not in uncompressed form (marker byte 4), a coordinate
    is not below [p], or the point is not on the curve. *)
Definition params_Unmarshal (data : list byte) : option (Z * Z) :=
  let byteLen := (BitSize cp + 7) ÷ 8 in
  if negb (Z.of_nat (length data) =? 1 + 2 * byteLen) then None
  else
    match data with
    | x04 :: body =>
        let x := big.SetBytes (take (Z.to_nat byteLen) body) in
        let y := big.SetBytes (drop (Z.to_nat byteLen) body) in
        if (P cp <=? x) || (P cp <=? y) then None
        else if negb (params_IsOnCurve x y) then None
        else Some (x, y)
    | _ => None
    end.

(** [elliptic.Marshal]: the uncompressed form. *)
Definition params_Marshal (x y : Z) : list byte :=
  let byteLen := Z.to_nat ((BitSize cp + 7) ÷ 8) in
  x04 :: big.be_bytes byteLen x ++ big.be_bytes byteLen y.

(** The provider built from the parameters alone. *)
Definition CurveParams_Curve : Curve := {|
  Params := cp;
  IsOnCurve := params_IsOnCurve;
  Add := params_Add;
  Double := params_Double;
  ScalarMult := params_ScalarMult;
  ScalarBaseMult := params_ScalarMult (Gx cp) (Gy cp);
  unmarshal := params_Unmarshal;
  marshal := params_Marshal
|}.
End CurveParams_methods.

(** [elliptic.P256()] *)
Definition P256_params : CurveParams := {|
  P := 115792089210356248762697446949407573530086143415290314195533631308867097853951;
  N := 115792089210356248762697446949407573529996955224135760342422259061068512044369;
  B := 41058363725152142129326129780047268409114441015993725554835256314039467401291;
  Gx := 48439561293906451759052585252797914202762949526041747995844080717082404635286;
  Gy := 36134250956749795798585127919587881956611106672985015071877198253568414405109;
  BitSize := 256
|}.

Definition P256 : Curve := CurveParams_Curve P256_params.

End elliptic.

(** ** group/mod: scalars *)
Module modint.

(** Modelled from the spec: [mod.Int] (package group/mod, outside the
    files at hand) is an integer [V] held modulo a modulus [M]; every
    operation leaves [V] reduced into [[0, M)]; [SetBytes] reads a
    big-endian unsigned integer and reduces it; [Neg] is the additive
    inverse. *)
Record Int := { V : Z; M : Z }.

(** [mod.NewInt64(v, m)] *)
Definition NewInt64 (v : Z) (m : Z) : Int := {| V := v mod m; M := m |}.

(** [i.Init64(v, m)]: the receiver is overwritten. *)
Definition Init64 (_ : Int) (v : Z) (m : Z) : Int := NewInt64 v m.

(** [i.One()] *)
Definition One (i : Int) : Int := {| V := 1 mod M i; M := M i |}.

(** [i.Neg(a)]: the receiver takes the value and the modulus of [-a]. *)
Definition Neg (_ a : Int) : Int := {| V := (- V a) mod M a; M := M a |}.

(** [i.SetBytes(a)], big-endian. *)
Definition SetBytes (i : Int) (a : list byte) : Int :=
  {| V := big.SetBytes a mod M i; M := M i |}.

End modint.

(** Go's [len] of a slice. *)
Definition len {A} (l : list A) : Z := Z.of_nat (length l).

(** ** package p256 *)
Module p256.

(** interface for Curve-specific mathematical functions *)
Record curveOps := { sqrt : Z -> Z }.

(** [type Curve struct { elliptic.Curve; curveOps; p *elliptic.CurveParams }] *)
Record Curve := {
  ec : elliptic.Curve;
  ops : curveOps;
  p : elliptic.CurveParams
}.

(** [type CurvePoint struct { x, y *big.Int; C *Curve }] *)
Record CurvePoint := {
  x : option addr;
  y : option addr;
  C : Curve
}.

(** Number of bytes in the encoding of a scalar. *)
Definition ScalarLen (c : Curve) : Z :=
  (big.BitLen (elliptic.N (p c)) + 7) ÷ 8.

(** [c.Scalar()]: the scalar 0 modulo the group order. *)
Definition Scalar (c : Curve) : modint.Int :=
  modint.NewInt64 0 (elliptic.N (p c)).

(** Number of bytes required to store one coordinate. *)
Definition coordLen (c : Curve) : Z := (elliptic.BitSize (p c) + 7) ÷ 8.

(** ANSI X9.62: 1 header byte plus 2 coordinates. *)
Definition PointLen (c : Curve) : Z := 1 + 2 * coordLen c.

(** [c.Point()]: a point of the curve with nil coordinates. *)
Definition Point (c : Curve) : CurvePoint :=
  {| x := None; y := None; C := c |}.

(** [c.PointPlain()]: the same, by value. *)
Definition PointPlain (c : Curve) : CurvePoint :=
  {| x := None; y := None; C := c |}.

(** The order of the curve: the prime [N] of its parameters. *)
Definition Order (c : Curve) : Z := elliptic.N (p c).

(** [z.Mod(z, m)] on the cell behind [a]; division by zero panics. *)
Definition Mod_in_place (a : option addr) (m : Z) : Exec unit :=
  if m =? 0 then panic
  else v ← deref a; assign a (big.Mod v m).

(** [P.Equal(P2)]: the four coordinates are first reduced in place. *)
Definition Equal (P P2 : CurvePoint) : Exec bool :=
  let cp2 := P2 in
  let M := elliptic.P (p (C P)) in
  _ ← Mod_in_place (x P) M;
  _ ← Mod_in_place (y P) M;
  _ ← Mod_in_place (x cp2) M;
  _ ← Mod_in_place (y cp2) M;
  px ← deref (x P);
  qx ← deref (x cp2);
  if big.Cmp px qx =? 0 then
    py ← deref (y P);
    qy ← deref (y cp2);
    ret (big.Cmp py qy =? 0)
  else ret false.

(** [P.Null()]: two new integers 0.  A method with a pointer receiver
    returns the receiver as it stands after the call. *)
Definition Null (P : CurvePoint) : Exec CurvePoint :=
  nx ← new_Int 0;
  ny ← new_Int 0;
  ret {| x := nx; y := ny; C := C P |}.

(** [P.Valid()]: on the curve, or the pair (0,0). *)
Definition Valid (P : CurvePoint) : Exec bool :=
  px ← deref (x P);
  py ← deref (y P);
  ret (elliptic.IsOnCurve (ec (C P)) px py
       || ((big.Sign px =? 0) && (big.Sign py =? 0))).

(** [P.genPoint(x, rand)]: try to generate a point from a chosen
    x-coordinate, with a random sign; returns the verdict, the receiver
    and the stream. *)
Definition genPoint (P : CurvePoint) (xa : option addr)
    (rand : cipher.Stream) : Exec (bool * CurvePoint * cipher.Stream) :=
  xv ← deref xa;
  let y2 := xv * xv in
  let y2 := y2 * xv in
  let threeX := big.Lsh xv 1 in
  let threeX := threeX + xv in
  let y2 := y2 - threeX in
  let y2 := y2 + elliptic.B (p (C P)) in
  if elliptic.P (p (C P)) =? 0 then panic else
  let y2 := big.Mod y2 (elliptic.P (p (C P))) in
  ya ← new_Int (sqrt (ops (C P)) y2);
  let '(b, rand) := cipher.XORKeyStream rand (replicate 1 x00) in
  b0 ← lift (index b 0);
  _ ← (if negb (Z.land (Z_of_byte b0) 128 =? 0)
        then yv ← deref ya; assign ya (elliptic.P (p (C P)) - yv)
        else ret tt);
  yv ← deref ya;
  let y2t := yv * yv in
  let y2t := big.Mod y2t (elliptic.P (p (C P))) in
  if negb (big.Cmp y2t y2 =? 0) then ret (false, P, rand)
  else ret (true, {| x := xa; y := ya; C := C P |}, rand).

(** [P.EmbedLen()]: 8 bits are reserved for randomness and 8 for the
    length of the data. *)
Definition EmbedLen (P : CurvePoint) : Z :=
  (big.BitLen (elliptic.P (p (C P))) - 8 - 8) ÷ 8.

(** The first half of one turn of the [for] loop of [Embed]: the
    candidate bytes drawn from the key stream, with the length tag and
    the data written over them. *)
Definition Embed_candidate (P : CurvePoint) (data : option (list byte))
    (l dl : Z) (rand : cipher.Stream)
  : option (list byte * cipher.Stream) :=
  '(b, rand) ← random.Bits (big.BitLen (elliptic.P (p (C P)))) false rand;
  b ← match data with
      | Some d =>
          b ← set_index b (l - 1) (byte_of_Z dl);
          copy_into b (l - dl - 1) (l - 1) d
      | None => Some b
      end;
  Some (b, rand).

(** One whole turn: the candidate, then [genPoint] on it. *)
Definition Embed_try (P : CurvePoint) (data : option (list byte))
    (l dl : Z) (rand : cipher.Stream)
  : Exec (bool * CurvePoint * cipher.Stream) :=
  '(b, rand) ← lift (Embed_candidate P data l dl rand);
  xa ← new_Int (big.SetBytes b);
  genPoint P xa rand.

(** The loop itself, cut off after [fuel] turns ([None]: no candidate
    was accepted within [fuel] turns). *)
Fixpoint Embed_loop (fuel : nat) (P : CurvePoint)
    (data : option (list byte)) (l dl : Z) (rand : cipher.Stream)
  : Exec (option (CurvePoint * cipher.Stream)) :=
  match fuel with
  | O => ret None
  | S fuel' =>
      '(ok, P', rand') ← Embed_try P data l dl rand;
      if ok : bool then ret (Some (P', rand'))
      else Embed_loop fuel' P data l dl rand'
  end.

(** [data] is [None] for a nil slice. *)
Definition Embed (fuel : nat) (P : CurvePoint) (data : option (list byte))
    (rand : cipher.Stream) : Exec (option (CurvePoint * cipher.Stream)) :=
  let l := coordLen (C P) in
  let dl := EmbedLen P in
  let dl := if dl >? len (default [] data) then len (default [] data)
            else dl in
  Embed_loop fuel P data l dl rand.

(** [P.Pick(rand)] *)
Definition Pick (fuel : nat) (P : CurvePoint) (rand : cipher.Stream)
  : Exec (option (CurvePoint * cipher.Stream)) :=
  Embed fuel P None rand.

(** [Data] returns the payload, or the error message. *)
Definition Data (P : CurvePoint) : Exec (list byte + string) :=
  px ← deref (x P);
  let b := big.Bytes px in
  let l := coordLen (C P) in
  let b := if len b <? l
           then replicate (Z.to_nat (l - len b)) x00 ++ b else b in
  b_last ← lift (index b (l - 1));
  let dl := Z_of_byte b_last in
  if dl >? EmbedLen P then ret (inr "invalid embedded data length"%string)
  else
    d ← lift (slice b (l - dl - 1) (l - 1));
    ret (inl d).

(** [P.x, P.y = P.C.Add(ca.x, ca.y, cb.x, cb.y)]: the provider reads
    the four integers and returns two new ones. *)
Definition Add (P A B : CurvePoint) : Exec CurvePoint :=
  let ca := A in
  let cb := B in
  ax ← deref (x ca);
  ay ← deref (y ca);
  bx ← deref (x cb);
  by_ ← deref (y cb);
  let '(rx, ry) := elliptic.Add (ec (C P)) ax ay bx by_ in
  nx ← new_Int rx;
  ny ← new_Int ry;
  ret {| x := nx; y := ny; C := C P |}.

(** [P.AddPlain(A, B)]: the same on concrete pointers. *)
Definition AddPlain (P A B : CurvePoint) : Exec CurvePoint := Add P A B.

(** [B] is [None] for the nil interface value ("use the generator"). *)
Definition Mul (P : CurvePoint) (s : modint.Int) (B : option CurvePoint)
  : Exec CurvePoint :=
  let cs := s in
  '(rx, ry) ←
    match B with
    | Some cb =>
        bx ← deref (x cb);
        by_ ← deref (y cb);
        ret (elliptic.ScalarMult (ec (C P)) bx by_
               (big.Bytes (modint.V cs)))
    | None =>
        ret (elliptic.ScalarBaseMult (ec (C P)) (big.Bytes (modint.V cs)))
    end;
  nx ← new_Int rx;
  ny ← new_Int ry;
  ret {| x := nx; y := ny; C := C P |}.

(** [P.MulPlain(s, B)]: the same on concrete pointers. *)
Definition MulPlain (P : CurvePoint) (s : modint.Int)
    (B : option CurvePoint) : Exec CurvePoint := Mul P s B.

(** [P.Neg(A)]: the scalar one, negated, times [A]. *)
Definition Neg (P A : CurvePoint) : Exec CurvePoint :=
  let s := modint.One (Scalar (C P)) in
  let s := modint.Neg s s in
  Mul P s (Some A).

(** [P.Sub(A, B)]: [A] plus the negation of [B]. *)
Definition Sub (P A B : CurvePoint) : Exec CurvePoint :=
  let ca := A in
  let cb := B in
  cbn ← Neg (Point (C P)) cb;
  Add P ca cbn.

(** [P.MarshalSize()] *)
Definition MarshalSize (P : CurvePoint) : Z :=
  let coordlen :=
    Z.shiftr (elliptic.BitSize (elliptic.Params (ec (C P))) + 7) 3 in
  1 + 2 * coordlen.

(** [P.MarshalBinary()] *)
Definition MarshalBinary (P : CurvePoint) : Exec (list byte) :=
  px ← deref (x P);
  py ← deref (y P);
  ret (elliptic.Marshal (ec (C P)) px py).

(** Returns the receiver and the error ([None] for a nil error). *)
Definition UnmarshalBinary (P : CurvePoint) (buf : list byte)
  : Exec (CurvePoint * option string) :=
  body ← lift (slice buf 1 (len buf));
  let c := fold_left (fun c b => Z.lor c (Z_of_byte b)) body 0 in
  if negb (c =? 0) then
    '(nx, ny) ←
      match elliptic.Unmarshal (ec (C P)) buf with
      | Some (xv, yv) =>
          nx ← new_Int xv;
          ny ← new_Int yv;
          ret (nx, ny)
      | None => ret (None, None)
      end;
    let P := {| x := nx; y := ny; C := C P |} in
    bad ← match x P with
          | None => ret true
          | Some _ => v ← Valid P; ret (negb v)
          end;
    if bad : bool then ret (P, Some "invalid elliptic Curve point"%string)
    else ret (P, None)
  else
    nx ← new_Int 0;
    ny ← new_Int 0;
    ret ({| x := nx; y := ny; C := C P |}, None).

(** [P.Set(A)]: the two pointers of [A] ([Set] is a reserved word here,
    hence the underscore). *)
Definition Set_ (P A : CurvePoint) : CurvePoint :=
  {| x := x A; y := y A; C := C P |}.

(** [P.Clone()]: a new struct with the same three fields. *)
Definition Clone (P : CurvePoint) : CurvePoint :=
  {| x := x P; y := y P; C := C P |}.

(** [type P256 struct { Curve }] *)
Module P256.

(** Optimized modular square root for the P-256 curve; [m] is
    [curve.p.P]. *)
Definition sqrt (m : Z) (c : Z) : Z :=
  let t1 := c * c in
  let t1 := t1 * c in
  let p2 := big.SetBit 0 2 1 in
  let t2 := big.Exp t1 p2 m in
  let t2 := t2 * t1 in
  let p3 := big.SetBit 0 4 1 in
  let t3 := big.Exp t2 p3 m in
  let t3 := t3 * t2 in
  let p4 := big.SetBit 0 8 1 in
  let t4 := big.Exp t3 p4 m in
  let t4 := t4 * t3 in
  let p5 := big.SetBit 0 16 1 in
  let r := big.Exp t4 p5 m in
  let r := r * t4 in
  let p6 := big.SetBit 0 32 1 in
  let r := big.Exp r p6 m in
  let r := r * c in
  let p7 := big.SetBit 0 96 1 in
  let r := big.Exp r p7 m in
  let r := r * c in
  let p8 := big.SetBit 0 94 1 in
  let r := big.Exp r p8 m in
  r.

(** [curve.Init()]: the standard P-256 instance. *)
Definition Init : Curve :=
  let params := elliptic.Params elliptic.P256 in
  {| ec := elliptic.P256;
     ops := {| p256.sqrt := sqrt (elliptic.P params) |};
     p := params |}.

End P256.

End p256.

(** ** package vc: the vector commitment built on the group *)
Module vc.

(** [type PublicParams struct { Generators []p256.CurvePoint }] *)
Record PublicParams := { Generators : list p256.CurvePoint }.

(** The second loop of [NewPublicParams]: [generators[i].Pick(randBytes)]
    on each element in turn, all drawing from the one stream.  [None]:
    some [Pick] found no point within [fuel] turns. *)
Fixpoint Pick_each (fuel : nat) (generators : list p256.CurvePoint)
    (randBytes : cipher.Stream)
  : Exec (option (list p256.CurvePoint * cipher.Stream)) :=
  match generators with
  | [] => ret (Some ([], randBytes))
  | g :: rest =>
      r ← p256.Pick fuel g randBytes;
      match r with
      | None => ret None
      | Some (g', randBytes) =>
          r ← Pick_each fuel rest randBytes;
          match r with
          | None => ret None
          | Some (rest', randBytes) => ret (Some (g' :: rest', randBytes))
          end
      end
  end.

(** [func NewPublicParams(n int) PublicParams].  [make] panics on a
    negative length.  The stream [suite.RandomStream()] returns comes from
    [Suite128], which is declared outside the files at hand: it is the
    argument [randBytes]; [fuel] bounds the turns of each [Pick]. *)
Definition NewPublicParams (fuel : nat) (n : Z) (randBytes : cipher.Stream)
  : Exec (option PublicParams) :=
  if n <? 0 then panic else
  let suite := p256.P256.Init in
  let generators := replicate (Z.to_nat n) (p256.PointPlain suite) in
  r ← Pick_each fuel generators randBytes;
  match r with
  | None => ret None
  | Some (generators, _) => ret (Some {| Generators := generators |})
  end.

(** [type Commitment struct { generators []p256.CurvePoint;
    c p256.CurvePoint; suite *p256.Suite128 }].  [Suite128] is declared
    outside the files at hand; it embeds [P256], and what the commitment
    uses of it is the curve its [Init] sets up. *)
Record Commitment := {
  generators : list p256.CurvePoint;
  c : p256.CurvePoint;
  suite : p256.Curve
}.

(** [func (c Commitment) Add(i int, x []byte)]: a value receiver, so
    the method works on its own copy [c] of the caller's struct.  The
    result carries that copy as it stands when the method returns; Go
    returns nothing, and the caller's struct is the one it passed. *)
Definition Add (c0 : Commitment) (i : Z) (xb : list byte)
  : Exec Commitment :=
  if negb (len xb =? 32) then panic else
  let scalar := modint.Init64 {| modint.V := 0; modint.M := 0 |} 1 1 in
  let scalar := modint.SetBytes scalar xb in
  let toAdd := p256.PointPlain (suite c0) in
  g ← lift (index (generators c0) i);
  toAdd ← p256.MulPlain toAdd scalar (Some g);
  cc ← p256.AddPlain (c c0) toAdd (c c0);
  ret {| generators := generators c0; c := cc; suite := suite c0 |}.

(** The second loop of [Commit]: [c.Add(i, xs[i])] for each index, every
    call on the same struct [c]. *)
Fixpoint Commit_loop (c0 : Commitment) (i : Z) (xs : list (list byte))
  : Exec unit :=
  match xs with
  | [] => ret tt
  | xi :: rest =>
      _ ← Add c0 i xi;
      Commit_loop c0 (i + 1) rest
  end.

(** [func Commit(pp PublicParams, xs [][]byte) Commitment] *)
Definition Commit (pp : PublicParams) (xs : list (list byte))
  : Exec Commitment :=
  if negb (forallb (fun xi => len xi =? 32) xs) then panic else
  let suite := p256.P256.Init in
  cc ← p256.Null (p256.PointPlain suite);
  let c0 := {| generators := Generators pp; c := cc; suite := suite |} in
  _ ← Commit_loop c0 0 xs;
  ret c0.

End vc.

(** * Vocabulary of the properties *)

(** [h'] is [h] with some cells replaced by their residues modulo [m]. *)
Definition reduced_from (m : Z) (h h' : list Z) : Prop :=
  length h' = length h /\
  forall n v, h !! n = Some v ->
              h' !! n = Some v \/ h' !! n = Some (v mod m).

(** Every successful run of [m] leaves the cells it started with as they
    were and only appends new ones. *)
Definition allocates {A} (m : Exec A) : Prop :=
  forall h a h', m h = Some (a, h') -> h `prefix_of` h'.

(** The cell [a], holding [v] in [h], still holds [v] after any
    successful run of [m]. *)
Definition keeps {A} (m : Exec A) (h : list Z) (a : nat) (v : Z) : Prop :=
  forall r h', m h = Some (r, h') -> h' !! a = Some v.

(** The error of [UnmarshalBinary]. *)
Definition invalid_point : string := "invalid elliptic Curve point".

(** What a run of [Embed] shows to data-only observers: the coordinate
    pointers of the point, the cursor of the key stream, the heap. *)
Definition Embed_outcome
    (r : option (option (p256.CurvePoint * cipher.Stream) * list Z))
  : option (option (option nat * option nat * nat) * list Z) :=
  match r with
  | Some (Some (P, rand), h) =>
      Some (Some (p256.x P, p256.y P, cipher.off rand), h)
  | Some (None, h) => Some (None, h)
  | None => None
  end.

(** The key stream of all-ones bytes. *)
Definition ksFF : cipher.Stream :=
  {| cipher.key := fun _ => xff; cipher.off := 0 |}.

(** The right-hand side [x^3 - 3x + b mod p] as [genPoint] computes it. *)
Definition curve_rhs (curve : p256.Curve) (xv : Z) : Z :=
  big.Mod (xv * xv * xv - (big.Lsh xv 1 + xv) + elliptic.B (p256.p curve))
    (elliptic.P (p256.p curve)).

(** The verification of [genPoint] for the root [r] that [sqrt] returns:
    does [r^2] give back the right-hand side? *)
Definition accepted (curve : p256.Curve) (xv : Z) : bool :=
  let y2 := curve_rhs curve xv in
  let r := p256.sqrt (p256.ops curve) y2 in
  big.Mod (r * r) (elliptic.P (p256.p curve)) =? y2.

(** The high bit of the next key-stream byte. *)
Definition sign_bit (rand : cipher.Stream) : bool :=
  negb (Z.land (Z_of_byte (cipher.key rand (cipher.off rand))) 128 =? 0).

(** The y-coordinate [genPoint] stores for the candidate [xv]. *)
Definition chosen_root (curve : p256.Curve) (xv : Z) (rand : cipher.Stream)
  : Z :=
  let r := p256.sqrt (p256.ops curve) (curve_rhs curve xv) in
  if sign_bit rand then elliptic.P (p256.p curve) - r else r.

(** The payload length [Embed] settles on before it enters its loop. *)
Definition payload_len (P : p256.CurvePoint) (data : option (list byte)) : Z :=
  let dl := p256.EmbedLen P in
  if dl >? len (default [] data) then len (default [] data) else dl.

(** Bytes of key stream drawn per turn: the candidate and the sign byte. *)
Definition turn_bytes (P : p256.CurvePoint) : nat :=
  Z.to_nat ((big.BitLen (elliptic.P (p256.p (p256.C P))) + 7) ÷ 8) + 1.

(** Does the candidate of turn [j] (counting from 0) pass the check? *)
Definition turn_accepts (P : p256.CurvePoint) (data : option (list byte))
    (rand : cipher.Stream) (j : nat) : bool :=
  match p256.Embed_candidate P data (p256.coordLen (p256.C P))
          (payload_len P data) (cipher.advance rand (j * turn_bytes P)) with
  | Some (b, _) => accepted (p256.C P) (big.SetBytes b)
  | None => false
  end.

(** Shape of a curve on which embedding works: a positive modulus of at
    least 16 bits, coordinates as long as the modulus. *)
Definition embeddable (curve : p256.Curve) : Prop :=
  0 < elliptic.P (p256.p curve) /\
  16 <= big.BitLen (elliptic.P (p256.p curve)) /\
  p256.coordLen curve = (big.BitLen (elliptic.P (p256.p curve)) + 7) ÷ 8.

(** The key stream of zero bytes. *)
Definition ks00 : cipher.Stream :=
  {| cipher.key := fun _ => x00; cipher.off := 0 |}.

(** The key stream whose bytes 30 and 31 are [02] and [01], all others
    zero. *)
Definition ks0201 : cipher.Stream :=
  {| cipher.key := fun i => if (i =? 30)%nat then x02
                            else if (i =? 31)%nat then x01 else x00;
     cipher.off := 0 |}.

(** What a turn shows to data-only observers: the verdict and the cursor
    of the key stream. *)
Definition turn_outcome
    (r : option (bool * p256.CurvePoint * cipher.Stream * list Z))
  : option (bool * nat) :=
  match r with
  | Some ((ok, _, rand), _) => Some (ok, cipher.off rand)
  | None => None
  end.

(** The coordinates of the point a commitment holds. *)
Definition commitment_point (r : option (vc.Commitment * list Z))
  : option (Z * Z) :=
  match r with
  | Some (c1, h) =>
      match deref (p256.x (vc.c c1)) h, deref (p256.y (vc.c c1)) h with
      | Some (xv, _), Some (yv, _) => Some (xv, yv)
      | _, _ => None
      end
  | None => None
  end.

(** The point an operation returns when it stores its two results in new
    cells on top of [h]. *)
Definition fresh_point (curve : p256.Curve) (h : list Z) : p256.CurvePoint :=
  {| p256.x := Some (length h); p256.y := Some (S (length h));
     p256.C := curve |}.

(** What [Valid] computes from the two integers of a point. *)
Definition valid_coords (curve : p256.Curve) (xv yv : Z) : bool :=
  elliptic.IsOnCurve (p256.ec curve) xv yv
  || ((big.Sign xv =? 0) && (big.Sign yv =? 0)).

(** Equality of coordinate pairs as [Equal] sees it. *)
Definition congruent (m : Z) (a b : Z * Z) : Prop :=
  fst a mod m = fst b mod m /\ snd a mod m = snd b mod m.

(** The part of the group law the curve-arithmetic provider is trusted
    for: (0,0) is neutral on the right, and [N - 1] times a point is its
    inverse. *)
Record group_provider (curve : p256.Curve) : Prop := {
  modulus_pos : 0 < elliptic.P (p256.p curve);
  order_ge_2 : 2 <= elliptic.N (p256.p curve);
  add_identity : forall xv yv,
    valid_coords curve xv yv = true ->
    congruent (elliptic.P (p256.p curve))
      (elliptic.Add (p256.ec curve) xv yv 0 0) (xv, yv);
  mul_inverse : forall xv yv,
    valid_coords curve xv yv = true ->
    congruent (elliptic.P (p256.p curve))
      (let '(nx, ny) :=
         elliptic.ScalarMult (p256.ec curve) xv yv
           (big.Bytes (elliptic.N (p256.p curve) - 1)) in
       elliptic.Add (p256.ec curve) xv yv nx ny)
      (0, 0)
}.

(** A curve small enough to check the provider's contract point by
    point: [y^2 = x^3 - 3x + 6] over the field of 7 elements, a group of
    order 11, with the square root [c^((7+1)/4)]. *)
Definition toy_params : elliptic.CurveParams := {|
  elliptic.P := 7; elliptic.N := 11; elliptic.B := 6;
  elliptic.Gx := 1; elliptic.Gy := 2; elliptic.BitSize := 3
|}.

(** The toy curve as a [Curve] of the package. *)
Definition toy_curve : p256.Curve := {|
  p256.ec := elliptic.CurveParams_Curve toy_params;
  p256.ops := {| p256.sqrt := fun c => big.Exp c 2 7 |};
  p256.p := toy_params
|}.

(** Trial division: no [k] with [d <= k] and [k * k <= n] divides [n]. *)
Fixpoint no_divisor_from (fuel : nat) (n d : Z) : bool :=
  if d * d >? n then true
  else
    match fuel with
    | O => false
    | S fuel' =>
        if n mod d =? 0 then false else no_divisor_from fuel' n (d + 1)
    end.

(** Primality by trial division up to the square root. *)
Definition trial_prime (n : Z) : bool :=
  (1 <? n) && no_divisor_from (Z.to_nat (Z.sqrt n)) n 2.

(** Pocklington's test of [n] with the witness [a], for [n - 1 = F * R]
    where [F] is the product of the primes [qs] and [n < F * F]. *)
Definition pocklington (n a : Z) (qs : list Z) (R : Z) : bool :=
  let F := fold_right Z.mul 1 qs in
  (1 <? n) && (n - 1 =? F * R) && (n <? F * F)
  && (Zpow_mod a (n - 1) n =? 1)
  && forallb (fun q => Z.gcd (Zpow_mod a ((n - 1) / q) n - 1) n =? 1) qs.

(** The exponent the addition chain of [sqrt] assembles. *)
Definition sqrt_exponent : Z := 2 ^ 254 - 2 ^ 222 + 2 ^ 190 + 2 ^ 94.

(** [t] is congruent to the power [c ^ e]. *)
Definition power_of (m c t e : Z) : Prop :=
  0 <= e /\ t mod m = c ^ e mod m.

(** [h] with the cells listed in [cs] replaced by their residues
    modulo [m]. *)
Definition reduce_cells (m : Z) (cs : list nat) (h : list Z) : list Z :=
  imap (fun n v => if bool_decide (n ∈ cs) then v mod m else v) h.

(** The integers the two coordinate pointers of [P] lead to in [h];
    [None] when a pointer is nil or does not point into [h]. *)
Definition coordinates (h : list Z) (P : p256.CurvePoint) : option (Z * Z) :=
  a ← p256.x P; b ← p256.y P; xv ← h !! a; yv ← h !! b; Some (xv, yv).

(** The cells the coordinate pointers of [P] name. *)
Definition cells (P : p256.CurvePoint) : list nat :=
  match p256.x P with Some a => [a] | None => [] end
  ++ match p256.y P with Some b => [b] | None => [] end.

(** Every coordinate pointer of [P] that is not nil points into [h]. *)
Definition pointers_in (h : list Z) (P : p256.CurvePoint) : Prop :=
  forall a, a ∈ cells P -> (a < length h)%nat.

(** The part of the point encoding the curve-arithmetic provider is
    trusted for: [Marshal] writes a marker byte and then a body that is
    all zero exactly for the pair (0,0), and [Unmarshal] reads back what
    [Marshal] wrote for a point on the curve. *)
Record codec_provider (curve : p256.Curve) : Prop := {
  marshal_shape : forall xv yv,
    valid_coords curve xv yv = true ->
    exists marker body,
      elliptic.Marshal (p256.ec curve) xv yv = marker :: body /\
      (Forall (eq x00) body <-> xv = 0 /\ yv = 0);
  unmarshal_marshal : forall xv yv,
    elliptic.IsOnCurve (p256.ec curve) xv yv = true ->
    elliptic.Unmarshal (p256.ec curve)
      (elliptic.Marshal (p256.ec curve) xv yv) = Some (xv, yv)
}.

(** The coordinates of [P] in [h] satisfy the equation of its curve,
    [y^2 = x^3 - 3x + b (mod p)]. *)
Definition on_curve (h : list Z) (P : p256.CurvePoint) : Prop :=
  exists xv yv,
    coordinates h P = Some (xv, yv) /\
    (yv * yv) mod elliptic.P (p256.p (p256.C P))
    = (xv * xv * xv - 3 * xv + elliptic.B (p256.p (p256.C P)))
      mod elliptic.P (p256.p (p256.C P)).

(** The cells of [P] were allocated after [h] and lie in [h']. *)
Definition allocated_between (h h' : list Z) (P : p256.CurvePoint) : Prop :=
  forall a, a ∈ cells P -> (length h <= a < length h')%nat.

(** The key stream whose byte 33 is [01], all others zero. *)
Definition ks33 : cipher.Stream :=
  {| cipher.key := fun i => if (i =? 33)%nat then x01 else x00;
     cipher.off := 0 |}.

(** The P-256 point whose coordinate pointers are the cells [a] and
    [b]. *)
Definition point_at (a b : nat) : p256.CurvePoint :=
  {| p256.x := Some a; p256.y := Some b; p256.C := p256.P256.Init |}.

(** The heap that holds the coordinates of the P-256 base point. *)
Definition base_heap : list Z :=
  [elliptic.Gx elliptic.P256_params; elliptic.Gy elliptic.P256_params].

(** * Properties *)

Ltac exec :=
  repeat progress
    (unfold mbind, Exec_bind, bind, ret, lift, panic, deref, assign, new_Int
       in *;
     cbn beta iota in *).

Section HeapFacts.
Implicit Types (h t : list Z) (n : nat) (v : Z).

Lemma lookup_fresh h v t : (h ++ v :: t) !! length h = Some v.
Proof. rewrite lookup_app_r by lia. now rewrite Nat.sub_diag. Qed.

Lemma lookup_old h t n v : h !! n = Some v -> (h ++ t) !! n = Some v.
Proof. intros H. apply lookup_app_l_Some. exact H. Qed.
End HeapFacts.

Lemma Bytes_0 : big.Bytes 0 = [].
Proof. reflexivity. Qed.

Lemma index_replicate {A} (a : A) (n : nat) (i : Z) :
  0 <= i < Z.of_nat n -> index (replicate n a) i = Some a.
Proof.
  intros Hi. unfold index.
  destruct (Z.ltb_spec i 0); [lia|].
  apply lookup_replicate_2. lia.
Qed.

Lemma slice_empty {A} (l : list A) (i : Z) :
  0 <= i <= len l -> slice l i i = Some [].
Proof.
  unfold len. intros Hi. unfold slice.
  destruct (Z.ltb_spec i 0); [lia|].
  destruct (Z.ltb_spec i i); [lia|].
  destruct (Z.ltb_spec (Z.of_nat (length l)) i); [lia|].
  simpl. now rewrite Z.sub_diag.
Qed.

(** C9. A point set to the identity by [Null] carries the empty payload:
    [Data] pads the zero x-coordinate to [coordLen] zero bytes, reads the
    length tag 0 and returns the empty slice with no error (for a curve
    with at least one coordinate byte and a non-negative [EmbedLen]). *)
Theorem Data_of_Null (P : p256.CurvePoint) (h : list Z) :
  0 < p256.coordLen (p256.C P) ->
  0 <= p256.EmbedLen P ->
  exists P' h',
    p256.Null P h = Some (P', h') /\
    p256.Data P' h' = Some (inl [], h').
Proof.
  intros Hl He.
  eexists _, _. split; [reflexivity|].
  unfold p256.Data. exec. cbn [p256.x p256.C].
  rewrite <- app_assoc. cbn [app]. rewrite lookup_fresh.
  rewrite Bytes_0. change (len (@nil byte)) with 0.
  destruct (Z.ltb_spec 0 (p256.coordLen (p256.C P))) as [_|]; [|lia].
  rewrite Z.sub_0_r, app_nil_r.
  rewrite index_replicate by lia. exec.
  change (Z_of_byte "000") with 0.
  unfold p256.EmbedLen in *. cbn [p256.C] in *.
  destruct (Z.gtb_spec 0 ((big.BitLen (elliptic.P (p256.p (p256.C P))) - 8 - 8) ÷ 8)); [lia|].
  rewrite Z.sub_0_r, slice_empty; [reflexivity|].
  unfold len. rewrite length_replicate. lia.
Qed.

Lemma Data_of_Null_P256 :
  exists P' h',
    p256.Null (p256.Point p256.P256.Init) [] = Some (P', h') /\
    p256.Data P' h' = Some (inl [], h').
Proof. apply Data_of_Null; vm_compute; [reflexivity | discriminate]. Defined.

(** ** [Equal]: in-place reduction of shared cells *)
Section Reduction.
Variable m : Z.
Hypothesis m_pos : 0 < m.

Lemma reduced_from_refl h : reduced_from m h h.
Proof. split; [reflexivity|]. intros n v Hn. now left. Qed.

Lemma reduced_from_mod h h' n v w :
  reduced_from m h h' -> h !! n = Some v -> h' !! n = Some w ->
  w mod m = v mod m.
Proof.
  intros [_ Hr] Hn Hn'. destruct (Hr n v Hn) as [E|E];
    rewrite E in Hn'; inversion Hn'; subst; [reflexivity|].
  apply Z.mod_mod. lia.
Qed.

Lemma reduced_from_step h0 h n w :
  reduced_from m h0 h -> h !! n = Some w ->
  reduced_from m h0 (<[n := w mod m]> h).
Proof.
  intros Hr Hw. pose proof Hr as [Hlen Hcell].
  split; [now rewrite length_insert|].
  intros n0 v0 Hn0. destruct (decide (n = n0)) as [->|Hne].
  - rewrite list_lookup_insert_eq by (eapply lookup_lt_Some; eauto).
    right. f_equal. eapply reduced_from_mod; eauto.
  - rewrite list_lookup_insert_ne by exact Hne. now apply Hcell.
Qed.

(** A successful [Mod_in_place] by [m] or [-m] rewrote one allocated
    cell. *)
Lemma Mod_in_place_inv a m' h h' :
  Z.abs m' = m ->
  p256.Mod_in_place a m' h = Some (tt, h') ->
  exists n w, a = Some n /\ h !! n = Some w /\ h' = <[n := w mod m]> h.
Proof.
  intros Hm. unfold p256.Mod_in_place.
  destruct (m' =? 0); [discriminate|]. exec.
  destruct a as [n|]; [|discriminate].
  destruct (h !! n) as [w|] eqn:Hw; [|discriminate]. exec.
  rewrite Hw. unfold big.Mod. rewrite Hm. intros E. inversion E. eauto.
Qed.

Lemma Mod_in_place_spec h0 h a v :
  reduced_from m h0 h -> h0 !! a = Some v ->
  exists h',
    p256.Mod_in_place (Some a) m h = Some (tt, h') /\
    reduced_from m h0 h' /\
    h' !! a = Some (v mod m) /\
    (forall b w, h0 !! b = Some w -> h !! b = Some (w mod m) ->
                 h' !! b = Some (w mod m)).
Proof.
  intros Hr Ha. pose proof Hr as [Hlen Hcell].
  assert (Hlt : (a < length h)%nat).
  { rewrite Hlen. eapply lookup_lt_Some; eauto. }
  destruct (lookup_lt_is_Some_2 h a Hlt) as [w Hw].
  assert (Hwm : w mod m = v mod m) by (eapply reduced_from_mod; eauto).
  unfold p256.Mod_in_place. destruct (Z.eqb_spec m 0); [lia|].
  exec. rewrite Hw. exec. rewrite Hw.
  unfold big.Mod. rewrite (Z.abs_eq m) by lia. rewrite Hwm.
  eexists. split; [reflexivity|]. split; [|split].
  - rewrite <- Hwm. now apply reduced_from_step.
  - now rewrite list_lookup_insert_eq by lia.
  - intros b w0 Hb0 Hb. destruct (decide (a = b)) as [->|Hne].
    + rewrite list_lookup_insert_eq by lia.
      rewrite Hb0 in Ha. now inversion Ha.
    + now rewrite list_lookup_insert_ne by exact Hne.
Qed.
End Reduction.

Lemma Cmp_eq_0 a b : (big.Cmp a b =? 0) = (a =? b).
Proof.
  unfold big.Cmp. destruct (Z.compare_spec a b) as [->|H|H].
  - rewrite !Z.eqb_refl. reflexivity.
  - symmetry. simpl. apply Z.eqb_neq. lia.
  - symmetry. simpl. apply Z.eqb_neq. lia.
Qed.

(** What [Equal] does to the heap and what it answers, for points whose
    four coordinate pointers are allocated (in any aliasing pattern). *)
Lemma Equal_spec (P Q : p256.CurvePoint) (h : list Z)
    (xa ya xb yb : nat) (px py qx qy : Z) :
  let m := elliptic.P (p256.p (p256.C P)) in
  0 < m ->
  p256.x P = Some xa -> p256.y P = Some ya ->
  p256.x Q = Some xb -> p256.y Q = Some yb ->
  h !! xa = Some px -> h !! ya = Some py ->
  h !! xb = Some qx -> h !! yb = Some qy ->
  exists h',
    p256.Equal P Q h
    = Some ((px mod m =? qx mod m) && (py mod m =? qy mod m), h') /\
    reduced_from m h h' /\
    h' !! xa = Some (px mod m) /\ h' !! ya = Some (py mod m) /\
    h' !! xb = Some (qx mod m) /\ h' !! yb = Some (qy mod m).
Proof.
  intros m Hm Hxa Hya Hxb Hyb Hpx Hpy Hqx Hqy.
  destruct (Mod_in_place_spec m Hm h h xa px (reduced_from_refl m h) Hpx)
    as (h1 & E1 & R1 & V1 & K1).
  destruct (Mod_in_place_spec m Hm h h1 ya py R1 Hpy)
    as (h2 & E2 & R2 & V2 & K2).
  destruct (Mod_in_place_spec m Hm h h2 xb qx R2 Hqx)
    as (h3 & E3 & R3 & V3 & K3).
  destruct (Mod_in_place_spec m Hm h h3 yb qy R3 Hqy)
    as (h4 & E4 & R4 & V4 & K4).
  assert (F1 : h4 !! xa = Some (px mod m)) by eauto.
  assert (F2 : h4 !! ya = Some (py mod m)) by eauto.
  assert (F3 : h4 !! xb = Some (qx mod m)) by eauto.
  exists h4. split; [|tauto].
  unfold p256.Equal. fold m. rewrite Hxa, Hya, Hxb, Hyb.
  unfold mbind, Exec_bind, bind at 1. rewrite E1.
  unfold bind at 1. rewrite E2.
  unfold bind at 1. rewrite E3.
  unfold bind at 1. rewrite E4.
  exec. rewrite F1, F3. rewrite Cmp_eq_0.
  destruct (px mod m =? qx mod m); [|reflexivity].
  rewrite F2, V4. now rewrite Cmp_eq_0.
Qed.

(** C6. [Equal] answers true exactly when the stored coordinates of the
    two points agree modulo the prime of the receiver's curve; the
    coordinates may be unreduced and the four pointers may alias.  In
    particular a point with the coordinates [x + p] and [y + p] is equal
    to the point with [x] and [y]. *)
Theorem Equal_iff_congruent (P Q : p256.CurvePoint) (h : list Z)
    (xa ya xb yb : nat) (px py qx qy : Z) :
  let m := elliptic.P (p256.p (p256.C P)) in
  0 < m ->
  p256.x P = Some xa -> p256.y P = Some ya ->
  p256.x Q = Some xb -> p256.y Q = Some yb ->
  h !! xa = Some px -> h !! ya = Some py ->
  h !! xb = Some qx -> h !! yb = Some qy ->
  exists b h',
    p256.Equal P Q h = Some (b, h') /\
    (b = true <-> px mod m = qx mod m /\ py mod m = qy mod m) /\
    (px = qx + m -> py = qy + m -> b = true).
Proof.
  intros m Hm Hxa Hya Hxb Hyb Hpx Hpy Hqx Hqy.
  destruct (Equal_spec P Q h xa ya xb yb px py qx qy
              Hm Hxa Hya Hxb Hyb Hpx Hpy Hqx Hqy) as (h' & E & _).
  eexists _, h'. split; [exact E|].
  rewrite andb_true_iff, !Z.eqb_eq. split; [reflexivity|].
  intros -> ->.
  split; [replace (qx + m) with (qx + 1 * m) by lia
         | replace (qy + m) with (qy + 1 * m) by lia];
    apply Z.mod_add; lia.
Qed.

Lemma Equal_iff_congruent_unreduced :
  let params := elliptic.P256_params in
  let h := [elliptic.Gx params + elliptic.P params;
            elliptic.Gy params + elliptic.P params;
            elliptic.Gx params; elliptic.Gy params] in
  let P := {| p256.x := Some 0%nat; p256.y := Some 1%nat;
              p256.C := p256.P256.Init |} in
  let Q := {| p256.x := Some 2%nat; p256.y := Some 3%nat;
              p256.C := p256.P256.Init |} in
  exists b h',
    p256.Equal P Q h = Some (b, h') /\
    (b = true <->
     (elliptic.Gx params + elliptic.P params) mod elliptic.P params
     = elliptic.Gx params mod elliptic.P params /\
     (elliptic.Gy params + elliptic.P params) mod elliptic.P params
     = elliptic.Gy params mod elliptic.P params) /\
    (elliptic.Gx params + elliptic.P params
     = elliptic.Gx params + elliptic.P params ->
     elliptic.Gy params + elliptic.P params
     = elliptic.Gy params + elliptic.P params -> b = true).
Proof.
  intros params h P Q.
  apply (Equal_iff_congruent P Q h 0 1 2 3); reflexivity.
Defined.

(** ** Frame: operations that only allocate *)

Lemma allocates_ret {A} (a : A) : allocates (ret a).
Proof. intros h a' h' E. inversion E. reflexivity. Qed.

Lemma allocates_panic {A} : allocates (@panic A).
Proof. intros h a h' E. discriminate. Qed.

Lemma allocates_lift {A} (o : option A) : allocates (lift o).
Proof. destruct o; [apply allocates_ret | apply allocates_panic]. Qed.

Lemma allocates_bind {A B} (m : Exec A) (k : A -> Exec B) :
  allocates m -> (forall a, allocates (k a)) -> allocates (m ≫= k).
Proof.
  intros Hm Hk h b h' E. unfold mbind, Exec_bind, bind in E.
  destruct (m h) as [[a h1]|] eqn:E1; [|discriminate].
  etransitivity; [eapply Hm; eauto | eapply Hk; eauto].
Qed.

Lemma allocates_new_Int v : allocates (new_Int v).
Proof. intros h a h' E. inversion E. now apply prefix_app_r. Qed.

Lemma allocates_deref a : allocates (deref a).
Proof.
  intros h v h' E. unfold deref in E. destruct a as [n|]; [|discriminate].
  destruct (h !! n); inversion E. reflexivity.
Qed.

Create HintDb frame.
#[local] Hint Resolve allocates_ret allocates_panic allocates_lift
  allocates_new_Int allocates_deref : frame.

Ltac frame :=
  repeat first
    [ solve [eauto with frame]
    | match goal with
      | |- allocates (_ ≫= _) => apply allocates_bind; [|intros ?]
      | |- allocates (match ?x with _ => _ end) => destruct x
      | |- allocates (if ?b then _ else _) => destruct b
      end ].

Lemma allocates_Null P : allocates (p256.Null P).
Proof. unfold p256.Null. frame. Qed.

Lemma allocates_Valid P : allocates (p256.Valid P).
Proof. unfold p256.Valid. frame. Qed.

Lemma allocates_Add P A B : allocates (p256.Add P A B).
Proof. unfold p256.Add. frame. Qed.

Lemma allocates_Mul P s B : allocates (p256.Mul P s B).
Proof. unfold p256.Mul. frame. Qed.

Lemma allocates_Neg P A : allocates (p256.Neg P A).
Proof. unfold p256.Neg. apply allocates_Mul. Qed.

Lemma allocates_Sub P A B : allocates (p256.Sub P A B).
Proof.
  unfold p256.Sub. apply allocates_bind; [apply allocates_Neg|].
  intros ?. apply allocates_Add.
Qed.

Lemma allocates_Data P : allocates (p256.Data P).
Proof. unfold p256.Data. frame. Qed.

Lemma allocates_MarshalBinary P : allocates (p256.MarshalBinary P).
Proof. unfold p256.MarshalBinary. frame. Qed.

Lemma allocates_UnmarshalBinary P buf :
  allocates (p256.UnmarshalBinary P buf).
Proof.
  unfold p256.UnmarshalBinary. pose proof allocates_Valid. frame.
Qed.

Lemma index_0 {A} (a : A) (l : list A) : index (a :: l) 0 = Some a.
Proof. reflexivity. Qed.

(** [genPoint] writes only to the cell it has just allocated for [y]. *)
Lemma genPoint_heap P xa rand h r h' :
  p256.genPoint P xa rand h = Some (r, h') ->
  exists yv, h' = h ++ [yv].
Proof.
  unfold p256.genPoint. exec.
  destruct xa as [n|]; [|discriminate].
  destruct (h !! n) as [xv|]; [|discriminate]. exec.
  destruct (elliptic.P (p256.p (p256.C P)) =? 0); [discriminate|]. exec.
  cbn [replicate cipher.XORKeyStream cipher.xor_from].
  rewrite index_0. exec.
  match goal with
  | |- context [negb (Z.land ?a 128 =? 0)] =>
      destruct (negb (Z.land a 128 =? 0))
  end; exec.
  - rewrite lookup_fresh. rewrite insert_app_r_alt by lia.
    rewrite Nat.sub_diag. cbn [insert list_insert]. exec.
    repeat (rewrite lookup_fresh; exec).
    match goal with
    | |- context [negb (big.Cmp ?a ?b =? 0)] =>
        destruct (negb (big.Cmp a b =? 0))
    end; intros E; inversion E; eauto.
  - repeat (rewrite lookup_fresh; exec).
    match goal with
    | |- context [negb (big.Cmp ?a ?b =? 0)] =>
        destruct (negb (big.Cmp a b =? 0))
    end; intros E; inversion E; eauto.
Qed.

Lemma allocates_genPoint P xa rand : allocates (p256.genPoint P xa rand).
Proof.
  intros h r h' E. apply genPoint_heap in E as [yv ->].
  now apply prefix_app_r.
Qed.

Lemma allocates_Embed_try P data l dl rand :
  allocates (p256.Embed_try P data l dl rand).
Proof.
  unfold p256.Embed_try. pose proof allocates_genPoint. frame.
Qed.

Lemma allocates_Embed_loop fuel P data l dl rand :
  allocates (p256.Embed_loop fuel P data l dl rand).
Proof.
  revert rand. induction fuel as [|fuel IH]; intros rand; simpl.
  - apply allocates_ret.
  - apply allocates_bind; [apply allocates_Embed_try|].
    intros [[ok P'] rand']. destruct ok; [apply allocates_ret | apply IH].
Qed.

Lemma allocates_Embed fuel P data rand :
  allocates (p256.Embed fuel P data rand).
Proof. apply allocates_Embed_loop. Qed.

(** ** [Clone] and [Set]: the coordinates are shared *)

Lemma deref_inv a h v h' :
  deref a h = Some (v, h') ->
  h' = h /\ exists n, a = Some n /\ h !! n = Some v.
Proof.
  unfold deref. destruct a as [n|]; [|discriminate].
  destruct (h !! n) eqn:E; intros H; inversion H; subst. eauto.
Qed.

(** A successful [Equal] replaces cells by their residues and does nothing
    else to the heap. *)
Lemma Equal_reduces P Q h b h' :
  p256.Equal P Q h = Some (b, h') ->
  let m := Z.abs (elliptic.P (p256.p (p256.C P))) in
  0 < m /\ reduced_from m h h'.
Proof.
  intros E m.
  assert (Hm : 0 < m).
  { unfold p256.Equal, mbind, Exec_bind, bind, p256.Mod_in_place in E.
    destruct (Z.eqb_spec (elliptic.P (p256.p (p256.C P))) 0);
      [discriminate | subst m; lia]. }
  split; [exact Hm|].
  unfold p256.Equal, mbind, Exec_bind in E. unfold bind at 1 in E.
  destruct (p256.Mod_in_place (p256.x P) _ h) as [[[] h1]|] eqn:E1;
    [|discriminate].
  unfold bind at 1 in E.
  destruct (p256.Mod_in_place (p256.y P) _ h1) as [[[] h2]|] eqn:E2;
    [|discriminate].
  unfold bind at 1 in E.
  destruct (p256.Mod_in_place (p256.x Q) _ h2) as [[[] h3]|] eqn:E3;
    [|discriminate].
  unfold bind at 1 in E.
  destruct (p256.Mod_in_place (p256.y Q) _ h3) as [[[] h4]|] eqn:E4;
    [|discriminate].
  assert (h' = h4) as ->.
  { unfold bind at 1 in E.
    destruct (deref (p256.x P) h4) as [[px k1]|] eqn:D1; [|discriminate].
    apply deref_inv in D1 as [-> _]. unfold bind at 1 in E.
    destruct (deref (p256.x Q) h4) as [[qx k2]|] eqn:D2; [|discriminate].
    apply deref_inv in D2 as [-> _].
    destruct (big.Cmp px qx =? 0); [|inversion E; reflexivity].
    unfold bind at 1 in E.
    destruct (deref (p256.y P) h4) as [[py k3]|] eqn:D3; [|discriminate].
    apply deref_inv in D3 as [-> _]. unfold bind at 1 in E.
    destruct (deref (p256.y Q) h4) as [[qy k4]|] eqn:D4; [|discriminate].
    apply deref_inv in D4 as [-> _]. inversion E; reflexivity. }
  apply (Mod_in_place_inv m) in E1 as (n1 & w1 & _ & L1 & ->);
    [|reflexivity].
  apply (Mod_in_place_inv m) in E2 as (n2 & w2 & _ & L2 & ->);
    [|reflexivity].
  apply (Mod_in_place_inv m) in E3 as (n3 & w3 & _ & L3 & ->);
    [|reflexivity].
  apply (Mod_in_place_inv m) in E4 as (n4 & w4 & _ & L4 & ->);
    [|reflexivity].
  repeat (apply (reduced_from_step m Hm); [|assumption]).
  apply reduced_from_refl.
Qed.

Lemma allocates_keeps {A} (m : Exec A) h a v :
  allocates m -> h !! a = Some v -> keeps m h a v.
Proof.
  intros Hm Ha r h' E. eapply prefix_lookup_Some; [exact Ha|].
  eapply Hm; eauto.
Qed.

(** What any point [Q] can do, through the operations of the package, to
    an integer [v] stored in cell [a]. *)
Lemma operations_on_cell (Q : p256.CurvePoint) (h : list Z) (a : nat)
    (v : Z) :
  h !! a = Some v ->
  keeps (p256.Null Q) h a v /\
  keeps (p256.Valid Q) h a v /\
  keeps (p256.Data Q) h a v /\
  keeps (p256.MarshalBinary Q) h a v /\
  (forall A B, keeps (p256.Add Q A B) h a v) /\
  (forall A B, keeps (p256.Sub Q A B) h a v) /\
  (forall A, keeps (p256.Neg Q A) h a v) /\
  (forall s B, keeps (p256.Mul Q s B) h a v) /\
  (forall buf, keeps (p256.UnmarshalBinary Q buf) h a v) /\
  (forall fuel data rand, keeps (p256.Embed fuel Q data rand) h a v) /\
  (forall R b h',
      p256.Equal Q R h = Some (b, h') ->
      h' !! a = Some v \/
      h' !! a = Some (v mod Z.abs (elliptic.P (p256.p (p256.C Q))))).
Proof.
  intros Ha.
  repeat match goal with
         | |- _ /\ _ => split
         | |- forall _, _ => intro
         | |- keeps _ _ _ _ => apply allocates_keeps; [|exact Ha]
         end;
    auto using allocates_Null, allocates_Valid, allocates_Data,
      allocates_MarshalBinary, allocates_Add, allocates_Sub, allocates_Neg,
      allocates_Mul, allocates_UnmarshalBinary, allocates_Embed.
  match goal with
  | E : p256.Equal _ _ _ = _ |- _ =>
      apply Equal_reduces in E as [_ [_ Hcell]]; now apply Hcell
  end.
Qed.

(** C5 (as amended). [Clone] and [Set] copy the two coordinate pointers,
    not the integers: the copy [Q] and the original [P] share their
    coordinate cells.  Every operation on [Q] that assigns coordinates or
    only reads them leaves the integers stored for [P] as they were;
    [Equal] on [Q] may replace a stored coordinate of [P] by its residue
    modulo the prime, and by nothing else. *)
Theorem Clone_Set_share_cells (P Q0 : p256.CurvePoint) (h : list Z)
    (a : nat) (v : Z) :
  (p256.x P = Some a \/ p256.y P = Some a) ->
  h !! a = Some v ->
  forall Q, Q = p256.Clone P \/ Q = p256.Set_ Q0 P ->
  (p256.x Q = p256.x P /\ p256.y Q = p256.y P) /\
  keeps (p256.Null Q) h a v /\
  keeps (p256.Valid Q) h a v /\
  keeps (p256.Data Q) h a v /\
  keeps (p256.MarshalBinary Q) h a v /\
  (forall A B, keeps (p256.Add Q A B) h a v) /\
  (forall A B, keeps (p256.Sub Q A B) h a v) /\
  (forall A, keeps (p256.Neg Q A) h a v) /\
  (forall s B, keeps (p256.Mul Q s B) h a v) /\
  (forall buf, keeps (p256.UnmarshalBinary Q buf) h a v) /\
  (forall fuel data rand, keeps (p256.Embed fuel Q data rand) h a v) /\
  (forall R b h',
      p256.Equal Q R h = Some (b, h') ->
      h' !! a = Some v \/
      h' !! a = Some (v mod Z.abs (elliptic.P (p256.p (p256.C Q))))).
Proof.
  intros _ Ha Q HQ. split.
  - destruct HQ as [-> | ->]; split; reflexivity.
  - now apply operations_on_cell.
Qed.

Lemma Clone_Set_share_cells_P256 :
  let P := {| p256.x := Some 0%nat; p256.y := Some 1%nat;
              p256.C := p256.P256.Init |} in
  let Q := p256.Clone P in
  let h := [2 ^ 256 - 1; 5] in
  (p256.x Q = p256.x P /\ p256.y Q = p256.y P) /\
  keeps (p256.Null Q) h 0 (2 ^ 256 - 1) /\
  keeps (p256.Valid Q) h 0 (2 ^ 256 - 1) /\
  keeps (p256.Data Q) h 0 (2 ^ 256 - 1) /\
  keeps (p256.MarshalBinary Q) h 0 (2 ^ 256 - 1) /\
  (forall A B, keeps (p256.Add Q A B) h 0 (2 ^ 256 - 1)) /\
  (forall A B, keeps (p256.Sub Q A B) h 0 (2 ^ 256 - 1)) /\
  (forall A, keeps (p256.Neg Q A) h 0 (2 ^ 256 - 1)) /\
  (forall s B, keeps (p256.Mul Q s B) h 0 (2 ^ 256 - 1)) /\
  (forall buf, keeps (p256.UnmarshalBinary Q buf) h 0 (2 ^ 256 - 1)) /\
  (forall fuel data rand,
      keeps (p256.Embed fuel Q data rand) h 0 (2 ^ 256 - 1)) /\
  (forall R b h',
      p256.Equal Q R h = Some (b, h') ->
      h' !! 0%nat = Some (2 ^ 256 - 1) \/
      h' !! 0%nat
      = Some ((2 ^ 256 - 1) mod Z.abs (elliptic.P (p256.p (p256.C Q))))).
Proof.
  intros P Q h.
  apply (Clone_Set_share_cells P P h 0 (2 ^ 256 - 1));
    [left; reflexivity | reflexivity | left; reflexivity].
Defined.

(** ** [UnmarshalBinary] *)

Lemma Z_of_byte_nonneg b : 0 <= Z_of_byte b.
Proof. unfold Z_of_byte. lia. Qed.

Lemma Z_of_byte_lt b : Z_of_byte b < 256.
Proof. unfold Z_of_byte. pose proof (Byte.to_N_bounded b). lia. Qed.

Lemma Z_of_byte_0 b : Z_of_byte b = 0 -> b = x00.
Proof.
  unfold Z_of_byte. intros H.
  assert (E : Byte.to_N b = Byte.to_N x00) by (simpl; lia).
  apply (f_equal Byte.of_N) in E. rewrite !Byte.of_to_N in E.
  now inversion E.
Qed.

(** The accumulator [c |= b] over a slice is zero exactly when it was zero
    and every byte is zero. *)
Lemma or_fold_zero (body : list byte) (c0 : Z) :
  0 <= c0 ->
  (fold_left (fun c b => Z.lor c (Z_of_byte b)) body c0 =? 0) = true <->
  c0 = 0 /\ Forall (eq x00) body.
Proof.
  revert c0. induction body as [|b body IH]; intros c0 Hc; simpl.
  - rewrite Z.eqb_eq. intuition auto.
  - rewrite IH by (apply Z.lor_nonneg; split;
                   [exact Hc | apply Z_of_byte_nonneg]).
    rewrite Z.lor_eq_0_iff. split.
    + intros [[-> Hb] Hall]. split; [reflexivity|].
      constructor; [symmetry; now apply Z_of_byte_0 | exact Hall].
    + intros [-> Hall]. inversion Hall; subst. repeat split; auto.
Qed.

Lemma slice_tail {A} (a : A) (l : list A) :
  slice (a :: l) 1 (len (a :: l)) = Some l.
Proof.
  unfold slice, len.
  destruct (Z.ltb_spec 1 0); [lia|].
  destruct (Z.ltb_spec (Z.of_nat (length (a :: l))) 1);
    [simpl in *; lia|].
  destruct (Z.ltb_spec (Z.of_nat (length (a :: l)))
              (Z.of_nat (length (a :: l)))); [lia|].
  cbn [orb]. f_equal. change (Z.to_nat 1) with 1%nat. cbn [drop].
  apply take_ge. simpl length. lia.
Qed.

(** The three ways through [UnmarshalBinary] on a non-empty buffer. *)
Lemma UnmarshalBinary_cases (P : p256.CurvePoint) (marker : byte)
    (body : list byte) (h : list Z) :
  let buf := marker :: body in
  let fresh := {| p256.x := Some (length h);
                  p256.y := Some (S (length h));
                  p256.C := p256.C P |} in
  (Forall (eq x00) body ->
   p256.UnmarshalBinary P buf h = Some ((fresh, None), h ++ [0; 0])) /\
  (~ Forall (eq x00) body ->
   match elliptic.Unmarshal (p256.ec (p256.C P)) buf with
   | None =>
       p256.UnmarshalBinary P buf h
       = Some (({| p256.x := None; p256.y := None; p256.C := p256.C P |},
                Some invalid_point), h)
   | Some (xv, yv) =>
       p256.UnmarshalBinary P buf h
       = Some ((fresh,
                if elliptic.IsOnCurve (p256.ec (p256.C P)) xv yv
                   || ((big.Sign xv =? 0) && (big.Sign yv =? 0))
                then None else Some invalid_point),
               h ++ [xv; yv])
   end).
Proof.
  intros buf fresh. unfold p256.UnmarshalBinary. subst buf.
  rewrite slice_tail. exec.
  pose proof (or_fold_zero body 0 (Z.le_refl 0)) as Hz.
  destruct (fold_left _ body 0 =? 0) eqn:E; cbn [negb]; split.
  - intros _. subst fresh. rewrite length_app, Nat.add_1_r.
    now rewrite <- app_assoc.
  - intros Hn. exfalso. apply Hn. now apply Hz.
  - intros Hall. destruct Hz as [_ Hz].
    assert (F : false = true) by (apply Hz; auto). discriminate F.
  - intros _.
    destruct (elliptic.Unmarshal _ _) as [[xv yv]|]; [|reflexivity].
    exec. unfold p256.Valid. exec. cbn [p256.x p256.y p256.C].
    rewrite lookup_app_l by (rewrite length_app; simpl; lia).
    rewrite lookup_fresh. rewrite length_app, Nat.add_1_r.
    rewrite <- app_assoc. cbn [app].
    replace ((h ++ [xv; yv]) !! S (length h)) with (Some yv).
    2:{ rewrite lookup_app_r by lia.
        now replace (S (length h) - length h)%nat with 1%nat by lia. }
    destruct (_ || _); reflexivity.
Qed.

(** C3 (as amended). On a non-empty buffer [UnmarshalBinary] never
    panics.  When every byte after the marker is zero it stores the
    identity (0,0) and returns no error, whatever the curve's on-curve
    test says.  Otherwise it returns the invalid-point error exactly when
    [elliptic.Unmarshal] rejects the buffer (nil coordinates) or the
    decoded coordinates fail [Valid]; when it returns no error the point
    holds exactly the decoded coordinates. *)
Theorem UnmarshalBinary_error_iff (P : p256.CurvePoint) (marker : byte)
    (body : list byte) (h : list Z) :
  let buf := marker :: body in
  let curve := p256.ec (p256.C P) in
  exists P' err h',
    p256.UnmarshalBinary P buf h = Some ((P', err), h') /\
    (Forall (eq x00) body ->
       err = None /\
       deref (p256.x P') h' = Some (0, h') /\
       deref (p256.y P') h' = Some (0, h')) /\
    (~ Forall (eq x00) body ->
       (err = Some invalid_point <->
        elliptic.Unmarshal curve buf = None \/
        exists xv yv,
          elliptic.Unmarshal curve buf = Some (xv, yv) /\
          elliptic.IsOnCurve curve xv yv
          || ((big.Sign xv =? 0) && (big.Sign yv =? 0)) = false) /\
       (err = None ->
        exists xv yv,
          elliptic.Unmarshal curve buf = Some (xv, yv) /\
          deref (p256.x P') h' = Some (xv, h') /\
          deref (p256.y P') h' = Some (yv, h'))).
Proof.
  intros buf curve.
  destruct (UnmarshalBinary_cases P marker body h) as [Hzero Hnz].
  fold buf curve in Hzero, Hnz.
  assert (Hcell : forall xv yv,
             deref (Some (length h)) (h ++ [xv; yv])
             = Some (xv, h ++ [xv; yv]) /\
             deref (Some (S (length h))) (h ++ [xv; yv])
             = Some (yv, h ++ [xv; yv])).
  { intros xv yv. unfold deref. rewrite lookup_fresh.
    rewrite lookup_app_r by lia.
    now replace (S (length h) - length h)%nat with 1%nat by lia. }
  destruct (List.Forall_dec (eq x00) (fun b => Byte.byte_eq_dec x00 b) body)
    as [Hall | Hn].
  - eexists _, _, _. split; [apply Hzero; exact Hall|].
    split; [|intros Hn; contradiction].
    intros _. split; [reflexivity|]. apply Hcell.
  - specialize (Hnz Hn).
    destruct (elliptic.Unmarshal curve buf) as [[xv yv]|] eqn:EU.
    + eexists _, _, _. split; [exact Hnz|].
      split; [intros Hall; contradiction|]. intros _. split.
      * destruct (_ || _) eqn:EV; split.
        -- discriminate.
        -- intros [? | (xv' & yv' & E' & F')]; [discriminate|].
           inversion E'; subst. rewrite EV in F'. discriminate.
        -- intros _. right. eauto.
        -- reflexivity.
      * intros _. exists xv, yv. split; [reflexivity|]. apply Hcell.
    + eexists _, _, _. split; [exact Hnz|].
      split; [intros Hall; contradiction|]. intros _. split.
      * split; [now left | reflexivity].
      * discriminate.
Qed.

(** C10. When [UnmarshalBinary] returns an error, the body of the buffer
    was not all zero and the receiver no longer points to its former
    coordinates: both pointers are nil when [elliptic.Unmarshal] rejected
    the buffer, and otherwise they point to new integers holding the
    decoded (invalid) coordinates. *)
Theorem UnmarshalBinary_error_overwrites (P P' : p256.CurvePoint)
    (marker : byte) (body : list byte) (h h' : list Z) (msg : string) :
  let buf := marker :: body in
  p256.UnmarshalBinary P buf h = Some ((P', Some msg), h') ->
  ~ Forall (eq x00) body /\
  match elliptic.Unmarshal (p256.ec (p256.C P)) buf with
  | None => p256.x P' = None /\ p256.y P' = None /\ h' = h
  | Some (xv, yv) =>
      deref (p256.x P') h' = Some (xv, h') /\
      deref (p256.y P') h' = Some (yv, h')
  end /\
  (forall a, (a < length h)%nat ->
             p256.x P' <> Some a /\ p256.y P' <> Some a).
Proof.
  intros buf E.
  destruct (UnmarshalBinary_cases P marker body h) as [Hzero Hnz].
  fold buf in Hzero, Hnz.
  destruct (List.Forall_dec (eq x00) (fun b => Byte.byte_eq_dec x00 b) body)
    as [Hall | Hn].
  { rewrite (Hzero Hall) in E. discriminate. }
  split; [exact Hn|]. specialize (Hnz Hn).
  destruct (elliptic.Unmarshal _ buf) as [[xv yv]|].
  - rewrite Hnz in E. inversion E; subst. cbn [p256.x p256.y]. split.
    + unfold deref. rewrite lookup_fresh. rewrite lookup_app_r by lia.
      now replace (S (length h) - length h)%nat with 1%nat by lia.
    + intros a Ha. split; intros F; inversion F; lia.
  - rewrite Hnz in E. inversion E; subst. cbn [p256.x p256.y].
    split; [auto|]. intros a Ha. split; discriminate.
Qed.


(** The claim C3 as stated fails on P-256: a buffer with the marker byte
    [05] followed by the two coordinates of the generator has the right
    length and a non-zero body, its coordinates are on the curve, and yet
    decoding returns the invalid-point error. *)
Lemma UnmarshalBinary_rejects_valid_coordinates :
  let curve := p256.P256.Init in
  let params := elliptic.P256_params in
  let body := big.be_bytes 32 (elliptic.Gx params)
              ++ big.be_bytes 32 (elliptic.Gy params) in
  len (x05 :: body) = 1 + 2 * p256.coordLen curve /\
  ~ Forall (eq x00) body /\
  elliptic.IsOnCurve (p256.ec curve)
    (big.SetBytes (take 32 body)) (big.SetBytes (drop 32 body)) = true /\
  p256.UnmarshalBinary (p256.Point curve) (x05 :: body) []
  = Some ((p256.Point curve, Some invalid_point), []).
Proof.
  intros curve params body.
  assert (Hn : ~ Forall (eq x00) body).
  { intros H. vm_compute in H. apply Forall_inv in H. discriminate H. }
  split; [vm_compute; reflexivity|]. split; [exact Hn|].
  split; [vm_compute; reflexivity|].
  destruct (UnmarshalBinary_cases (p256.Point curve) x05 body [])
    as [_ Hnz].
  specialize (Hnz Hn).
  replace (elliptic.Unmarshal (p256.ec (p256.C (p256.Point curve)))
             (x05 :: body)) with (@None (Z * Z)) in Hnz
    by (vm_compute; reflexivity).
  exact Hnz.
Qed.

Lemma UnmarshalBinary_error_overwrites_P256 :
  let curve := p256.P256.Init in
  let body := big.be_bytes 32 1 ++ big.be_bytes 32 1 in
  let P := {| p256.x := Some 0%nat; p256.y := Some 1%nat;
              p256.C := curve |} in
  let h := [elliptic.Gx elliptic.P256_params;
            elliptic.Gy elliptic.P256_params] in
  ~ Forall (eq x00) body /\
  match elliptic.Unmarshal (p256.ec curve) (x04 :: body) with
  | None => p256.x (p256.Point curve) = None /\
            p256.y (p256.Point curve) = None /\ h = h
  | Some (xv, yv) =>
      deref (p256.x (p256.Point curve)) h = Some (xv, h) /\
      deref (p256.y (p256.Point curve)) h = Some (yv, h)
  end /\
  (forall a, (a < length h)%nat ->
             p256.x (p256.Point curve) <> Some a /\
             p256.y (p256.Point curve) <> Some a).
Proof.
  intros curve body P h.
  apply (UnmarshalBinary_error_overwrites P (p256.Point curve) x04
           body h h invalid_point).
  assert (Hn : ~ Forall (eq x00) body).
  { intros H. vm_compute in H. do 31 apply Forall_inv_tail in H.
    apply Forall_inv in H. discriminate H. }
  destruct (UnmarshalBinary_cases P x04 body h) as [_ Hnz].
  specialize (Hnz Hn).
  replace (elliptic.Unmarshal (p256.ec (p256.C P)) (x04 :: body))
    with (@None (Z * Z)) in Hnz by (vm_compute; reflexivity).
  exact Hnz.
Defined.

(** The claim C5 as stated fails: a point embedding the payload [05]
    under the all-ones key stream stores an x-coordinate above the prime;
    [Equal] called on its clone reduces the shared integer, after which
    the original yields another payload. *)
Lemma Clone_is_not_independent :
  let curve := p256.P256.Init in
  let P := {| p256.x := Some 0%nat; p256.y := Some 1%nat;
              p256.C := curve |} in
  let xv := big.SetBytes (replicate 30 xff ++ [x05; x01]) in
  let yv :=
    13498906406234084242924135375853998074296952689777571132400667388298997793888 in
  Embed_outcome (p256.Embed 1 (p256.Point curve) (Some [x05]) ksFF [])
  = Some (Some (p256.x P, p256.y P, 33%nat), [xv; yv]) /\
  p256.Data P [xv; yv] = Some (inl [x05], [xv; yv]) /\
  p256.Equal (p256.Clone P) (p256.Clone P) [xv; yv]
  = Some (true, [xv mod elliptic.P elliptic.P256_params; yv]) /\
  p256.Data P [xv mod elliptic.P elliptic.P256_params; yv]
  = Some (inl [xff; x05], [xv mod elliptic.P elliptic.P256_params; yv]).
Proof.
  intros curve P xv yv.
  split; [|split; [|split]]; vm_compute; reflexivity.
Qed.

(** ** Bytes and big-endian integers *)

Lemma byte_of_Z_of_byte b : byte_of_Z (Z_of_byte b) = b.
Proof.
  unfold byte_of_Z. pose proof (Z_of_byte_nonneg b). pose proof (Z_of_byte_lt b).
  rewrite Z.mod_small by lia. unfold Z_of_byte.
  rewrite N2Z.id, Byte.of_to_N. reflexivity.
Qed.

Lemma Z_of_byte_of_Z z : Z_of_byte (byte_of_Z z) = z mod 256.
Proof.
  unfold byte_of_Z, Z_of_byte.
  pose proof (Z.mod_pos_bound z 256 ltac:(lia)) as Hb.
  destruct (Byte.of_N (Z.to_N (z mod 256))) as [y|] eqn:E.
  - apply Byte.to_of_N in E. simpl. rewrite E. lia.
  - apply Byte.of_N_None_iff in E. lia.
Qed.

Lemma xor_byte_00 k : cipher.xor_byte x00 k = k.
Proof.
  unfold cipher.xor_byte. change (Z_of_byte x00) with 0.
  rewrite Z.lxor_0_l. apply byte_of_Z_of_byte.
Qed.

Lemma length_xor_from k i src : length (cipher.xor_from k i src) = length src.
Proof.
  revert i. induction src as [|s src IH]; intros i; simpl; [reflexivity|].
  now rewrite IH.
Qed.

Lemma SetBytes_snoc l b :
  big.SetBytes (l ++ [b]) = big.SetBytes l * 256 + Z_of_byte b.
Proof. unfold big.SetBytes. now rewrite fold_left_app. Qed.

Lemma SetBytes_bound l : 0 <= big.SetBytes l < 256 ^ Z.of_nat (length l).
Proof.
  induction l as [|b l IH] using rev_ind.
  - simpl. unfold big.SetBytes. simpl. lia.
  - rewrite SetBytes_snoc, length_app. simpl length.
    rewrite Nat2Z.inj_add, Z.pow_add_r by lia.
    pose proof (Z_of_byte_nonneg b). pose proof (Z_of_byte_lt b).
    change (256 ^ Z.of_nat 1) with 256. nia.
Qed.

Lemma length_be_bytes n v : length (big.be_bytes n v) = n.
Proof.
  revert v. induction n as [|n IH]; intros v; simpl; [reflexivity|].
  rewrite length_app, IH. simpl. lia.
Qed.

Lemma byte_of_Z_mod z : byte_of_Z (z mod 256) = byte_of_Z z.
Proof. unfold byte_of_Z. now rewrite Z.mod_mod by lia. Qed.

(** Writing an integer read from [l] back on as many bytes gives [l]. *)
Lemma be_bytes_SetBytes l : big.be_bytes (length l) (big.SetBytes l) = l.
Proof.
  induction l as [|b l IH] using rev_ind; [reflexivity|].
  rewrite SetBytes_snoc, length_app. simpl length. rewrite Nat.add_1_r.
  cbn [big.be_bytes].
  pose proof (Z_of_byte_nonneg b). pose proof (Z_of_byte_lt b).
  replace ((big.SetBytes l * 256 + Z_of_byte b) / 256) with (big.SetBytes l).
  2:{ rewrite Z.div_add_l by lia. rewrite Z.div_small by lia. lia. }
  rewrite IH. f_equal. f_equal.
  rewrite <- byte_of_Z_mod.
  rewrite Z.add_comm, Z.mod_add by lia. rewrite Z.mod_small by lia.
  apply byte_of_Z_of_byte.
Qed.

Lemma be_bytes_0 n : big.be_bytes n 0 = replicate n x00.
Proof.
  induction n as [|n IH]; [reflexivity|].
  cbn [big.be_bytes]. change (0 / 256) with 0. rewrite IH.
  change (byte_of_Z 0) with x00.
  change [x00] with (replicate 1 x00). rewrite <- replicate_add.
  now rewrite Nat.add_1_r.
Qed.

(** A small integer written on more bytes than it needs gets leading
    zero bytes. *)
Lemma be_bytes_pad k : forall n v,
  0 <= v < 256 ^ Z.of_nat k ->
  big.be_bytes (n + k) v = replicate n x00 ++ big.be_bytes k v.
Proof.
  induction k as [|k IH]; intros n v Hv.
  - assert (v = 0) as -> by (simpl in Hv; lia).
    rewrite Nat.add_0_r, be_bytes_0. simpl. now rewrite app_nil_r.
  - replace (n + S k)%nat with (S (n + k)) by lia. cbn [big.be_bytes].
    rewrite IH, app_assoc; [reflexivity|].
    rewrite Nat2Z.inj_succ, Z.pow_succ_r in Hv by lia.
    split; [apply Z.div_pos; lia|].
    apply Z.div_lt_upper_bound; lia.
Qed.

Lemma byte_length_spec v :
  0 <= v ->
  let k := (big.BitLen v + 7) / 8 in
  0 <= k /\ v < 256 ^ k /\ (forall l, 0 <= l -> v < 256 ^ l -> k <= l).
Proof.
  intros Hv k. subst k. unfold big.BitLen.
  destruct (Z.eqb_spec v 0) as [->|Hnz].
  - change ((0 + 7) / 8) with 0. change (256 ^ 0) with 1.
    split; [lia|]. split; [lia|]. intros; lia.
  - rewrite Z.abs_eq by lia.
    pose proof (Z.log2_nonneg v) as Hl.
    pose proof (Z.log2_spec v ltac:(lia)) as [Hlo Hhi].
    set (b := Z.log2 v) in *.
    assert (Hk : b + 1 <= 8 * ((b + 1 + 7) / 8) < b + 1 + 8).
    { pose proof (Z.div_mod (b + 1 + 7) 8 ltac:(lia)).
      pose proof (Z.mod_pos_bound (b + 1 + 7) 8 ltac:(lia)). lia. }
    split; [lia|]. split.
    + change 256 with (2 ^ 8). rewrite <- Z.pow_mul_r by lia.
      eapply Z.lt_le_trans; [exact Hhi|].
      rewrite <- Z.add_1_r. apply Z.pow_le_mono_r; lia.
    + intros l Hl0 Hvl. change 256 with (2 ^ 8) in Hvl.
      rewrite <- Z.pow_mul_r in Hvl by lia.
      assert (b < 8 * l).
      { apply Z.log2_lt_pow2 in Hvl; [|lia]. subst b. lia. }
      lia.
Qed.

(** The padding step of [Data] applied to [x.Bytes()] is the fixed-width
    big-endian form of [x]. *)
Lemma Bytes_padded (l : nat) (v : Z) :
  0 <= v < 256 ^ Z.of_nat l ->
  (let b := big.Bytes v in
   if len b <? Z.of_nat l
   then replicate (Z.to_nat (Z.of_nat l - len b)) x00 ++ b else b)
  = big.be_bytes l v.
Proof.
  intros [Hv0 Hv]. cbv zeta. unfold big.Bytes, len.
  rewrite length_be_bytes, Z.abs_eq by lia.
  destruct (byte_length_spec v Hv0) as (Hk0 & Hvk & Hmin).
  specialize (Hmin (Z.of_nat l) ltac:(lia) Hv).
  set (k := (big.BitLen v + 7) / 8) in *.
  rewrite Z2Nat.id by lia.
  destruct (Z.ltb_spec k (Z.of_nat l)).
  - rewrite <- be_bytes_pad by (rewrite Z2Nat.id by lia; split; assumption).
    f_equal. lia.
  - f_equal. lia.
Qed.

(** ** One turn of [Embed] *)

Lemma index_Some {A} (l : list A) (i : Z) :
  0 <= i < len l -> exists a, index l i = Some a.
Proof.
  unfold len, index. intros Hi. destruct (Z.ltb_spec i 0); [lia|].
  apply lookup_lt_is_Some_2. lia.
Qed.

Lemma set_index_Some {A} (l : list A) (i : Z) (v : A) :
  0 <= i < len l ->
  set_index l i v = Some (<[Z.to_nat i := v]> l).
Proof.
  unfold len, set_index. intros Hi.
  destruct (Z.ltb_spec i 0); [lia|].
  destruct (Z.leb_spec (Z.of_nat (length l)) i); [lia|]. reflexivity.
Qed.

Lemma advance_advance s a b :
  cipher.advance (cipher.advance s a) b = cipher.advance s (a + b).
Proof. unfold cipher.advance. simpl. f_equal. lia. Qed.

(** [random.Bits] without [exact] hands out [ceil(bitlen/8)] bytes and
    moves the cursor by as many. *)
Lemma Bits_spec (bitlen : Z) (rand : cipher.Stream) :
  1 <= bitlen ->
  let n := Z.to_nat ((bitlen + 7) ÷ 8) in
  exists b,
    random.Bits bitlen false rand = Some (b, cipher.advance rand n) /\
    length b = n.
Proof.
  intros Hb n. unfold random.Bits, cipher.XORKeyStream.
  fold n. rewrite length_replicate.
  set (b := cipher.xor_from _ _ _).
  assert (Hlen : length b = n).
  { subst b. now rewrite length_xor_from, length_replicate. }
  assert (Hn : (1 <= n)%nat).
  { subst n. rewrite Z.quot_div_nonneg by lia.
    assert (1 <= (bitlen + 7) / 8) by (apply Z.div_le_lower_bound; lia).
    lia. }
  destruct (Z.land bitlen 7 =? 0).
  - exists b. split; [reflexivity | exact Hlen].
  - destruct (index_Some b 0) as [b0 E0]; [unfold len; lia|].
    cbn [mbind option_bind]. rewrite E0. cbn [mbind option_bind].
    rewrite set_index_Some by (unfold len; lia).
    cbn [mbind option_bind]. eexists. split; [reflexivity|].
    now rewrite length_insert.
Qed.

(** The candidate of a turn that carries [dl = len(d)] bytes of data: it
    has [l] bytes, the last is the tag, and the [dl] before it are [d]. *)
Lemma Embed_candidate_spec (P : p256.CurvePoint) (data : option (list byte))
    (dl : Z) (rand : cipher.Stream) :
  let bitlen := big.BitLen (elliptic.P (p256.p (p256.C P))) in
  let n := Z.to_nat ((bitlen + 7) ÷ 8) in
  let l := Z.of_nat n in
  1 <= bitlen ->
  0 <= dl <= l - 1 ->
  exists b,
    p256.Embed_candidate P data l dl rand
    = Some (b, cipher.advance rand n) /\
    length b = n /\
    forall d, data = Some d -> len d = dl ->
              index b (l - 1) = Some (byte_of_Z dl) /\
              slice b (l - dl - 1) (l - 1) = Some d.
Proof.
  intros bitlen n l Hb Hdl. unfold p256.Embed_candidate. fold bitlen.
  destruct (Bits_spec bitlen rand Hb) as (b & EB & Hlen). fold n in EB, Hlen.
  rewrite EB. cbn [mbind option_bind].
  destruct data as [d|].
  2:{ exists b. cbn [mbind option_bind]. split; [reflexivity|].
      split; [exact Hlen|]. intros d Hd. discriminate Hd. }
  rewrite set_index_Some by (unfold len; lia). cbn [mbind option_bind].
  set (b1 := <[Z.to_nat (l - 1) := byte_of_Z dl]> b).
  assert (Hlen1 : length b1 = n) by (subst b1; now rewrite length_insert).
  unfold copy_into.
  destruct (Z.ltb_spec (l - dl - 1) 0); [lia|].
  destruct (Z.ltb_spec (l - 1) (l - dl - 1)); [lia|].
  destruct (Z.ltb_spec (Z.of_nat (length b1)) (l - 1)); [lia|].
  cbn [orb mbind option_bind]. eexists. split; [reflexivity|].
  replace (Z.to_nat (l - 1 - (l - dl - 1))) with (Z.to_nat dl) by lia.
  split.
  - rewrite !length_app, length_take, length_take, length_drop. unfold len.
    lia.
  - intros d' Hd' Hld. inversion Hd'; subst d'. unfold len in Hld.
    rewrite Nat.min_l by lia.
    rewrite (take_ge d) by lia.
    assert (Hdrop : drop (Z.to_nat (l - dl - 1) + Z.to_nat dl) b1
                    = [byte_of_Z dl]).
    { replace (Z.to_nat (l - dl - 1) + Z.to_nat dl)%nat
        with (Z.to_nat (l - 1)) by lia.
      subst b1.
      destruct (lookup_lt_is_Some_2 b (Z.to_nat (l - 1)) ltac:(lia))
        as [old Hold].
      rewrite <- (take_drop_middle b _ _ Hold) at 1.
      rewrite insert_app_r_alt by (rewrite length_take; lia).
      rewrite length_take.
      replace (Z.to_nat (l - 1) - Z.to_nat (l - 1) `min` length b)%nat
        with 0%nat by lia.
      cbn [insert list_insert].
      rewrite drop_app_length'
        by (rewrite length_take; lia).
      f_equal. apply drop_ge. lia. }
    rewrite Hdrop. split.
    + unfold index. destruct (Z.ltb_spec (l - 1) 0); [lia|].
      rewrite lookup_app_r by (rewrite length_take; lia).
      rewrite length_take.
      rewrite lookup_app_r by lia.
      replace (Z.to_nat (l - 1) - Z.to_nat (l - dl - 1) `min` length b1
               - length d)%nat with 0%nat by lia.
      reflexivity.
    + unfold slice.
      destruct (Z.ltb_spec (l - dl - 1) 0); [lia|].
      destruct (Z.ltb_spec (l - 1) (l - dl - 1)); [lia|].
      rewrite !length_app, length_take. simpl length.
      destruct (Z.ltb_spec
                  (Z.of_nat (Z.to_nat (l - dl - 1) `min` length b1
                             + (length d + 1))) (l - 1)); [lia|].
      cbn [orb]. f_equal.
      rewrite drop_app_length' by (rewrite length_take; lia).
      replace (Z.to_nat (l - 1 - (l - dl - 1))) with (length d) by lia.
      now rewrite take_app_length.
Qed.

Lemma square_of_opposite p r : 0 < p -> ((p - r) * (p - r)) mod p = (r * r) mod p.
Proof.
  intros Hp. replace ((p - r) * (p - r)) with (r * r + (p - 2 * r) * p) by ring.
  now rewrite Z.mod_add by lia.
Qed.

(** [genPoint] in closed form: it always draws the sign byte, stores the
    chosen root in a new cell, and answers whether the candidate passed. *)
Lemma genPoint_spec (P : p256.CurvePoint) (xa : nat) (xv : Z)
    (rand : cipher.Stream) (h : list Z) :
  let curve := p256.C P in
  0 < elliptic.P (p256.p curve) ->
  h !! xa = Some xv ->
  p256.genPoint P (Some xa) rand h
  = Some ((accepted curve xv,
           if accepted curve xv
           then {| p256.x := Some xa; p256.y := Some (length h);
                   p256.C := curve |}
           else P,
           cipher.advance rand 1),
          h ++ [chosen_root curve xv rand]).
Proof.
  intros curve Hp Hx. unfold p256.genPoint. fold curve. exec. rewrite Hx.
  destruct (Z.eqb_spec (elliptic.P (p256.p curve)) 0); [lia|]. exec.
  cbn [replicate cipher.XORKeyStream cipher.xor_from length].
  rewrite index_0, xor_byte_00. exec.
  fold (curve_rhs curve xv). fold (sign_bit rand).
  assert (Hacc : forall yv,
             yv = chosen_root curve xv rand ->
             negb (big.Cmp (big.Mod (yv * yv) (elliptic.P (p256.p curve)))
                     (curve_rhs curve xv) =? 0)
             = negb (accepted curve xv)).
  { intros yv ->. rewrite Cmp_eq_0. unfold accepted, chosen_root. cbv zeta.
    f_equal. destruct (sign_bit rand); [|reflexivity].
    unfold big.Mod. rewrite Z.abs_eq by lia.
    now rewrite square_of_opposite by lia. }
  unfold chosen_root in *. cbv zeta in *.
  destruct (sign_bit rand); exec.
  - repeat (rewrite lookup_fresh; exec).
    rewrite insert_app_r_alt by lia.
    rewrite Nat.sub_diag. cbn [insert list_insert]. exec.
    repeat (rewrite lookup_fresh; exec).
    rewrite Hacc by reflexivity.
    destruct (accepted curve xv); reflexivity.
  - repeat (rewrite lookup_fresh; exec).
    rewrite Hacc by reflexivity.
    destruct (accepted curve xv); reflexivity.
Qed.

(** One turn of the loop in closed form, for a curve whose coordinate
    length is the byte length of its prime. *)
Lemma Embed_try_spec (P : p256.CurvePoint) (data : option (list byte))
    (dl : Z) (rand : cipher.Stream) (h : list Z) :
  let curve := p256.C P in
  let bitlen := big.BitLen (elliptic.P (p256.p curve)) in
  let n := Z.to_nat ((bitlen + 7) ÷ 8) in
  let l := Z.of_nat n in
  0 < elliptic.P (p256.p curve) ->
  0 <= dl <= l - 1 ->
  exists b,
    p256.Embed_candidate P data l dl rand
    = Some (b, cipher.advance rand n) /\
    length b = n /\
    (forall d, data = Some d -> len d = dl ->
               index b (l - 1) = Some (byte_of_Z dl) /\
               slice b (l - dl - 1) (l - 1) = Some d) /\
    p256.Embed_try P data l dl rand h
    = Some ((accepted curve (big.SetBytes b),
             if accepted curve (big.SetBytes b)
             then {| p256.x := Some (length h);
                     p256.y := Some (S (length h));
                     p256.C := curve |}
             else P,
             cipher.advance rand (n + 1)),
            h ++ [big.SetBytes b;
                  chosen_root curve (big.SetBytes b)
                    (cipher.advance rand n)]).
Proof.
  intros curve bitlen n l Hp Hdl.
  assert (Hb : 1 <= bitlen).
  { subst bitlen. unfold big.BitLen.
    destruct (Z.eqb_spec (elliptic.P (p256.p curve)) 0); [lia|].
    pose proof (Z.log2_nonneg (Z.abs (elliptic.P (p256.p curve)))). lia. }
  destruct (Embed_candidate_spec P data dl rand Hb Hdl)
    as (b & EC & Hlen & Hdata).
  fold curve bitlen n l in EC, Hlen, Hdata.
  exists b. split; [exact EC|]. split; [exact Hlen|]. split; [exact Hdata|].
  unfold p256.Embed_try. rewrite EC.
  unfold mbind at 1, Exec_bind at 1, bind at 1, lift at 1, ret at 1.
  unfold mbind at 1, Exec_bind at 1, bind at 1, new_Int at 1.
  rewrite (genPoint_spec P (length h) (big.SetBytes b))
    by (fold curve; try lia; apply lookup_fresh).
  fold curve. rewrite length_app, Nat.add_1_r, <- app_assoc.
  rewrite advance_advance. reflexivity.
Qed.

(** ** [Embed] followed by [Data] *)

Lemma advance_0 s : cipher.advance s 0 = s.
Proof. destruct s. unfold cipher.advance. simpl. f_equal. lia. Qed.

Lemma embeddable_lengths (P : p256.CurvePoint) (data : option (list byte)) :
  embeddable (p256.C P) ->
  let n := Z.to_nat ((big.BitLen (elliptic.P (p256.p (p256.C P))) + 7) ÷ 8) in
  p256.coordLen (p256.C P) = Z.of_nat n /\
  0 <= p256.EmbedLen P <= Z.of_nat n - 2 /\
  0 <= payload_len P data <= Z.of_nat n - 1 /\
  payload_len P data <= p256.EmbedLen P /\
  (forall d, data = Some d -> len d <= p256.EmbedLen P ->
             payload_len P data = len d).
Proof.
  intros (Hp & Hb & Hl) n. subst n. unfold payload_len, p256.EmbedLen.
  set (bitlen := big.BitLen (elliptic.P (p256.p (p256.C P)))) in *.
  rewrite Hl. rewrite !Z.quot_div_nonneg by lia.
  pose proof (Z.div_mod (bitlen + 7) 8 ltac:(lia)).
  pose proof (Z.mod_pos_bound (bitlen + 7) 8 ltac:(lia)).
  pose proof (Z.div_mod (bitlen - 8 - 8) 8 ltac:(lia)).
  pose proof (Z.mod_pos_bound (bitlen - 8 - 8) 8 ltac:(lia)).
  assert (Hlen : 0 <= len (default [] data)) by (unfold len; lia).
  rewrite Z2Nat.id by lia.
  split; [reflexivity|]. split; [lia|].
  destruct (Z.gtb_spec ((bitlen - 8 - 8) / 8) (len (default [] data))).
  - split; [lia|]. split; [lia|]. intros d -> _. reflexivity.
  - split; [lia|]. split; [lia|]. intros d -> Hd. simpl in *. lia.
Qed.

(** [Data] on a point whose x-coordinate was read from [l] bytes ending
    in the tag [dl] preceded by [d]. *)
Lemma Data_of_bytes (P : p256.CurvePoint) (xa : nat) (b d : list byte)
    (dl : Z) (h : list Z) :
  p256.x P = Some xa ->
  h !! xa = Some (big.SetBytes b) ->
  p256.coordLen (p256.C P) = len b ->
  0 <= dl <= p256.EmbedLen P -> dl < 256 ->
  index b (len b - 1) = Some (byte_of_Z dl) ->
  slice b (len b - dl - 1) (len b - 1) = Some d ->
  p256.Data P h = Some (inl d, h).
Proof.
  intros Hx Hcell Hl Hdl Hdl' Htag Hd. unfold p256.Data. rewrite Hx. exec.
  rewrite Hcell, Hl.
  pose proof (Bytes_padded (length b) (big.SetBytes b) (SetBytes_bound b))
    as Hpad.
  cbv zeta in Hpad. fold (len b) in Hpad. rewrite Hpad.
  rewrite be_bytes_SetBytes. rewrite Htag. exec.
  rewrite Z_of_byte_of_Z, Z.mod_small by lia.
  destruct (Z.gtb_spec dl (p256.EmbedLen P)); [lia|].
  rewrite Hd. reflexivity.
Qed.

Lemma Embed_loop_S fuel P data l dl rand h :
  p256.Embed_loop (S fuel) P data l dl rand h
  = match p256.Embed_try P data l dl rand h with
    | Some ((ok, P', rand'), h1) =>
        if ok then Some (Some (P', rand'), h1)
        else p256.Embed_loop fuel P data l dl rand' h1
    | None => None
    end.
Proof.
  cbn [p256.Embed_loop]. unfold mbind, Exec_bind, bind.
  destruct (p256.Embed_try P data l dl rand h) as [[[[ok P'] rand'] h1]|];
    [|reflexivity].
  destruct ok; reflexivity.
Qed.

(** One turn of [Embed] on an embeddable curve, with the lengths [Embed]
    uses. *)
Lemma Embed_turn (P : p256.CurvePoint) (data : option (list byte))
    (rand : cipher.Stream) (h : list Z) :
  embeddable (p256.C P) ->
  let curve := p256.C P in
  let l := p256.coordLen curve in
  let dl := payload_len P data in
  exists b,
    p256.Embed_candidate P data l dl rand
    = Some (b, cipher.advance rand (turn_bytes P - 1)) /\
    len b = l /\
    (forall d, data = Some d -> len d = dl ->
               index b (l - 1) = Some (byte_of_Z dl) /\
               slice b (l - dl - 1) (l - 1) = Some d) /\
    p256.Embed_try P data l dl rand h
    = Some ((accepted curve (big.SetBytes b),
             if accepted curve (big.SetBytes b)
             then {| p256.x := Some (length h);
                     p256.y := Some (S (length h));
                     p256.C := curve |}
             else P,
             cipher.advance rand (turn_bytes P)),
            h ++ [big.SetBytes b;
                  chosen_root curve (big.SetBytes b)
                    (cipher.advance rand (turn_bytes P - 1))]).
Proof.
  intros He curve l dl.
  destruct (embeddable_lengths P data He) as (Hl & _ & Hdl & _).
  destruct He as (Hp & _ & _).
  destruct (Embed_try_spec P data dl rand h Hp Hdl)
    as (b & EC & Hlen & Hdata & ET).
  fold curve in Hl, EC, Hdata, ET.
  unfold turn_bytes. fold curve.
  set (n := Z.to_nat ((big.BitLen (elliptic.P (p256.p curve)) + 7) ÷ 8)) in *.
  replace (n + 1 - 1)%nat with n by lia.
  subst l. rewrite Hl. exists b.
  split; [exact EC|]. split; [unfold len; now rewrite Hlen|].
  split; [exact Hdata | exact ET].
Qed.

Lemma turn_accepts_0 P data rand b rand' :
  p256.Embed_candidate P data (p256.coordLen (p256.C P)) (payload_len P data)
    rand = Some (b, rand') ->
  turn_accepts P data rand 0 = accepted (p256.C P) (big.SetBytes b).
Proof.
  intros E. unfold turn_accepts. cbn [Nat.mul]. now rewrite advance_0, E.
Qed.

Lemma turn_accepts_S P data rand j :
  turn_accepts P data rand (S j)
  = turn_accepts P data (cipher.advance rand (turn_bytes P)) j.
Proof.
  unfold turn_accepts. rewrite advance_advance. reflexivity.
Qed.

Section EmbedLoop.
Variable P : p256.CurvePoint.
Variable data : option (list byte).
Hypothesis curve_ok : embeddable (p256.C P).

Let l := p256.coordLen (p256.C P).
Let dl := payload_len P data.

(** If some turn among the first [fuel] accepts its candidate, the loop
    returns a point. *)
Lemma Embed_loop_terminates fuel : forall rand h j,
  (j < fuel)%nat -> turn_accepts P data rand j = true ->
  exists P' rand' h',
    p256.Embed_loop fuel P data l dl rand h = Some (Some (P', rand'), h').
Proof.
  induction fuel as [|fuel IH]; intros rand h j Hj Hacc; [lia|].
  destruct (Embed_turn P data rand h curve_ok) as (b & EC & _ & _ & ET).
  fold l dl in EC, ET. rewrite Embed_loop_S, ET.
  destruct (accepted (p256.C P) (big.SetBytes b)) eqn:A; [eauto|].
  destruct j as [|j].
  - rewrite (turn_accepts_0 _ _ _ _ _ EC), A in Hacc. discriminate.
  - rewrite turn_accepts_S in Hacc. eapply IH; [|exact Hacc]. lia.
Qed.

(** If no turn ever accepts, the loop runs out of any fuel. *)
Lemma Embed_loop_rejects fuel : forall rand h,
  (forall j, turn_accepts P data rand j = false) ->
  exists h', p256.Embed_loop fuel P data l dl rand h = Some (None, h').
Proof.
  induction fuel as [|fuel IH]; intros rand h Hrej; [simpl; eauto|].
  destruct (Embed_turn P data rand h curve_ok) as (b & EC & _ & _ & ET).
  fold l dl in EC, ET. rewrite Embed_loop_S, ET.
  pose proof (Hrej 0%nat) as H0.
  rewrite (turn_accepts_0 _ _ _ _ _ EC) in H0. rewrite H0.
  apply IH. intros j. rewrite <- turn_accepts_S. apply Hrej.
Qed.

(** Whatever point the loop returns for a payload [d] that fits decodes
    to [d]. *)
Lemma Embed_loop_Data d fuel : forall rand h P' rand' h',
  data = Some d ->
  len d <= p256.EmbedLen P -> p256.EmbedLen P < 256 ->
  p256.Embed_loop fuel P data l dl rand h = Some (Some (P', rand'), h') ->
  p256.Data P' h' = Some (inl d, h').
Proof.
  induction fuel as [|fuel IH]; intros rand h P' rand' h' Hd Hfit Hsmall E;
    [discriminate|].
  destruct (Embed_turn P data rand h curve_ok) as (b & _ & Hlen & Hdata & ET).
  fold l dl in Hlen, Hdata, ET. rewrite Embed_loop_S, ET in E.
  destruct (embeddable_lengths P data curve_ok) as (_ & _ & _ & _ & Hdl).
  specialize (Hdl d Hd Hfit). fold dl in Hdl.
  destruct (accepted (p256.C P) (big.SetBytes b)).
  - inversion E; subst P' rand' h'. clear E.
    destruct (Hdata d Hd (eq_sym Hdl)) as [Htag Hslice].
    apply (Data_of_bytes _ (length h) b d dl).
    + reflexivity.
    + apply lookup_fresh.
    + cbn [p256.C]. fold l. now rewrite Hlen.
    + unfold p256.EmbedLen in *. cbn [p256.C]. unfold len in *. lia.
    + lia.
    + now rewrite Hlen.
    + now rewrite Hlen.
  - eapply IH; eauto.
Qed.
End EmbedLoop.

(** Any point [Embed] returns for a fitting non-nil payload decodes to
    it. *)
Lemma Embed_Data_partial (P : p256.CurvePoint) (d : list byte)
    (fuel : nat) (rand : cipher.Stream) (h : list Z) P' rand' h' :
  embeddable (p256.C P) ->
  p256.EmbedLen P < 256 ->
  len d <= p256.EmbedLen P ->
  p256.Embed fuel P (Some d) rand h = Some (Some (P', rand'), h') ->
  p256.Data P' h' = Some (inl d, h').
Proof.
  intros Hc Hsmall Hfit E.
  eapply (Embed_loop_Data P (Some d) Hc d fuel); eauto.
Qed.

(** C1 (as amended). On an embeddable curve whose [EmbedLen] fits the
    one-byte tag, for every non-nil payload [d] of at most [EmbedLen]
    bytes and every key stream on which some turn [j] draws a candidate
    that passes the residue check: [Embed], given more than [j] turns,
    returns a point, and [Data] on that point returns exactly [d] with no
    error. *)
Theorem Embed_Data_roundtrip (P : p256.CurvePoint) (d : list byte)
    (fuel j : nat) (rand : cipher.Stream) (h : list Z) :
  embeddable (p256.C P) ->
  p256.EmbedLen P < 256 ->
  len d <= p256.EmbedLen P ->
  (j < fuel)%nat ->
  turn_accepts P (Some d) rand j = true ->
  exists P' rand' h',
    p256.Embed fuel P (Some d) rand h = Some (Some (P', rand'), h') /\
    p256.Data P' h' = Some (inl d, h').
Proof.
  intros Hc Hsmall Hfit Hj Hacc.
  destruct (Embed_loop_terminates P (Some d) Hc fuel rand h j Hj Hacc)
    as (P' & rand' & h' & E).
  exists P', rand', h'. split; [exact E|].
  eapply Embed_Data_partial; eauto.
Qed.

Lemma P256_embeddable : embeddable p256.P256.Init.
Proof.
  split; [vm_compute; reflexivity|].
  split; [vm_compute; discriminate | vm_compute; reflexivity].
Qed.

Lemma Embed_Data_roundtrip_P256 :
  let P := p256.Point p256.P256.Init in
  exists P' rand' h',
    p256.Embed 1 P (Some [x02]) ks00 [] = Some (Some (P', rand'), h') /\
    p256.Data P' h' = Some (inl [x02], h').
Proof.
  intros P.
  apply (Embed_Data_roundtrip P [x02] 1 0 ks00 []).
  - exact P256_embeddable.
  - vm_compute. reflexivity.
  - vm_compute. discriminate.
  - lia.
  - vm_compute. reflexivity.
Defined.

(** The claim C1 as stated fails in two ways.  For the nil payload
    ([Pick]) nothing is written over the candidate: under the key stream
    [ks0201] the point returned decodes to the byte [02], which was never
    embedded.  And under the all-zero key stream the payload [00] gives
    the same rejected candidate at every turn, so [Embed] returns no
    point, whatever the number of turns. *)
Lemma Embed_Data_not_for_all_inputs :
  let P := p256.Point p256.P256.Init in
  let yv :=
    99758088675351968353866376152560068607755875554258269020787140321952702795280 in
  (Embed_outcome (p256.Embed 1 P None ks0201 [])
   = Some (Some (Some 0%nat, Some 1%nat, 33%nat), [513; yv]) /\
   p256.Data {| p256.x := Some 0%nat; p256.y := Some 1%nat;
                p256.C := p256.P256.Init |} [513; yv]
   = Some (inl [x02], [513; yv])) /\
  (forall fuel, exists h',
      p256.Embed fuel P (Some [x00]) ks00 [] = Some (None, h')).
Proof.
  intros P yv. split; [split; vm_compute; reflexivity|].
  intros fuel.
  apply (Embed_loop_rejects P (Some [x00]) P256_embeddable).
  intros j. vm_compute. reflexivity.
Qed.

(** C4 (as amended). Every turn of [Embed]'s loop draws the candidate
    bytes and then the sign byte, before any verification: whether the
    candidate is accepted or rejected the key stream has moved by
    [ceil(bitLen(p)/8) + 1] bytes, the last of which chose the sign of the
    root stored for [y]. *)
Theorem Embed_turn_draws_sign_byte (P : p256.CurvePoint)
    (data : option (list byte)) (rand : cipher.Stream) (h : list Z) :
  embeddable (p256.C P) ->
  exists ok P' xv,
    p256.Embed_try P data (p256.coordLen (p256.C P)) (payload_len P data)
      rand h
    = Some ((ok, P', cipher.advance rand (turn_bytes P)),
            h ++ [xv; chosen_root (p256.C P) xv
                        (cipher.advance rand (turn_bytes P - 1))]) /\
    ok = accepted (p256.C P) xv.
Proof.
  intros Hc.
  destruct (Embed_turn P data rand h Hc) as (b & _ & _ & _ & ET).
  eexists _, _, _. split; [exact ET | reflexivity].
Qed.

Lemma Embed_turn_draws_sign_byte_P256 :
  let P := p256.Point p256.P256.Init in
  exists ok P' xv,
    p256.Embed_try P (Some [x02]) (p256.coordLen (p256.C P))
      (payload_len P (Some [x02])) ks00 []
    = Some ((ok, P', cipher.advance ks00 (turn_bytes P)),
            [] ++ [xv; chosen_root (p256.C P) xv
                         (cipher.advance ks00 (turn_bytes P - 1))]) /\
    ok = accepted (p256.C P) xv.
Proof.
  intros P.
  apply (Embed_turn_draws_sign_byte P (Some [x02]) ks00 []).
  exact P256_embeddable.
Defined.

(** The claim C4 as stated fails: on P-256 a candidate is 32 bytes; under
    the all-zero key stream the payload [00] gives a candidate that is
    rejected, and the turn has consumed 33 bytes, sign byte included. *)
Lemma rejected_turn_consumes_sign_byte :
  let P := p256.Point p256.P256.Init in
  Z.to_nat ((big.BitLen (elliptic.P (p256.p (p256.C P))) + 7) ÷ 8) = 32%nat /\
  turn_outcome
    (p256.Embed_try P (Some [x00]) (p256.coordLen (p256.C P))
       (payload_len P (Some [x00])) ks00 [])
  = Some (false, 33%nat).
Proof.
  intros P. split; vm_compute; reflexivity.
Qed.

(** ** The vector commitment *)

Lemma allocates_vc_Add c0 i xb : allocates (vc.Add c0 i xb).
Proof.
  unfold vc.Add, p256.MulPlain, p256.AddPlain.
  pose proof allocates_Mul. pose proof allocates_Add. frame.
Qed.

Lemma allocates_Commit_loop c0 xs : forall i, allocates (vc.Commit_loop c0 i xs).
Proof.
  induction xs as [|xi xs IH]; intros i; simpl.
  - apply allocates_ret.
  - apply allocates_bind; [apply allocates_vc_Add | intros _; apply IH].
Qed.

(** Whatever [xs] is, the commitment [Commit] returns holds the pair
    (0,0) that [Null] stored: the loop of [Add] calls changes nothing the
    result can see. *)
Lemma Commit_returns_identity pp xs h c1 h' :
  vc.Commit pp xs h = Some (c1, h') ->
  vc.generators c1 = vc.Generators pp /\
  deref (p256.x (vc.c c1)) h' = Some (0, h') /\
  deref (p256.y (vc.c c1)) h' = Some (0, h').
Proof.
  unfold vc.Commit. destruct (negb _); [discriminate|].
  unfold p256.Null. exec. rewrite <- app_assoc. cbn [app].
  destruct (vc.Commit_loop _ 0 xs (h ++ [0; 0])) as [[[] h1]|] eqn:E;
    [|discriminate].
  intros H. inversion H; subst. cbn [vc.generators vc.c p256.x p256.y].
  apply allocates_Commit_loop in E.
  split; [reflexivity|].
  rewrite length_app, Nat.add_1_r.
  rewrite (prefix_lookup_Some _ _ (length h) 0 (lookup_fresh h 0 [0]) E).
  rewrite (prefix_lookup_Some (h ++ [0; 0]) h' (S (length h)) 0); auto.
  rewrite lookup_app_r by lia.
  now replace (S (length h) - length h)%nat with 1%nat by lia.
Qed.

(** C8 on the code. One generator, the P-256 base point [G], and the
    single value 1 as 32 big-endian bytes: the sum the claim describes is
    [1.G = G], the commitment [Commit] returns is the identity (0,0), and
    the scalar [Add] builds from the bytes is 0 because its modulus is
    1. *)
Theorem Commit_drops_every_term :
  let params := elliptic.P256_params in
  let G := {| p256.x := Some 0%nat; p256.y := Some 1%nat;
              p256.C := p256.P256.Init |} in
  let h := [elliptic.Gx params; elliptic.Gy params] in
  let one := big.be_bytes 32 1 in
  commitment_point (vc.Commit {| vc.Generators := [G] |} [one] h)
  = Some (0, 0) /\
  (let '(sx, sy) :=
     elliptic.ScalarMult elliptic.P256 (elliptic.Gx params)
       (elliptic.Gy params) (big.Bytes (big.SetBytes one)) in
   elliptic.Add elliptic.P256 sx sy 0 0)
  = (elliptic.Gx params, elliptic.Gy params) /\
  modint.V (modint.SetBytes
              (modint.Init64 {| modint.V := 0; modint.M := 0 |} 1 1) one)
  = 0.
Proof.
  intros params G h one.
  split; [vm_compute; reflexivity|].
  split; vm_compute; reflexivity.
Qed.

(** ** Group operations through the provider *)

Lemma lookup_fresh_2 (h : list Z) (a b : Z) :
  (h ++ [a; b]) !! length h = Some a /\
  (h ++ [a; b]) !! S (length h) = Some b.
Proof.
  split; [apply lookup_fresh|]. rewrite lookup_app_r by lia.
  now replace (S (length h) - length h)%nat with 1%nat by lia.
Qed.

Lemma Null_spec P h :
  p256.Null P h = Some (fresh_point (p256.C P) h, h ++ [0; 0]).
Proof.
  unfold p256.Null, fresh_point. exec.
  now rewrite length_app, Nat.add_1_r, <- app_assoc.
Qed.

Lemma Add_spec P A B h xa ya xb yb ax ay bx by_ :
  p256.x A = Some xa -> p256.y A = Some ya ->
  p256.x B = Some xb -> p256.y B = Some yb ->
  h !! xa = Some ax -> h !! ya = Some ay ->
  h !! xb = Some bx -> h !! yb = Some by_ ->
  p256.Add P A B h
  = Some (fresh_point (p256.C P) h,
          h ++ [fst (elliptic.Add (p256.ec (p256.C P)) ax ay bx by_);
                snd (elliptic.Add (p256.ec (p256.C P)) ax ay bx by_)]).
Proof.
  intros Hxa Hya Hxb Hyb Hax Hay Hbx Hby.
  unfold p256.Add, fresh_point. rewrite Hxa, Hya, Hxb, Hyb. exec.
  rewrite Hax, Hay, Hbx, Hby.
  destruct (elliptic.Add _ ax ay bx by_) as [rx ry]. exec.
  now rewrite length_app, Nat.add_1_r, <- app_assoc.
Qed.

Lemma Mul_spec P s B h xb yb bx by_ :
  p256.x B = Some xb -> p256.y B = Some yb ->
  h !! xb = Some bx -> h !! yb = Some by_ ->
  p256.Mul P s (Some B) h
  = Some (fresh_point (p256.C P) h,
          h ++ [fst (elliptic.ScalarMult (p256.ec (p256.C P)) bx by_
                       (big.Bytes (modint.V s)));
                snd (elliptic.ScalarMult (p256.ec (p256.C P)) bx by_
                       (big.Bytes (modint.V s)))]).
Proof.
  intros Hxb Hyb Hbx Hby.
  unfold p256.Mul, fresh_point. rewrite Hxb, Hyb. exec.
  rewrite Hbx, Hby.
  destruct (elliptic.ScalarMult _ bx by_ _) as [rx ry]. exec.
  now rewrite length_app, Nat.add_1_r, <- app_assoc.
Qed.

(** The scalar [Neg] multiplies by: the additive inverse of one. *)
Lemma Neg_scalar curve :
  2 <= elliptic.N (p256.p curve) ->
  modint.V (modint.Neg (modint.One (p256.Scalar curve))
              (modint.One (p256.Scalar curve)))
  = elliptic.N (p256.p curve) - 1.
Proof.
  intros Hn. unfold modint.Neg, modint.One, p256.Scalar, modint.NewInt64.
  cbn [modint.V modint.M].
  rewrite (Z.mod_small 1) by lia.
  rewrite <- (Z.mod_add (-1) 1) by lia. rewrite Z.mod_small by lia. lia.
Qed.

(** C7. For a provider that keeps its part of the group law and every
    valid point [A]: adding the point [Null] gives a point [Equal] to
    [A], and adding [Neg(A)], computed as the scalar [-1 mod N] times [A],
    gives a point [Equal] to [Null]. *)
Theorem Add_Null_and_Neg (curve : p256.Curve) (A Q R T : p256.CurvePoint)
    (h : list Z) (xa ya : nat) (xv yv : Z) :
  group_provider curve ->
  p256.C R = curve -> p256.C T = curve ->
  p256.x A = Some xa -> p256.y A = Some ya ->
  h !! xa = Some xv -> h !! ya = Some yv ->
  valid_coords curve xv yv = true ->
  (exists O h1 S h2 h3,
      p256.Null Q h = Some (O, h1) /\
      p256.Add R A O h1 = Some (S, h2) /\
      p256.Equal S A h2 = Some (true, h3)) /\
  (exists NA h1 S h2 O h3 h4,
      p256.Neg T A h = Some (NA, h1) /\
      p256.Add R A NA h1 = Some (S, h2) /\
      p256.Null Q h2 = Some (O, h3) /\
      p256.Equal S O h3 = Some (true, h4)).
Proof.
  intros [Hp Hn Hid Hinv] HR HT Hxa Hya Hxv Hyv Hvalid.
  specialize (Hid xv yv Hvalid). specialize (Hinv xv yv Hvalid).
  split.
  - eexists _, _, _, _.
    assert (Ho := lookup_fresh_2 h 0 0). destruct Ho as [Ho1 Ho2].
    pose proof (Add_spec R A (fresh_point (p256.C Q) h) (h ++ [0; 0])
                  xa ya (length h) (S (length h)) xv yv 0 0
                  Hxa Hya eq_refl eq_refl
                  (lookup_old _ _ _ _ Hxv) (lookup_old _ _ _ _ Hyv) Ho1 Ho2)
      as EA.
    rewrite HR in EA.
    set (r := elliptic.Add (p256.ec curve) xv yv 0 0) in *.
    set (h2 := (h ++ [0; 0]) ++ [fst r; snd r]) in *.
    destruct (lookup_fresh_2 (h ++ [0; 0]) (fst r) (snd r)) as [Hr1 Hr2].
    fold h2 in Hr1, Hr2.
    assert (Hxv2 : h2 !! xa = Some xv)
      by (subst h2; do 2 apply lookup_old; exact Hxv).
    assert (Hyv2 : h2 !! ya = Some yv)
      by (subst h2; do 2 apply lookup_old; exact Hyv).
    destruct (Equal_spec (fresh_point curve (h ++ [0; 0])) A h2
                _ _ xa ya (fst r) (snd r) xv yv
                Hp eq_refl eq_refl Hxa Hya Hr1 Hr2 Hxv2 Hyv2)
      as (h3 & EE & _).
    cbn [fresh_point p256.C] in EE.
    destruct Hid as [H1 H2]. cbn [fst snd] in H1, H2. fold r in H1, H2.
    rewrite H1, H2, !Z.eqb_refl in EE.
    exists h3. split; [apply Null_spec|]. split; [exact EA | exact EE].
  - pose proof (Mul_spec T
                  (modint.Neg (modint.One (p256.Scalar (p256.C T)))
                     (modint.One (p256.Scalar (p256.C T))))
                  A h xa ya xv yv Hxa Hya Hxv Hyv) as EM.
    rewrite HT in EM. rewrite (Neg_scalar curve Hn) in EM.
    set (nr := elliptic.ScalarMult (p256.ec curve) xv yv
                 (big.Bytes (elliptic.N (p256.p curve) - 1))) in *.
    set (h1 := h ++ [fst nr; snd nr]) in *.
    destruct (lookup_fresh_2 h (fst nr) (snd nr)) as [Hn1 Hn2].
    fold h1 in Hn1, Hn2.
    pose proof (Add_spec R A (fresh_point curve h) h1
                  xa ya (length h) (S (length h)) xv yv (fst nr) (snd nr)
                  Hxa Hya eq_refl eq_refl
                  (lookup_old _ _ _ _ Hxv) (lookup_old _ _ _ _ Hyv) Hn1 Hn2)
      as EA.
    rewrite HR in EA.
    set (r := elliptic.Add (p256.ec curve) xv yv (fst nr) (snd nr)) in *.
    set (h2 := h1 ++ [fst r; snd r]) in *.
    destruct (lookup_fresh_2 h1 (fst r) (snd r)) as [Hr1 Hr2].
    fold h2 in Hr1, Hr2.
    destruct (lookup_fresh_2 h2 0 0) as [Ho1 Ho2].
    destruct (Equal_spec (fresh_point curve h1) (fresh_point (p256.C Q) h2)
                (h2 ++ [0; 0]) _ _ _ _ (fst r) (snd r) 0 0
                Hp eq_refl eq_refl eq_refl eq_refl
                (lookup_old _ _ _ _ Hr1) (lookup_old _ _ _ _ Hr2) Ho1 Ho2)
      as (h4 & EE & _).
    cbn [fresh_point p256.C] in EE.
    assert (Hr : congruent (elliptic.P (p256.p curve)) r (0, 0)).
    { subst r. destruct nr as [nx ny]. exact Hinv. }
    destruct Hr as [H1 H2]. cbn [fst snd] in H1, H2.
    rewrite H1, H2, !Z.eqb_refl in EE.
    eexists _, _, _, _, _, _, h4.
    split; [unfold p256.Neg; rewrite HT; exact EM|].
    split; [exact EA|]. split; [apply Null_spec | exact EE].
Qed.

Lemma toy_valid_range xv yv :
  valid_coords toy_curve xv yv = true -> 0 <= xv < 7 /\ 0 <= yv < 7.
Proof.
  unfold valid_coords. intros Hv. apply orb_true_iff in Hv as [H|H].
  - change (elliptic.IsOnCurve (p256.ec toy_curve) xv yv)
      with (elliptic.params_IsOnCurve toy_params xv yv) in H.
    unfold elliptic.params_IsOnCurve in H. cbn [elliptic.P toy_params] in H.
    destruct (Z.ltb_spec xv 0), (Z.leb_spec 7 xv), (Z.ltb_spec yv 0),
      (Z.leb_spec 7 yv); cbn [orb] in H; try discriminate H. lia.
  - apply andb_true_iff in H as [Hx Hy].
    apply Z.eqb_eq in Hx, Hy. unfold big.Sign in *.
    apply Z.sgn_null_iff in Hx, Hy. lia.
Qed.

Ltac toy_points xv yv Hv :=
  let Hr := fresh in
  pose proof (toy_valid_range xv yv Hv) as Hr;
  assert (xv = 0 \/ xv = 1 \/ xv = 2 \/ xv = 3 \/ xv = 4 \/ xv = 5 \/ xv = 6)
    as [->|[->|[->|[->|[->|[->| ->]]]]]] by lia;
  assert (yv = 0 \/ yv = 1 \/ yv = 2 \/ yv = 3 \/ yv = 4 \/ yv = 5 \/ yv = 6)
    as [->|[->|[->|[->|[->|[->| ->]]]]]] by lia;
  clear Hr; vm_compute in Hv; try discriminate Hv.

Lemma toy_group_provider : group_provider toy_curve.
Proof.
  split.
  - vm_compute. reflexivity.
  - vm_compute. discriminate.
  - intros xv yv Hv. toy_points xv yv Hv; vm_compute; split; reflexivity.
  - intros xv yv Hv. toy_points xv yv Hv; vm_compute; split; reflexivity.
Qed.

Lemma Add_Null_and_Neg_toy :
  let A := {| p256.x := Some 0%nat; p256.y := Some 1%nat;
              p256.C := toy_curve |} in
  let Q := p256.Point toy_curve in
  let h := [1; 2] in
  (exists O h1 S h2 h3,
      p256.Null Q h = Some (O, h1) /\
      p256.Add Q A O h1 = Some (S, h2) /\
      p256.Equal S A h2 = Some (true, h3)) /\
  (exists NA h1 S h2 O h3 h4,
      p256.Neg Q A h = Some (NA, h1) /\
      p256.Add Q A NA h1 = Some (S, h2) /\
      p256.Null Q h2 = Some (O, h3) /\
      p256.Equal S O h3 = Some (true, h4)).
Proof.
  intros A Q h.
  apply (Add_Null_and_Neg toy_curve A Q Q Q h 0 1 1 2).
  - exact toy_group_provider.
  - reflexivity.
  - reflexivity.
  - reflexivity.
  - reflexivity.
  - reflexivity.
  - reflexivity.
  - vm_compute. reflexivity.
Defined.

(** ** Primality certificates *)

Lemma no_divisor_from_sound fuel : forall n d k,
  0 < d -> no_divisor_from fuel n d = true ->
  d <= k -> k * k <= n -> ~ (k | n).
Proof.
  induction fuel as [|fuel IH]; intros n d k Hd H Hk Hkk; simpl in H.
  - destruct (Z.gtb_spec (d * d) n); [nia | discriminate].
  - destruct (Z.gtb_spec (d * d) n); [nia|].
    destruct (Z.eqb_spec (n mod d) 0) as [|Hm]; [discriminate|].
    destruct (Z.eq_dec d k) as [->|Hne].
    + intros Hdiv. apply Hm. apply Z.mod_divide; [lia | exact Hdiv].
    + apply (IH n (d + 1) k); auto; lia.
Qed.

(** A composite number has a divisor no larger than its square root. *)
Lemma small_divisor n m :
  1 < m < n -> (m | n) -> exists k, 1 < k /\ k * k <= n /\ (k | n).
Proof.
  intros Hm [z Hz]. assert (1 < z) by nia.
  destruct (Z_le_gt_dec m z).
  - exists m. split; [lia|]. split; [nia|]. exists z. exact Hz.
  - exists z. split; [lia|]. split; [nia|]. exists m. lia.
Qed.

Lemma trial_prime_sound n : trial_prime n = true -> Z.prime n.
Proof.
  unfold trial_prime. intros H. apply andb_true_iff in H as [H1 H2].
  apply Z.ltb_lt in H1. split; [exact H1|].
  intros m Hm Hdiv.
  destruct (small_divisor n m Hm Hdiv) as (k & Hk1 & Hk2 & Hk3).
  revert Hk3. eapply no_divisor_from_sound; eauto; lia.
Qed.

Lemma exists_prime_divisor n : 1 < n -> exists q, Z.prime q /\ (q | n).
Proof.
  intros Hn. assert (Hn0 : 0 <= n) by lia. revert Hn.
  pattern n. apply Z_lt_induction; [|exact Hn0]. clear n Hn0.
  intros n IH Hn.
  destruct (prime_dec n) as [Hp|Hnp].
  - exists n. split; [now apply prime_alt | apply Z.divide_refl].
  - destruct (not_prime_divide n Hn Hnp) as (m & Hm & Hdiv).
    destruct (IH m ltac:(lia) ltac:(lia)) as (q & Hq & Hqm).
    exists q. split; [exact Hq|]. eapply Z.divide_trans; eauto.
Qed.

Section Order.
Variable r : Z.
Hypothesis r_gt_1 : 1 < r.

Lemma pow_mod_1 b e k :
  0 <= e -> 0 <= k -> b ^ e mod r = 1 -> b ^ (e * k) mod r = 1.
Proof.
  intros He Hk H. rewrite Z.pow_mul_r by lia.
  rewrite <- Z.mod_pow_l, H, Z.pow_1_l by lia. apply Z.mod_1_l. lia.
Qed.

(** If two powers of [b] are 1 modulo [r], so is the power by the gcd of
    the exponents. *)
Lemma pow_gcd_1 b e1 e2 :
  0 < e1 -> 0 < e2 ->
  b ^ e1 mod r = 1 -> b ^ e2 mod r = 1 -> b ^ Z.gcd e1 e2 mod r = 1.
Proof.
  intros He1 He2 H1 H2.
  destruct (Z.gcd_bezout e1 e2 (Z.gcd e1 e2) eq_refl) as (u & v & Huv).
  pose proof (Z.gcd_nonneg e1 e2) as Hg0.
  assert (Hg : 0 < Z.gcd e1 e2).
  { destruct (Z.eq_dec (Z.gcd e1 e2) 0) as [E|]; [|lia].
    apply Z.gcd_eq_0_l in E. lia. }
  set (g := Z.gcd e1 e2) in *.
  (* make the first coefficient non-negative *)
  set (u' := u + Z.abs u * e2). set (v' := v - Z.abs u * e1).
  assert (Hu' : 0 <= u') by (subst u'; nia).
  assert (Huv' : u' * e1 + v' * e2 = g) by (subst u' v'; lia).
  destruct (Z_le_gt_dec 0 v') as [Hv|Hv].
  - rewrite <- Huv', Z.pow_add_r by nia.
    rewrite Z.mul_mod by lia.
    rewrite (Z.mul_comm u'), (Z.mul_comm v').
    rewrite !pow_mod_1 by (auto; lia). apply Z.mod_1_l. lia.
  - assert (E : e1 * u' = g + e2 * (- v')) by lia.
    assert (Hl : b ^ (e1 * u') mod r = 1) by (apply pow_mod_1; auto; lia).
    rewrite E, Z.pow_add_r in Hl by lia.
    rewrite Z.mul_mod in Hl by lia.
    rewrite (pow_mod_1 b e2 (- v')) in Hl by (auto; lia).
    rewrite Z.mul_1_r, Z.mod_mod in Hl by lia. exact Hl.
Qed.

(** If [b ^ F] is 1 modulo the prime [r] but no [b ^ (F / q)] is, for
    the prime divisors [q] of [F], then [F] divides [r - 1]. *)
Lemma order_divides b F :
  Z.prime r -> 0 < F ->
  b ^ F mod r = 1 ->
  (forall q, Z.prime q -> (q | F) -> b ^ (F / q) mod r <> 1) ->
  (F | r - 1).
Proof.
  intros Hr HF H1 Hq.
  assert (Hb : b mod r <> 0).
  { intros Hb. rewrite <- Z.mod_pow_l, Hb in H1.
    rewrite Z.pow_0_l, Z.mod_0_l in H1 by lia. discriminate. }
  pose proof (Z.fermat_nz r b Hr Hb) as Hf.
  pose proof (pow_gcd_1 b F (r - 1) HF ltac:(lia) H1 Hf) as Hg.
  pose proof (Z.gcd_divide_l F (r - 1)) as [k Hk].
  pose proof (Z.gcd_nonneg F (r - 1)) as Hg0.
  set (g := Z.gcd F (r - 1)) in *.
  assert (Hgpos : 0 < g).
  { destruct (Z.eq_dec g 0) as [E|]; [|lia].
    rewrite E, Z.mul_0_r in Hk. lia. }
  assert (Hkpos : 0 < k) by nia.
  destruct (Z.eq_dec k 1) as [->|Hk1].
  - replace F with g by lia. apply Z.gcd_divide_r.
  - exfalso.
    destruct (exists_prime_divisor k ltac:(lia)) as (q & Hpq & [k' Hk']).
    pose proof (Z.prime_ge_2 q Hpq).
    apply (Hq q Hpq).
    + exists (k' * g). rewrite Hk, Hk'. ring.
    + replace (F / q) with (g * k').
      * apply pow_mod_1; auto; nia.
      * rewrite Hk, Hk'. replace (k' * q * g) with (g * k' * q) by ring.
        now rewrite Z.div_mul by lia.
Qed.
End Order.

Lemma prime_divides_product qs : forall r,
  Forall Z.prime qs -> Z.prime r -> (r | fold_right Z.mul 1 qs) -> In r qs.
Proof.
  induction qs as [|q qs IH]; intros r Hqs Hr Hdiv; simpl in Hdiv.
  - exfalso. pose proof (Z.prime_ge_2 r Hr).
    apply Z.divide_1_r_nonneg in Hdiv; lia.
  - inversion Hqs; subst.
    apply (Z.divide_prime_mul _ _ _ Hr) in Hdiv as [Hd|Hd].
    + left. symmetry. now apply Z.divide_prime_prime.
    + right. now apply IH.
Qed.

Lemma product_pos qs : Forall Z.prime qs -> 0 < fold_right Z.mul 1 qs.
Proof.
  induction 1 as [|q qs Hq _ IH]; simpl; [lia|].
  pose proof (Z.prime_ge_2 q Hq). nia.
Qed.

Lemma pocklington_sound n a qs R :
  Forall Z.prime qs -> pocklington n a qs R = true -> Z.prime n.
Proof.
  intros Hqs H. unfold pocklington in H.
  repeat (apply andb_true_iff in H as [H ?]).
  set (F := fold_right Z.mul 1 qs) in *.
  apply Z.ltb_lt in H. rename H into Hn.
  match goal with H : (n - 1 =? _) = true |- _ =>
    apply Z.eqb_eq in H; rename H into HFR end.
  match goal with H : (n <? _) = true |- _ =>
    apply Z.ltb_lt in H; rename H into HFF end.
  match goal with H : (Zpow_mod _ _ _ =? 1) = true |- _ =>
    apply Z.eqb_eq in H; rewrite Zpow_mod_correct in H by lia;
    rename H into Ha end.
  match goal with H : forallb _ _ = true |- _ =>
    rewrite forallb_forall in H; rename H into Hgcd end.
  pose proof (product_pos qs Hqs) as HF. fold F in HF.
  assert (HR : 0 < R) by nia.
  split; [exact Hn|]. intros m Hm Hdiv.
  destruct (small_divisor n m Hm Hdiv) as (k & Hk1 & Hk2 & Hk3).
  destruct (exists_prime_divisor k Hk1) as (r & Hr & Hrk).
  pose proof (Z.prime_ge_2 r Hr) as Hr2.
  assert (Hrn : (r | n)) by (eapply Z.divide_trans; eauto).
  assert (Hrle : r <= k) by (apply Z.divide_pos_le; [lia | exact Hrk]).
  assert (Hmod : forall e, (a ^ e mod n) mod r = a ^ e mod r).
  { intros e. apply Z.mod_mod_divide. exact Hrn. }
  assert (HdivF : (F | r - 1)).
  { apply (order_divides r ltac:(lia) (a ^ R) F Hr HF).
    - rewrite <- Z.pow_mul_r by lia. rewrite (Z.mul_comm R F), <- HFR.
      rewrite <- Hmod, Ha. apply Z.mod_1_l. lia.
    - intros q Hq [f Hf] Hone.
      pose proof (Z.prime_ge_2 q Hq).
      assert (Hin : In q qs).
      { apply prime_divides_product; auto. exists f. exact Hf. }
      specialize (Hgcd q Hin). apply Z.eqb_eq in Hgcd.
      rewrite Zpow_mod_correct in Hgcd by lia.
      assert (He : (n - 1) / q = R * (F / q)).
      { rewrite HFR, Hf. rewrite Z.div_mul by lia.
        replace (f * q * R) with (R * f * q) by ring.
        now rewrite Z.div_mul by lia. }
      rewrite He in Hgcd. rewrite <- Z.pow_mul_r in Hone by
          (try lia; rewrite Hf, Z.div_mul by lia; nia).
      assert (Hr1 : (r | a ^ (R * (F / q)) mod n - 1)).
      { apply Z.mod_divide; [lia|].
        rewrite <- Zminus_mod_idemp_l, Hmod, Hone. reflexivity. }
      assert (Hdg : (r | 1)).
      { rewrite <- Hgcd. now apply Z.gcd_greatest. }
      apply Z.divide_1_r_nonneg in Hdg; lia. }
  apply Z.divide_pos_le in HdivF; [|lia]. nia.
Qed.

(** ** The P-256 prime is prime *)

Ltac small_primes :=
  repeat (apply List.Forall_cons;
          [apply trial_prime_sound; vm_compute; reflexivity|]);
  apply List.Forall_nil.

Ltac known_primes :=
  repeat (apply List.Forall_cons; [assumption|]); apply List.Forall_nil.

Lemma prime_66417393611 : Z.prime 66417393611.
Proof.
  apply (pocklington_sound _ 2 [3677; 197; 173] 530);
    [small_primes | vm_compute; reflexivity].
Qed.

Lemma prime_11290956913871 : Z.prime 11290956913871.
Proof.
  apply (pocklington_sound _ 2 [66417393611] 170);
    [pose proof prime_66417393611; known_primes | vm_compute; reflexivity].
Qed.

Lemma prime_46076956964474543 : Z.prime 46076956964474543.
Proof.
  apply (pocklington_sound _ 2 [704251; 78283] 835774);
    [small_primes | vm_compute; reflexivity].
Qed.

Lemma prime_q150 :
  Z.prime 774023187263532362759620327192479577272145303.
Proof.
  apply (pocklington_sound _ 2 [46076956964474543; 11290956913871]
           1487782449629334);
    [pose proof prime_46076956964474543; pose proof prime_11290956913871;
     known_primes
    | vm_compute; reflexivity].
Qed.

Lemma prime_q160 :
  Z.prime 835945042244614951780389953367877943453916927241.
Proof.
  apply (pocklington_sound _ 2
           [774023187263532362759620327192479577272145303] 1080);
    [pose proof prime_q150; known_primes | vm_compute; reflexivity].
Qed.

Lemma prime_P256 :
  Z.prime
    115792089210356248762697446949407573530086143415290314195533631308867097853951.
Proof.
  apply (pocklington_sound _ 2
           [835945042244614951780389953367877943453916927241]
           138516389665330497628477975950);
    [pose proof prime_q160; known_primes | vm_compute; reflexivity].
Qed.

(** ** The square root of P-256 *)

Section AdditionChain.
Variables m c : Z.
Hypothesis m_pos : 0 < m.

Lemma Exp_mod b e : 0 <= e -> big.Exp b e m = b ^ e mod m.
Proof.
  intros He. unfold big.Exp. destruct (Z.eqb_spec m 0); [lia|].
  rewrite Z.abs_eq by lia. apply Zpow_mod_correct. lia.
Qed.

Lemma power_of_mul t e u f :
  power_of m c t e -> power_of m c u f -> power_of m c (t * u) (e + f).
Proof.
  intros [He Ht] [Hf Hu]. split; [lia|].
  rewrite Z.mul_mod, Ht, Hu, <- Z.mul_mod by lia.
  now rewrite Z.pow_add_r.
Qed.

Lemma power_of_exp t e k :
  power_of m c t e -> 0 <= k -> power_of m c (big.Exp t k m) (e * k).
Proof.
  intros [He Ht] Hk. split; [nia|].
  rewrite Exp_mod by exact Hk. rewrite Z.mod_mod by lia.
  rewrite <- Z.mod_pow_l, Ht, Z.mod_pow_l. now rewrite Z.pow_mul_r.
Qed.

Lemma power_of_1 : power_of m c c 1.
Proof. split; [lia|]. now rewrite Z.pow_1_r. Qed.

(** The addition chain of [sqrt] raises [c] to the fixed exponent. *)
Lemma sqrt_power : p256.P256.sqrt m c = c ^ sqrt_exponent mod m.
Proof.
  unfold p256.P256.sqrt. cbv zeta.
  change (big.SetBit 0 2 1) with (2 ^ 2).
  change (big.SetBit 0 4 1) with (2 ^ 4).
  change (big.SetBit 0 8 1) with (2 ^ 8).
  change (big.SetBit 0 16 1) with (2 ^ 16).
  change (big.SetBit 0 32 1) with (2 ^ 32).
  change (big.SetBit 0 96 1) with (2 ^ 96).
  change (big.SetBit 0 94 1) with (2 ^ 94).
  pose proof power_of_1 as H1.
  assert (T1 : power_of m c (c * c * c) 3).
  { change 3 with (1 + 1 + 1). repeat apply power_of_mul; exact H1. }
  set (t1 := c * c * c) in *.
  assert (T2 : power_of m c (big.Exp t1 (2 ^ 2) m * t1) (3 * 2 ^ 2 + 3)).
  { apply power_of_mul; [apply power_of_exp|]; auto; lia. }
  set (t2 := big.Exp t1 (2 ^ 2) m * t1) in *.
  set (e2 := 3 * 2 ^ 2 + 3) in *.
  assert (T3 : power_of m c (big.Exp t2 (2 ^ 4) m * t2) (e2 * 2 ^ 4 + e2)).
  { apply power_of_mul; [apply power_of_exp|]; auto; lia. }
  set (t3 := big.Exp t2 (2 ^ 4) m * t2) in *.
  set (e3 := e2 * 2 ^ 4 + e2) in *.
  assert (T4 : power_of m c (big.Exp t3 (2 ^ 8) m * t3) (e3 * 2 ^ 8 + e3)).
  { apply power_of_mul; [apply power_of_exp|]; auto; lia. }
  set (t4 := big.Exp t3 (2 ^ 8) m * t3) in *.
  set (e4 := e3 * 2 ^ 8 + e3) in *.
  assert (T5 : power_of m c (big.Exp t4 (2 ^ 16) m * t4) (e4 * 2 ^ 16 + e4)).
  { apply power_of_mul; [apply power_of_exp|]; auto; lia. }
  set (r5 := big.Exp t4 (2 ^ 16) m * t4) in *.
  set (e5 := e4 * 2 ^ 16 + e4) in *.
  assert (T6 : power_of m c (big.Exp r5 (2 ^ 32) m * c) (e5 * 2 ^ 32 + 1)).
  { apply power_of_mul; [apply power_of_exp|]; auto; lia. }
  set (r6 := big.Exp r5 (2 ^ 32) m * c) in *.
  set (e6 := e5 * 2 ^ 32 + 1) in *.
  assert (T7 : power_of m c (big.Exp r6 (2 ^ 96) m * c) (e6 * 2 ^ 96 + 1)).
  { apply power_of_mul; [apply power_of_exp|]; auto; lia. }
  set (r7 := big.Exp r6 (2 ^ 96) m * c) in *.
  set (e7 := e6 * 2 ^ 96 + 1) in *.
  destruct T7 as [He7 T7].
  rewrite Exp_mod by lia.
  rewrite <- Z.mod_pow_l, T7, Z.mod_pow_l, <- Z.pow_mul_r by lia.
  replace (e7 * 2 ^ 94) with sqrt_exponent by (vm_compute; reflexivity).
  reflexivity.
Qed.
End AdditionChain.

(** For a prime [p = 4 E - 1], the power [c ^ E] of a square [c] is a
    square root of [c]. *)
Lemma power_is_root p E s :
  Z.prime p -> p + 1 = 4 * E ->
  let c := (s * s) mod p in
  ((c ^ E mod p) * (c ^ E mod p)) mod p = c.
Proof.
  intros Hp HE c. pose proof (Z.prime_ge_2 p Hp) as Hp2.
  assert (HE0 : 0 < E) by lia.
  rewrite <- Z.mul_mod, <- Z.pow_add_r by lia.
  subst c. rewrite Z.mod_pow_l.
  replace (s * s) with (s ^ 2) by ring.
  rewrite <- Z.pow_mul_r by lia.
  replace (2 * (E + E)) with (p - 1 + 2) by lia.
  destruct (Z.eq_dec (s mod p) 0) as [Hs|Hs].
  - rewrite <- Z.mod_pow_l, <- (Z.mod_pow_l s 2), Hs.
    rewrite !Z.pow_0_l by lia. reflexivity.
  - rewrite Z.pow_add_r, Z.mul_mod by lia.
    rewrite (Z.fermat_nz p s Hp Hs), Z.mul_1_l.
    apply Z.mod_mod. lia.
Qed.

(** C2. For every quadratic residue [c] in [[0, p)] of the P-256 prime,
    [sqrt] returns [c] raised to [2^254 - 2^222 + 2^190 + 2^94] modulo
    [p]; that exponent is [(p+1)/4]; and the value returned squares to
    [c] modulo [p]. *)
Theorem sqrt_P256_correct (c : Z) :
  let p := elliptic.P (p256.p p256.P256.Init) in
  let r := p256.sqrt (p256.ops p256.P256.Init) c in
  0 <= c < p ->
  (exists s, (s * s) mod p = c) ->
  r = c ^ (2 ^ 254 - 2 ^ 222 + 2 ^ 190 + 2 ^ 94) mod p /\
  2 ^ 254 - 2 ^ 222 + 2 ^ 190 + 2 ^ 94 = (p + 1) / 4 /\
  (r * r) mod p = c.
Proof.
  intros p r Hc [s Hs].
  assert (Hr : r = c ^ sqrt_exponent mod p).
  { subst r. cbn [p256.sqrt p256.ops p256.P256.Init].
    apply sqrt_power. vm_compute. reflexivity. }
  split; [exact Hr|]. split; [vm_compute; reflexivity|].
  rewrite Hr, <- Hs.
  apply (power_is_root p sqrt_exponent s).
  - exact prime_P256.
  - vm_compute. reflexivity.
Qed.

Lemma sqrt_P256_correct_4 :
  let p := elliptic.P (p256.p p256.P256.Init) in
  let r := p256.sqrt (p256.ops p256.P256.Init) 4 in
  r = 4 ^ (2 ^ 254 - 2 ^ 222 + 2 ^ 190 + 2 ^ 94) mod p /\
  2 ^ 254 - 2 ^ 222 + 2 ^ 190 + 2 ^ 94 = (p + 1) / 4 /\
  (r * r) mod p = 4.
Proof.
  intros p r. apply (sqrt_P256_correct 4).
  - vm_compute. split; [discriminate | reflexivity].
  - exists 2. vm_compute. reflexivity.
Defined.

(** * Further properties of the code *)

(** ** [Equal] as a relation on points *)

Lemma Mod_in_place_closed a m h :
  p256.Mod_in_place a m h
  = if m =? 0 then None
    else match a with
         | Some n => match h !! n with
                     | Some v => Some (tt, <[n := v mod Z.abs m]> h)
                     | None => None
                     end
         | None => None
         end.
Proof.
  unfold p256.Mod_in_place. destruct (m =? 0); [reflexivity|]. exec.
  destruct a as [n|]; [|reflexivity].
  destruct (h !! n) as [v|] eqn:E; [|reflexivity]. exec. now rewrite E.
Qed.

Lemma lookup_reduce_cells m cells h n :
  reduce_cells m cells h !! n
  = (fun v => if bool_decide (n ∈ cells) then v mod m else v) <$> h !! n.
Proof. unfold reduce_cells. apply list_lookup_imap. Qed.

Lemma length_reduce_cells m cells h : length (reduce_cells m cells h) = length h.
Proof. unfold reduce_cells. apply length_imap. Qed.

Lemma reduce_cells_nil m h : reduce_cells m [] h = h.
Proof.
  apply list_eq. intros n. rewrite lookup_reduce_cells.
  destruct (h !! n); [|reflexivity]. simpl.
  destruct (bool_decide_reflect (n ∈ @nil nat)) as [H|H]; [|reflexivity].
  now apply elem_of_nil in H.
Qed.

Lemma reduce_cells_ext m cs cs' h :
  (forall n, n ∈ cs <-> n ∈ cs') -> reduce_cells m cs h = reduce_cells m cs' h.
Proof.
  intros H. apply list_eq. intros n. rewrite !lookup_reduce_cells.
  destruct (h !! n); [|reflexivity]. simpl.
  now rewrite (bool_decide_ext _ _ (H n)).
Qed.

(** Reducing one more cell of a heap that already has the cells [cs]
    reduced. *)
Lemma reduce_cells_step m cs h n :
  0 < m ->
  match reduce_cells m cs h !! n with
  | Some v => <[n := v mod m]> (reduce_cells m cs h)
  | None => reduce_cells m cs h
  end = if bool_decide (n < length h)%nat then reduce_cells m (n :: cs) h
        else reduce_cells m cs h.
Proof.
  intros Hm. rewrite lookup_reduce_cells.
  destruct (bool_decide_reflect (n < length h)%nat) as [Hn|Hn].
  - destruct (lookup_lt_is_Some_2 h n Hn) as [v Hv]. rewrite Hv. simpl.
    apply list_eq. intros k. rewrite lookup_reduce_cells.
    destruct (decide (k = n)) as [->|Hk].
    + rewrite list_lookup_insert_eq by (now rewrite length_reduce_cells).
      rewrite Hv. simpl.
      rewrite (bool_decide_eq_true_2 (n ∈ n :: cs)) by apply list_elem_of_here.
      destruct (bool_decide (n ∈ cs)); [|reflexivity].
      now rewrite Z.mod_mod by lia.
    + rewrite list_lookup_insert_ne by auto. rewrite lookup_reduce_cells.
      destruct (h !! k); [|reflexivity]. simpl. f_equal.
      assert (E : bool_decide (k ∈ n :: cs) = bool_decide (k ∈ cs)).
      { apply bool_decide_ext. rewrite elem_of_cons. tauto. }
      now rewrite E.
  - rewrite lookup_ge_None_2 by lia. reflexivity.
Qed.

Lemma Mod_in_place_reduce a m cs h :
  m <> 0 ->
  p256.Mod_in_place a m (reduce_cells (Z.abs m) cs h)
  = match a with
    | Some n => if bool_decide (n < length h)%nat
                then Some (tt, reduce_cells (Z.abs m) (n :: cs) h)
                else None
    | None => None
    end.
Proof.
  intros Hm. rewrite Mod_in_place_closed.
  destruct (Z.eqb_spec m 0) as [|_]; [contradiction|].
  destruct a as [n|]; [|reflexivity].
  pose proof (reduce_cells_step (Z.abs m) cs h n ltac:(lia)) as H.
  destruct (reduce_cells (Z.abs m) cs h !! n) as [v|] eqn:E.
  - rewrite H. apply lookup_lt_Some in E. rewrite length_reduce_cells in E.
    now rewrite bool_decide_eq_true_2 by exact E.
  - apply lookup_ge_None in E. rewrite length_reduce_cells in E.
    now rewrite bool_decide_eq_false_2 by lia.
Qed.

Lemma deref_reduce m cs h n :
  deref (Some n) (reduce_cells m cs h)
  = match h !! n with
    | Some v => Some (if bool_decide (n ∈ cs) then v mod m else v,
                      reduce_cells m cs h)
    | None => None
    end.
Proof.
  unfold deref. rewrite lookup_reduce_cells. destruct (h !! n); reflexivity.
Qed.

(** [Equal] in closed form. *)
Lemma Equal_closed (P Q : p256.CurvePoint) (h : list Z) :
  let m := elliptic.P (p256.p (p256.C P)) in
  p256.Equal P Q h
  = if m =? 0 then None
    else match coordinates h P, coordinates h Q with
         | Some (px, py), Some (qx, qy) =>
             Some ((px mod Z.abs m =? qx mod Z.abs m)
                   && (py mod Z.abs m =? qy mod Z.abs m),
                   reduce_cells (Z.abs m) (cells P ++ cells Q) h)
         | _, _ => None
         end.
Proof.
  intros m. unfold p256.Equal. fold m.
  destruct (Z.eqb_spec m 0) as [E0|Hm].
  { unfold mbind, Exec_bind, bind at 1. rewrite Mod_in_place_closed, E0.
    reflexivity. }
  unfold coordinates, cells.
  rewrite <- (reduce_cells_nil (Z.abs m) h) at 1.
  destruct (p256.x P) as [xa|]; cbn [mbind option_bind];
    unfold mbind at 1, Exec_bind at 1, bind at 1;
    rewrite Mod_in_place_reduce by exact Hm; [|reflexivity].
  destruct (bool_decide_reflect (xa < length h)%nat) as [Hxa|Hxa].
  2:{ destruct (p256.y P); cbn [mbind option_bind]; [|reflexivity].
      now rewrite (lookup_ge_None_2 h xa) by lia. }
  destruct (lookup_lt_is_Some_2 h xa Hxa) as [px Hpx].
  destruct (p256.y P) as [ya|]; cbn [mbind option_bind];
    unfold mbind at 1, Exec_bind at 1, bind at 1;
    rewrite Mod_in_place_reduce by exact Hm; [|reflexivity].
  rewrite Hpx. cbn [mbind option_bind].
  destruct (bool_decide_reflect (ya < length h)%nat) as [Hya|Hya].
  2:{ now rewrite (lookup_ge_None_2 h ya) by lia. }
  destruct (lookup_lt_is_Some_2 h ya Hya) as [py Hpy].
  rewrite Hpy. cbn [mbind option_bind].
  destruct (p256.x Q) as [xb|]; cbn [mbind option_bind];
    unfold mbind at 1, Exec_bind at 1, bind at 1;
    rewrite Mod_in_place_reduce by exact Hm; [|reflexivity].
  destruct (bool_decide_reflect (xb < length h)%nat) as [Hxb|Hxb].
  2:{ destruct (p256.y Q); cbn [mbind option_bind]; [|reflexivity].
      destruct (h !! xb) eqn:E; [|reflexivity].
      apply lookup_lt_Some in E. lia. }
  destruct (lookup_lt_is_Some_2 h xb Hxb) as [qx Hqx].
  destruct (p256.y Q) as [yb|]; cbn [mbind option_bind];
    unfold mbind at 1, Exec_bind at 1, bind at 1;
    rewrite Mod_in_place_reduce by exact Hm; [|reflexivity].
  rewrite Hqx. cbn [mbind option_bind].
  destruct (bool_decide_reflect (yb < length h)%nat) as [Hyb|Hyb].
  2:{ now rewrite (lookup_ge_None_2 h yb) by lia. }
  destruct (lookup_lt_is_Some_2 h yb Hyb) as [qy Hqy].
  rewrite Hqy. cbn [mbind option_bind].
  set (cs := [yb; xb; ya; xa]).
  assert (Hcs : reduce_cells (Z.abs m) cs h
                = reduce_cells (Z.abs m) (([xa] ++ [ya]) ++ [xb] ++ [yb]) h).
  { apply reduce_cells_ext. intros n. subst cs. cbn [app].
    rewrite !elem_of_cons. tauto. }
  assert (Hin : forall n, n = xa \/ n = ya \/ n = xb \/ n = yb ->
                          bool_decide (n ∈ cs) = true).
  { intros n Hn. apply bool_decide_eq_true_2. subst cs.
    rewrite !elem_of_cons. tauto. }
  unfold mbind, Exec_bind, bind.
  rewrite deref_reduce, Hpx. cbn iota. rewrite deref_reduce, Hqx. cbn iota.
  rewrite !Hin by tauto. rewrite Cmp_eq_0.
  destruct (px mod Z.abs m =? qx mod Z.abs m).
  - rewrite deref_reduce, Hpy. cbn iota. rewrite deref_reduce, Hqy.
    rewrite !Hin by tauto. unfold ret. rewrite Cmp_eq_0, Hcs. reflexivity.
  - unfold ret. rewrite Hcs. reflexivity.
Qed.

Lemma coordinates_inv h P xv yv :
  coordinates h P = Some (xv, yv) ->
  exists a b, p256.x P = Some a /\ p256.y P = Some b /\
              h !! a = Some xv /\ h !! b = Some yv.
Proof.
  unfold coordinates.
  destruct (p256.x P) as [a|]; [|discriminate].
  destruct (p256.y P) as [b|]; [|discriminate]. cbn [mbind option_bind].
  destruct (h !! a) as [xv'|] eqn:Ea; [|discriminate].
  destruct (h !! b) as [yv'|] eqn:Eb; [|discriminate]. cbn [mbind option_bind].
  intros E. inversion E; subst. exists a, b. auto.
Qed.

Lemma coordinates_intro h P a b xv yv :
  p256.x P = Some a -> p256.y P = Some b ->
  h !! a = Some xv -> h !! b = Some yv ->
  coordinates h P = Some (xv, yv).
Proof.
  intros Ha Hb Hx Hy. unfold coordinates. rewrite Ha, Hb.
  cbn [mbind option_bind]. rewrite Hx, Hy. reflexivity.
Qed.

(** What a point's coordinates have become once the cells [cs] are
    reduced. *)
Lemma coordinates_reduce m cs h P xv yv :
  0 < m ->
  coordinates h P = Some (xv, yv) ->
  exists xv' yv',
    coordinates (reduce_cells m cs h) P = Some (xv', yv') /\
    xv' mod m = xv mod m /\ yv' mod m = yv mod m /\
    ((forall n, n ∈ cells P -> n ∈ cs) ->
     xv' = xv mod m /\ yv' = yv mod m).
Proof.
  intros Hm Hc. apply coordinates_inv in Hc as (a & b & Ha & Hb & Hx & Hy).
  exists (if bool_decide (a ∈ cs) then xv mod m else xv),
         (if bool_decide (b ∈ cs) then yv mod m else yv).
  split.
  { apply (coordinates_intro _ _ a b); auto;
      rewrite lookup_reduce_cells; [rewrite Hx | rewrite Hy]; reflexivity. }
  split; [destruct (bool_decide (a ∈ cs)); auto using Z.mod_mod; apply Z.mod_mod; lia|].
  split; [destruct (bool_decide (b ∈ cs)); auto using Z.mod_mod; apply Z.mod_mod; lia|].
  intros Hin. unfold cells in Hin. rewrite Ha, Hb in Hin.
  rewrite !bool_decide_eq_true_2; [auto | |];
    apply Hin; cbn [app]; rewrite !elem_of_cons; tauto.
Qed.

Lemma coordinates_reduce_None m cs h P :
  coordinates h P = None -> coordinates (reduce_cells m cs h) P = None.
Proof.
  unfold coordinates.
  destruct (p256.x P) as [a|]; [|reflexivity].
  destruct (p256.y P) as [b|]; [|reflexivity]. cbn [mbind option_bind].
  rewrite !lookup_reduce_cells.
  destruct (h !! a) as [xv|]; [|reflexivity].
  destruct (h !! b) as [yv|]; [|reflexivity]. discriminate.
Qed.

Lemma reduce_cells_idem m cs h :
  0 < m -> reduce_cells m cs (reduce_cells m cs h) = reduce_cells m cs h.
Proof.
  intros Hm. apply list_eq. intros n. rewrite !lookup_reduce_cells.
  destruct (h !! n) as [v|]; [|reflexivity]. simpl.
  destruct (bool_decide (n ∈ cs)); [|reflexivity].
  now rewrite Z.mod_mod by lia.
Qed.

(** X1. [Equal] panics exactly when the prime of the receiver's curve is
    zero or one of the four coordinate pointers is nil. *)
Theorem Equal_panics_iff (P Q : p256.CurvePoint) (h : list Z) :
  p256.Equal P Q h = None <->
  elliptic.P (p256.p (p256.C P)) = 0 \/
  coordinates h P = None \/ coordinates h Q = None.
Proof.
  rewrite Equal_closed.
  destruct (Z.eqb_spec (elliptic.P (p256.p (p256.C P))) 0) as [E|E].
  - split; auto.
  - destruct (coordinates h P) as [[px py]|], (coordinates h Q) as [[qx qy]|];
      split; auto; try discriminate.
    intros [?|[?|?]]; [contradiction | discriminate | discriminate].
Qed.

(** X2. [Equal] is symmetric between points whose curves have the same
    prime: the two calls give the same answer and leave the same
    integers behind. *)
Theorem Equal_symmetric (P Q : p256.CurvePoint) (h : list Z) :
  elliptic.P (p256.p (p256.C Q)) = elliptic.P (p256.p (p256.C P)) ->
  p256.Equal Q P h = p256.Equal P Q h.
Proof.
  intros Hm. rewrite !Equal_closed, Hm.
  destruct (elliptic.P (p256.p (p256.C P)) =? 0); [reflexivity|].
  destruct (coordinates h P) as [[px py]|], (coordinates h Q) as [[qx qy]|];
    try reflexivity.
  f_equal. f_equal.
  - now rewrite (Z.eqb_sym (qx mod _)), (Z.eqb_sym (qy mod _)).
  - apply reduce_cells_ext. intros n. rewrite !elem_of_app. tauto.
Qed.

Lemma Equal_symmetric_P256 :
  let Q := point_at 2 3 in
  let h := base_heap ++ [elliptic.Gx elliptic.P256_params + 2 ^ 256; 7] in
  p256.Equal Q (point_at 0 1) h = p256.Equal (point_at 0 1) Q h.
Proof.
  intros Q h. apply (Equal_symmetric (point_at 0 1) Q h). reflexivity.
Defined.

(** X3. A point whose coordinates are set is [Equal] to itself and to
    its clone, unreduced coordinates included. *)
Theorem Equal_reflexive (P : p256.CurvePoint) (h : list Z) (xv yv : Z) :
  elliptic.P (p256.p (p256.C P)) <> 0 ->
  coordinates h P = Some (xv, yv) ->
  exists h', p256.Equal P P h = Some (true, h') /\
             p256.Equal P (p256.Clone P) h = Some (true, h') /\
             p256.Equal (p256.Clone P) P h = Some (true, h').
Proof.
  intros Hm Hc.
  assert (Hcl : coordinates h (p256.Clone P) = Some (xv, yv)) by exact Hc.
  rewrite !Equal_closed. cbn [p256.Clone p256.C].
  destruct (Z.eqb_spec (elliptic.P (p256.p (p256.C P))) 0); [contradiction|].
  rewrite Hc, Hcl, !Z.eqb_refl. eexists. split; [reflexivity|].
  split; reflexivity.
Qed.

Lemma Equal_reflexive_P256 :
  let h := [2 ^ 256 - 1; 5] in
  exists h', p256.Equal (point_at 0 1) (point_at 0 1) h = Some (true, h') /\
             p256.Equal (point_at 0 1) (p256.Clone (point_at 0 1)) h
             = Some (true, h') /\
             p256.Equal (p256.Clone (point_at 0 1)) (point_at 0 1) h
             = Some (true, h').
Proof.
  intros h. apply (Equal_reflexive (point_at 0 1) h (2 ^ 256 - 1) 5).
  - vm_compute. discriminate.
  - reflexivity.
Defined.

(** X4. [Equal] is transitive over successive calls, for points of curves
    with the same prime: when [P] was found equal to [Q] and then [Q] to
    [R], [P] is found equal to [R]. *)
Theorem Equal_transitive (P Q R : p256.CurvePoint) (h h1 h2 : list Z) :
  elliptic.P (p256.p (p256.C Q)) = elliptic.P (p256.p (p256.C P)) ->
  p256.Equal P Q h = Some (true, h1) ->
  p256.Equal Q R h1 = Some (true, h2) ->
  exists h3, p256.Equal P R h2 = Some (true, h3).
Proof.
  intros HQ E1 E2.
  set (m := elliptic.P (p256.p (p256.C P))) in *.
  rewrite Equal_closed in E1, E2. rewrite HQ in E2. fold m in E1.
  rewrite Equal_closed. fold m.
  destruct (Z.eqb_spec m 0) as [|Hm]; [discriminate|].
  assert (HM : 0 < Z.abs m) by lia.
  destruct (coordinates h P) as [[px py]|] eqn:CP; [|discriminate].
  destruct (coordinates h Q) as [[qx qy]|] eqn:CQ; [|discriminate].
  injection E1 as Eb Eh.
  apply andb_true_iff in Eb as [Ex Ey]. apply Z.eqb_eq in Ex, Ey.
  destruct (coordinates_reduce (Z.abs m) (cells P ++ cells Q) h P px py
              HM CP) as (px1 & py1 & CP1 & Hpx1 & Hpy1 & _).
  destruct (coordinates_reduce (Z.abs m) (cells P ++ cells Q) h Q qx qy
              HM CQ) as (qx1 & qy1 & CQ1 & Hqx1 & Hqy1 & _).
  rewrite Eh in CP1, CQ1. rewrite CQ1 in E2.
  destruct (coordinates h1 R) as [[rx ry]|] eqn:CR; [|discriminate].
  injection E2 as Eb2 Eh2.
  apply andb_true_iff in Eb2 as [Ex2 Ey2]. apply Z.eqb_eq in Ex2, Ey2.
  destruct (coordinates_reduce (Z.abs m) (cells Q ++ cells R) h1 P px1 py1
              HM CP1) as (px2 & py2 & CP2 & Hpx2 & Hpy2 & _).
  destruct (coordinates_reduce (Z.abs m) (cells Q ++ cells R) h1 R rx ry
              HM CR) as (rx2 & ry2 & CR2 & Hrx2 & Hry2 & _).
  rewrite Eh2 in CP2, CR2. rewrite CP2, CR2.
  replace (px2 mod Z.abs m =? rx2 mod Z.abs m) with true
    by (symmetry; apply Z.eqb_eq; congruence).
  replace (py2 mod Z.abs m =? ry2 mod Z.abs m) with true
    by (symmetry; apply Z.eqb_eq; congruence).
  eexists. reflexivity.
Qed.

Lemma Equal_transitive_P256 :
  let p := elliptic.P elliptic.P256_params in
  let Q := point_at 2 3 in
  let R := point_at 4 5 in
  exists h3, p256.Equal (point_at 0 1) R [3; 5; 3; 5; 3 + 2 * p; 5 - p]
             = Some (true, h3).
Proof.
  intros p Q R.
  apply (Equal_transitive (point_at 0 1) Q R
           [3 + p; 5; 3; 5 + p; 3 + 2 * p; 5 - p]
           [3; 5; 3; 5; 3 + 2 * p; 5 - p]
           [3; 5; 3; 5; 3; 5]).
  - reflexivity.
  - vm_compute. reflexivity.
  - vm_compute. reflexivity.
Defined.

(** X5. When [Equal] has returned, the four coordinates are stored reduced
    into [[0, |p|)], the answer is the plain equality of the stored
    integers, and a second call gives the same answer and changes
    nothing. *)
Theorem Equal_normalises (P Q : p256.CurvePoint) (h h' : list Z) (b : bool) :
  let m := Z.abs (elliptic.P (p256.p (p256.C P))) in
  p256.Equal P Q h = Some (b, h') ->
  (exists px py qx qy,
      coordinates h' P = Some (px, py) /\ coordinates h' Q = Some (qx, qy) /\
      0 <= px < m /\ 0 <= py < m /\ 0 <= qx < m /\ 0 <= qy < m /\
      b = (px =? qx) && (py =? qy)) /\
  p256.Equal P Q h' = Some (b, h').
Proof.
  intros m E. rewrite Equal_closed in E.
  destruct (Z.eqb_spec (elliptic.P (p256.p (p256.C P))) 0) as [|Hm];
    [discriminate|].
  assert (HM : 0 < m) by (subst m; lia). fold m in E.
  destruct (coordinates h P) as [[px py]|] eqn:CP; [|discriminate].
  destruct (coordinates h Q) as [[qx qy]|] eqn:CQ; [|discriminate].
  injection E as Eb Eh. subst b h'.
  destruct (coordinates_reduce m (cells P ++ cells Q) h P px py HM CP)
    as (px1 & py1 & CP1 & _ & _ & HP).
  destruct (coordinates_reduce m (cells P ++ cells Q) h Q qx qy HM CQ)
    as (qx1 & qy1 & CQ1 & _ & _ & HQ).
  destruct HP as [-> ->]; [intros n Hn; apply elem_of_app; auto|].
  destruct HQ as [-> ->]; [intros n Hn; apply elem_of_app; auto|].
  split.
  - exists (px mod m), (py mod m), (qx mod m), (qy mod m).
    split; [exact CP1|]. split; [exact CQ1|].
    repeat (split; [apply Z.mod_pos_bound; lia|]). reflexivity.
  - rewrite Equal_closed.
    destruct (Z.eqb_spec (elliptic.P (p256.p (p256.C P))) 0);
      [contradiction|].
    fold m. rewrite CP1, CQ1, reduce_cells_idem by exact HM.
    now rewrite !Z.mod_mod by lia.
Qed.

Lemma Equal_normalises_P256 :
  let p := elliptic.P elliptic.P256_params in
  let m := Z.abs (elliptic.P (p256.p (p256.C (point_at 0 1)))) in
  let Q := point_at 2 3 in
  let h' := [3; 5; 3; 6] in
  (exists px py qx qy,
      coordinates h' (point_at 0 1) = Some (px, py) /\
      coordinates h' Q = Some (qx, qy) /\
      0 <= px < m /\ 0 <= py < m /\ 0 <= qx < m /\ 0 <= qy < m /\
      false = (px =? qx) && (py =? qy)) /\
  p256.Equal (point_at 0 1) Q h' = Some (false, h').
Proof.
  intros p m Q h'.
  apply (Equal_normalises (point_at 0 1) Q [3 + p; 5; 3; 6 + p] h' false).
  vm_compute. reflexivity.
Defined.

(** ** Points without coordinates, [Data] on any point *)

(** X6. A point fresh from [Point] or [PointPlain] has nil coordinates,
    and every method that reads a coordinate panics on it: [Equal] on
    either side, [Valid], [Data], [MarshalBinary], and [Add], [Sub], [Neg]
    and [Mul] with it as an operand. *)
Theorem nil_coordinates_panic (curve : p256.Curve) (Q R : p256.CurvePoint)
    (s : modint.Int) (h : list Z) :
  let P := p256.Point curve in
  p256.PointPlain curve = P /\
  p256.Equal P Q h = None /\ p256.Equal Q P h = None /\
  p256.Valid P h = None /\ p256.Data P h = None /\
  p256.MarshalBinary P h = None /\
  p256.Add R P Q h = None /\ p256.Add R Q P h = None /\
  p256.Sub R P Q h = None /\ p256.Sub R Q P h = None /\
  p256.Neg R P h = None /\ p256.Mul R s (Some P) h = None.
Proof.
  intros P.
  assert (HMul : forall T s' h', p256.Mul T s' (Some P) h' = None)
    by reflexivity.
  assert (HAddl : forall B h', p256.Add R P B h' = None) by reflexivity.
  split; [reflexivity|].
  split; [rewrite Equal_closed; now destruct (_ =? 0)|].
  split.
  { rewrite Equal_closed. destruct (_ =? 0); [reflexivity|].
    now destruct (coordinates h Q) as [[qx qy]|]. }
  split; [reflexivity|]. split; [reflexivity|]. split; [reflexivity|].
  split; [apply HAddl|].
  split.
  { unfold p256.Add. exec.
    destruct (p256.x Q) as [a|]; [|reflexivity].
    destruct (h !! a); [|reflexivity].
    destruct (p256.y Q) as [b|]; [|reflexivity].
    destruct (h !! b); reflexivity. }
  split.
  { unfold p256.Sub, mbind, Exec_bind, bind.
    destruct (p256.Neg _ Q h) as [[cbn h1]|]; [apply HAddl | reflexivity]. }
  split.
  { unfold p256.Sub, mbind, Exec_bind, bind. unfold p256.Neg.
    now rewrite HMul. }
  split; [apply HMul | apply HMul].
Qed.

(** X7. On an embeddable curve [Data] never panics on a point whose
    x-coordinate is set: it returns the length error, or a payload of at
    most [EmbedLen] bytes, and leaves the heap as it was. *)
Theorem Data_total (P : p256.CurvePoint) (h : list Z) (xa : nat) (xv : Z) :
  embeddable (p256.C P) ->
  p256.x P = Some xa -> h !! xa = Some xv ->
  p256.Data P h = Some (inr "invalid embedded data length"%string, h) \/
  exists d, p256.Data P h = Some (inl d, h) /\ len d <= p256.EmbedLen P.
Proof.
  intros He Hx Hcell.
  destruct (embeddable_lengths P None He) as (Hl & HE & _).
  set (n := Z.to_nat ((big.BitLen (elliptic.P (p256.p (p256.C P))) + 7) ÷ 8))
    in *.
  unfold p256.Data. rewrite Hx. exec. rewrite Hcell, Hl.
  set (b := if len (big.Bytes xv) <? Z.of_nat n
            then replicate (Z.to_nat (Z.of_nat n - len (big.Bytes xv))) x00
                 ++ big.Bytes xv
            else big.Bytes xv).
  assert (Hb : Z.of_nat n <= len b).
  { subst b. unfold len.
    destruct (Z.ltb_spec (Z.of_nat (length (big.Bytes xv))) (Z.of_nat n)).
    - rewrite length_app, length_replicate. lia.
    - lia. }
  destruct (index_Some b (Z.of_nat n - 1)) as [tag Htag]; [lia|].
  rewrite Htag. exec.
  pose proof (Z_of_byte_nonneg tag) as Ht0.
  destruct (Z.gtb_spec (Z_of_byte tag) (p256.EmbedLen P)) as [Hgt|Hle];
    [left; reflexivity|].
  right. unfold slice.
  destruct (Z.ltb_spec (Z.of_nat n - Z_of_byte tag - 1) 0); [lia|].
  destruct (Z.ltb_spec (Z.of_nat n - 1) (Z.of_nat n - Z_of_byte tag - 1));
    [lia|].
  unfold len in Hb.
  destruct (Z.ltb_spec (Z.of_nat (length b)) (Z.of_nat n - 1)); [lia|].
  cbn [orb]. eexists. split; [reflexivity|].
  unfold len. rewrite length_take, length_drop. lia.
Qed.

Lemma Data_total_P256 :
  p256.Data (point_at 0 1) [2 ^ 256 - 1; 5]
  = Some (inr "invalid embedded data length"%string, [2 ^ 256 - 1; 5]) \/
  exists d, p256.Data (point_at 0 1) [2 ^ 256 - 1; 5]
            = Some (inl d, [2 ^ 256 - 1; 5]) /\
            len d <= p256.EmbedLen (point_at 0 1).
Proof.
  apply (Data_total (point_at 0 1) [2 ^ 256 - 1; 5] 0 (2 ^ 256 - 1)).
  - exact P256_embeddable.
  - reflexivity.
  - reflexivity.
Defined.

(** ** [MarshalBinary] and [UnmarshalBinary] *)

Lemma SetBytes_be_bytes n : forall v,
  0 <= v < 256 ^ Z.of_nat n -> big.SetBytes (big.be_bytes n v) = v.
Proof.
  induction n as [|n IH]; intros v Hv.
  - simpl in *. unfold big.SetBytes. simpl. lia.
  - cbn [big.be_bytes]. rewrite SetBytes_snoc, Z_of_byte_of_Z.
    rewrite Nat2Z.inj_succ, Z.pow_succ_r in Hv by lia.
    rewrite IH.
    + pose proof (Z.div_mod v 256 ltac:(lia)). lia.
    + split; [apply Z.div_pos; lia | apply Z.div_lt_upper_bound; lia].
Qed.

Lemma Forall_zero_replicate (l : list byte) :
  Forall (eq x00) l <-> l = replicate (length l) x00.
Proof.
  split.
  - induction 1 as [|b l Hb _ IH]; [reflexivity|]. simpl. subst b. now f_equal.
  - intros ->. apply Forall_forall. intros b Hb.
    apply elem_of_replicate in Hb as [-> _]. reflexivity.
Qed.

Lemma be_bytes_zero_iff n v :
  0 <= v < 256 ^ Z.of_nat n ->
  (Forall (eq x00) (big.be_bytes n v) <-> v = 0).
Proof.
  intros Hv. split.
  - intros H. apply Forall_zero_replicate in H. rewrite length_be_bytes in H.
    rewrite <- (SetBytes_be_bytes n v Hv), H, <- be_bytes_0.
    apply SetBytes_be_bytes. split; [lia|]. apply Z.pow_pos_nonneg; lia.
  - intros ->. rewrite be_bytes_0. apply Forall_zero_replicate.
    now rewrite length_replicate.
Qed.

(** The provider built from the parameters keeps the encoding contract
    when its prime fits the coordinate length. *)
Lemma CurveParams_codec_provider (curve : p256.Curve) :
  let cp := elliptic.Params (p256.ec curve) in
  p256.ec curve = elliptic.CurveParams_Curve cp ->
  0 <= elliptic.BitSize cp ->
  0 < elliptic.P cp <= 256 ^ ((elliptic.BitSize cp + 7) ÷ 8) ->
  codec_provider curve.
Proof.
  intros cp Hec Hbits HP.
  set (byteLen := (elliptic.BitSize cp + 7) ÷ 8) in *.
  assert (Hlen : 0 <= byteLen).
  { subst byteLen. rewrite Z.quot_div_nonneg by lia. apply Z.div_pos; lia. }
  assert (Hrange : forall xv yv,
             elliptic.params_IsOnCurve cp xv yv = true ->
             0 <= xv < elliptic.P cp /\ 0 <= yv < elliptic.P cp).
  { intros xv yv H. unfold elliptic.params_IsOnCurve in H.
    destruct (Z.ltb_spec xv 0), (Z.leb_spec (elliptic.P cp) xv),
      (Z.ltb_spec yv 0), (Z.leb_spec (elliptic.P cp) yv);
      cbn [orb] in H; try discriminate H. lia. }
  assert (Hpow : 256 ^ Z.of_nat (Z.to_nat byteLen) = 256 ^ byteLen)
    by (now rewrite Z2Nat.id by lia).
  split.
  - intros xv yv Hv. unfold elliptic.Marshal. rewrite Hec.
    cbn [elliptic.marshal elliptic.CurveParams_Curve].
    unfold elliptic.params_Marshal. fold byteLen.
    eexists _, _. split; [reflexivity|].
    assert (Hr : 0 <= xv < elliptic.P cp /\ 0 <= yv < elliptic.P cp).
    { unfold valid_coords in Hv. rewrite Hec in Hv.
      cbn [elliptic.IsOnCurve elliptic.CurveParams_Curve] in Hv.
      apply orb_true_iff in Hv as [H|H]; [now apply Hrange|].
      apply andb_true_iff in H as [Hx Hy]. apply Z.eqb_eq in Hx, Hy.
      unfold big.Sign in *. apply Z.sgn_null_iff in Hx, Hy. lia. }
    rewrite Forall_app.
    rewrite !be_bytes_zero_iff by (rewrite Hpow; lia). reflexivity.
  - intros xv yv Hon. unfold elliptic.Marshal, elliptic.Unmarshal.
    rewrite Hec in *.
    cbn [elliptic.marshal elliptic.unmarshal elliptic.IsOnCurve
           elliptic.CurveParams_Curve] in *.
    destruct (Hrange xv yv Hon) as [Hx Hy].
    unfold elliptic.params_Marshal, elliptic.params_Unmarshal.
    fold byteLen. cbn [length]. rewrite length_app, !length_be_bytes.
    destruct (Z.eqb_spec (Z.of_nat (S (Z.to_nat byteLen + Z.to_nat byteLen)))
                (1 + 2 * byteLen)) as [_|Hne]; [|lia].
    cbn [negb].
    rewrite take_app_length' by (now rewrite length_be_bytes).
    rewrite drop_app_length' by (now rewrite length_be_bytes).
    rewrite !SetBytes_be_bytes by (rewrite Hpow; lia).
    destruct (Z.leb_spec (elliptic.P cp) xv); [lia|].
    destruct (Z.leb_spec (elliptic.P cp) yv); [lia|].
    cbn [orb]. rewrite Hon. reflexivity.
Qed.

(** X8. [UnmarshalBinary] panics exactly on the empty buffer, where
    [buf[1:]] is out of range; on every other buffer it returns. *)
Theorem UnmarshalBinary_panics_iff (P : p256.CurvePoint) (buf : list byte)
    (h : list Z) :
  p256.UnmarshalBinary P buf h = None <-> buf = [].
Proof.
  destruct buf as [|marker body].
  - split; [reflexivity|]. intros _. reflexivity.
  - split; [|discriminate]. intros E. exfalso.
    destruct (UnmarshalBinary_cases P marker body h) as [Hzero Hnz].
    destruct (List.Forall_dec (eq x00) (fun b => Byte.byte_eq_dec x00 b) body)
      as [Hall | Hn].
    + rewrite (Hzero Hall) in E. discriminate.
    + specialize (Hnz Hn).
      destruct (elliptic.Unmarshal _ _) as [[xv yv]|];
        rewrite Hnz in E; discriminate.
Qed.

Lemma Valid_closed P h :
  p256.Valid P h
  = match coordinates h P with
    | Some (xv, yv) => Some (valid_coords (p256.C P) xv yv, h)
    | None => None
    end.
Proof.
  unfold p256.Valid, coordinates, valid_coords. exec.
  destruct (p256.x P) as [a|]; [|reflexivity].
  destruct (h !! a) as [xv|] eqn:Ea.
  - destruct (p256.y P) as [b|]; cbn [mbind option_bind]; rewrite ?Ea;
      [|reflexivity]. cbn [mbind option_bind].
    destruct (h !! b) as [yv|] eqn:Eb; cbn [mbind option_bind]; rewrite ?Eb;
      reflexivity.
  - destruct (p256.y P) as [b|]; cbn [mbind option_bind]; rewrite ?Ea;
      reflexivity.
Qed.

Lemma coordinates_fresh curve h xv yv :
  coordinates (h ++ [xv; yv])
    {| p256.x := Some (length h); p256.y := Some (S (length h));
       p256.C := curve |} = Some (xv, yv).
Proof.
  destruct (lookup_fresh_2 h xv yv) as [H1 H2].
  now apply (coordinates_intro _ _ (length h) (S (length h))).
Qed.

(** X9. A point set by [Null], or by an [UnmarshalBinary] that returned
    no error, passes [Valid]. *)
Theorem produced_points_are_Valid (P P' : p256.CurvePoint) (h h' : list Z) :
  p256.Null P h = Some (P', h') \/
  (exists buf, p256.UnmarshalBinary P buf h = Some ((P', None), h')) ->
  p256.Valid P' h' = Some (true, h').
Proof.
  intros [E | [buf E]]; rewrite Valid_closed.
  - rewrite Null_spec in E. injection E as <- <-. unfold fresh_point.
    rewrite coordinates_fresh. cbn [p256.C].
    unfold valid_coords. change (big.Sign 0 =? 0) with true.
    now rewrite orb_true_r.
  - destruct buf as [|marker body]; [discriminate|].
    destruct (UnmarshalBinary_cases P marker body h) as [Hzero Hnz].
    destruct (List.Forall_dec (eq x00) (fun b => Byte.byte_eq_dec x00 b) body)
      as [Hall | Hn].
    + rewrite (Hzero Hall) in E. injection E as <- <-.
      rewrite (coordinates_fresh (p256.C P) h 0 0). cbn [p256.C].
      unfold valid_coords. change (big.Sign 0 =? 0) with true.
      now rewrite orb_true_r.
    + specialize (Hnz Hn).
      destruct (elliptic.Unmarshal _ _) as [[xv yv]|];
        rewrite Hnz in E; [|discriminate].
      destruct (_ || _) eqn:EV; [|discriminate].
      injection E as <- <-.
      rewrite (coordinates_fresh (p256.C P) h xv yv). cbn [p256.C].
      unfold valid_coords. now rewrite EV.
Qed.

Lemma produced_points_are_Valid_P256 :
  p256.Valid (point_at 0 1) [0; 0] = Some (true, [0; 0]).
Proof.
  apply (produced_points_are_Valid (p256.Point p256.P256.Init) (point_at 0 1)
           [] [0; 0]).
  left. reflexivity.
Defined.

Lemma MarshalBinary_closed P h :
  p256.MarshalBinary P h
  = match coordinates h P with
    | Some (xv, yv) => Some (elliptic.Marshal (p256.ec (p256.C P)) xv yv, h)
    | None => None
    end.
Proof.
  unfold p256.MarshalBinary, coordinates. exec.
  destruct (p256.x P) as [a|]; [|reflexivity].
  destruct (h !! a) as [xv|] eqn:Ea.
  - destruct (p256.y P) as [b|]; cbn [mbind option_bind]; rewrite ?Ea;
      [|reflexivity]. cbn [mbind option_bind].
    destruct (h !! b) as [yv|] eqn:Eb; cbn [mbind option_bind]; rewrite ?Eb;
      reflexivity.
  - destruct (p256.y P) as [b|]; cbn [mbind option_bind]; rewrite ?Ea;
      reflexivity.
Qed.

(** X10. Decoding what [MarshalBinary] wrote for a valid point, the
    identity included, returns no error and a point with the same
    coordinates, for a provider that keeps the encoding contract. *)
Theorem MarshalBinary_UnmarshalBinary (P Q : p256.CurvePoint) (h : list Z)
    (xv yv : Z) :
  codec_provider (p256.C P) ->
  p256.C Q = p256.C P ->
  coordinates h P = Some (xv, yv) ->
  valid_coords (p256.C P) xv yv = true ->
  exists buf Q' h',
    p256.MarshalBinary P h = Some (buf, h) /\
    p256.UnmarshalBinary Q buf h = Some ((Q', None), h') /\
    coordinates h' Q' = Some (xv, yv).
Proof.
  intros [Hshape Hround] HQ Hc Hv.
  rewrite MarshalBinary_closed, Hc.
  destruct (Hshape xv yv Hv) as (marker & body & EM & Hzero).
  destruct (UnmarshalBinary_cases Q marker body h) as [Hz Hnz].
  exists (marker :: body). rewrite EM.
  destruct (List.Forall_dec (eq x00) (fun b => Byte.byte_eq_dec x00 b) body)
    as [Hall | Hn].
  - destruct (proj1 Hzero Hall) as [-> ->].
    eexists _, _. split; [reflexivity|]. split; [apply Hz; exact Hall|].
    apply (coordinates_fresh (p256.C Q) h 0 0).
  - specialize (Hnz Hn). rewrite HQ in Hnz.
    assert (Hon : elliptic.IsOnCurve (p256.ec (p256.C P)) xv yv = true).
    { unfold valid_coords in Hv. apply orb_true_iff in Hv as [H|H]; [exact H|].
      exfalso. apply Hn. apply Hzero.
      apply andb_true_iff in H as [Hx Hy].
      apply Z.eqb_eq in Hx. apply Z.eqb_eq in Hy.
      unfold big.Sign in *. lia. }
    assert (EU : elliptic.Unmarshal (p256.ec (p256.C P)) (marker :: body)
                 = Some (xv, yv)) by (rewrite <- EM; now apply Hround).
    rewrite EU, Hon in Hnz. cbn [orb] in Hnz.
    eexists _, _. split; [reflexivity|]. split; [exact Hnz|].
    rewrite <- HQ. apply (coordinates_fresh (p256.C Q) h xv yv).
Qed.

Lemma P256_codec_provider : codec_provider p256.P256.Init.
Proof.
  apply CurveParams_codec_provider.
  - reflexivity.
  - vm_compute. discriminate.
  - vm_compute. split; [reflexivity | discriminate].
Qed.

Lemma MarshalBinary_UnmarshalBinary_P256 :
  exists buf Q' h',
    p256.MarshalBinary (point_at 0 1) base_heap = Some (buf, base_heap) /\
    p256.UnmarshalBinary (p256.Point p256.P256.Init) buf base_heap
    = Some ((Q', None), h') /\
    coordinates h' Q'
    = Some (elliptic.Gx elliptic.P256_params, elliptic.Gy elliptic.P256_params).
Proof.
  apply (MarshalBinary_UnmarshalBinary (point_at 0 1)
           (p256.Point p256.P256.Init) base_heap).
  - exact P256_codec_provider.
  - reflexivity.
  - reflexivity.
  - vm_compute. reflexivity.
Defined.

(** X11. [MarshalSize] and the curve's [PointLen] agree whenever the
    provider's parameters are the curve's and the bit size is not
    negative. *)
Theorem MarshalSize_is_PointLen (P : p256.CurvePoint) :
  elliptic.Params (p256.ec (p256.C P)) = p256.p (p256.C P) ->
  0 <= elliptic.BitSize (p256.p (p256.C P)) ->
  p256.MarshalSize P = p256.PointLen (p256.C P).
Proof.
  intros Hp Hb. unfold p256.MarshalSize, p256.PointLen, p256.coordLen.
  rewrite Hp, Z.shiftr_div_pow2 by lia.
  rewrite Z.quot_div_nonneg by lia. reflexivity.
Qed.

Lemma MarshalSize_is_PointLen_P256 :
  p256.MarshalSize (point_at 0 1) = p256.PointLen (p256.C (point_at 0 1)).
Proof.
  apply (MarshalSize_is_PointLen (point_at 0 1)).
  - reflexivity.
  - vm_compute. discriminate.
Defined.

(** ** [genPoint] and the square root *)

Lemma curve_rhs_spec curve xv :
  0 < elliptic.P (p256.p curve) ->
  curve_rhs curve xv
  = (xv * xv * xv - 3 * xv + elliptic.B (p256.p curve))
    mod elliptic.P (p256.p curve).
Proof.
  intros Hp. unfold curve_rhs, big.Mod, big.Lsh.
  rewrite Z.abs_eq, Z.shiftl_mul_pow2 by lia. f_equal. lia.
Qed.

Lemma chosen_root_square curve xv rand :
  0 < elliptic.P (p256.p curve) ->
  (chosen_root curve xv rand * chosen_root curve xv rand)
    mod elliptic.P (p256.p curve)
  = (p256.sqrt (p256.ops curve) (curve_rhs curve xv)
     * p256.sqrt (p256.ops curve) (curve_rhs curve xv))
    mod elliptic.P (p256.p curve).
Proof.
  intros Hp. unfold chosen_root. cbv zeta.
  destruct (sign_bit rand); [|reflexivity].
  now apply square_of_opposite.
Qed.

(** X12. Whatever square root the curve supplies, [genPoint] answers true
    only for a pair that satisfies the curve equation
    [y^2 = x^3 - 3x + b (mod p)]; then the receiver holds the candidate
    pointer and a new cell for [y].  When it answers false the receiver
    is unchanged.  Either way one byte of key stream is gone. *)
Theorem genPoint_sound (P P' : p256.CurvePoint) (xa : nat) (xv : Z)
    (rand rand' : cipher.Stream) (h h' : list Z) (ok : bool) :
  let m := elliptic.P (p256.p (p256.C P)) in
  0 < m ->
  h !! xa = Some xv ->
  p256.genPoint P (Some xa) rand h = Some ((ok, P', rand'), h') ->
  rand' = cipher.advance rand 1 /\
  exists yv,
    h' = h ++ [yv] /\
    if ok
    then P' = {| p256.x := Some xa; p256.y := Some (length h);
                 p256.C := p256.C P |} /\
         (yv * yv) mod m
         = (xv * xv * xv - 3 * xv + elliptic.B (p256.p (p256.C P))) mod m
    else P' = P.
Proof.
  intros m Hm Hx E. subst m.
  rewrite (genPoint_spec P xa xv rand h Hm Hx) in E.
  injection E as Eok EP Er Eh. subst rand' h'.
  split; [reflexivity|]. eexists. split; [reflexivity|].
  destruct ok.
  - rewrite Eok in EP. split; [now symmetry|].
    rewrite chosen_root_square by exact Hm.
    unfold accepted in Eok. cbv zeta in Eok. apply Z.eqb_eq in Eok.
    unfold big.Mod in Eok at 1. rewrite Z.abs_eq in Eok by lia.
    rewrite Eok. now apply curve_rhs_spec.
  - rewrite Eok in EP. now symmetry.
Qed.

Lemma genPoint_sound_P256 :
  let P := p256.Point p256.P256.Init in
  let m := elliptic.P (p256.p (p256.C P)) in
  let ok := accepted p256.P256.Init 513 in
  let P' := if ok then point_at 0 1 else P in
  cipher.advance ks00 1 = cipher.advance ks00 1 /\
  exists yv,
    [513] ++ [chosen_root p256.P256.Init 513 ks00] = [513] ++ [yv] /\
    if ok
    then P' = {| p256.x := Some 0%nat; p256.y := Some (length [513]);
                 p256.C := p256.C P |} /\
         (yv * yv) mod m
         = (513 * 513 * 513 - 3 * 513
            + elliptic.B (p256.p (p256.C P))) mod m
    else P' = P.
Proof.
  intros P m ok P'.
  apply (genPoint_sound P P' 0 513 ks00 (cipher.advance ks00 1) [513]
           ([513] ++ [chosen_root p256.P256.Init 513 ks00]) ok).
  - vm_compute. reflexivity.
  - reflexivity.
  - apply (genPoint_spec P 0 513 ks00 [513]).
    + vm_compute. reflexivity.
    + reflexivity.
Defined.

Lemma P256_prime_shape :
  let p := elliptic.P (p256.p p256.P256.Init) in
  Z.prime p /\ p + 1 = 4 * sqrt_exponent /\ 0 < p.
Proof.
  split; [exact prime_P256|]. split; vm_compute; reflexivity.
Qed.

Lemma P256_sqrt_power c :
  p256.sqrt (p256.ops p256.P256.Init) c
  = c ^ sqrt_exponent mod elliptic.P (p256.p p256.P256.Init).
Proof.
  cbn [p256.sqrt p256.ops p256.P256.Init].
  apply sqrt_power. vm_compute. reflexivity.
Qed.

(** X13. On P-256 [genPoint] accepts a candidate exactly when
    [x^3 - 3x + b] is a square modulo the prime: it never rejects a
    candidate that has a point. *)
Theorem genPoint_P256_complete (P : p256.CurvePoint) (xa : nat) (xv : Z)
    (rand : cipher.Stream) (h : list Z) :
  let m := elliptic.P (p256.p p256.P256.Init) in
  p256.C P = p256.P256.Init ->
  h !! xa = Some xv ->
  exists ok P' rand' h',
    p256.genPoint P (Some xa) rand h = Some ((ok, P', rand'), h') /\
    (ok = true <->
     exists s, (s * s) mod m
               = (xv * xv * xv - 3 * xv
                  + elliptic.B (p256.p p256.P256.Init)) mod m).
Proof.
  intros m HC Hx. subst m.
  destruct P256_prime_shape as (Hprime & HE & Hpos).
  assert (Hm : 0 < elliptic.P (p256.p (p256.C P))) by (rewrite HC; exact Hpos).
  rewrite (genPoint_spec P xa xv rand h Hm Hx). rewrite HC.
  eexists _, _, _, _. split; [reflexivity|].
  unfold accepted. cbv zeta.
  rewrite <- (curve_rhs_spec p256.P256.Init xv Hpos).
  set (c := curve_rhs p256.P256.Init xv).
  unfold big.Mod. rewrite Z.abs_eq by lia.
  rewrite Z.eqb_eq. split.
  - intros H. eexists. exact H.
  - intros [s Hs]. rewrite P256_sqrt_power. rewrite <- Hs.
    apply (power_is_root _ sqrt_exponent s Hprime HE).
Qed.

Lemma genPoint_P256_complete_513 :
  let P := p256.Point p256.P256.Init in
  let m := elliptic.P (p256.p p256.P256.Init) in
  exists ok P' rand' h',
    p256.genPoint P (Some 0%nat) ks00 [513] = Some ((ok, P', rand'), h') /\
    (ok = true <->
     exists s, (s * s) mod m
               = (513 * 513 * 513 - 3 * 513
                  + elliptic.B (p256.p p256.P256.Init)) mod m).
Proof.
  intros P m.
  apply (genPoint_P256_complete P 0 513 ks00 [513]); reflexivity.
Defined.

(** For a prime [p = 4 E - 1], the square of [c ^ E] is [c] or [-c]. *)
Lemma power_squares_to_sign p E c :
  Z.prime p -> p + 1 = 4 * E ->
  let r := c ^ E mod p in
  (r * r) mod p = c mod p \/ (r * r) mod p = (- c) mod p.
Proof.
  intros Hp HE r. pose proof (Z.prime_ge_2 p Hp) as Hp2.
  assert (HE0 : 0 < E) by lia.
  assert (Hrr : (r * r) mod p = (c * c ^ (2 * E - 1)) mod p).
  { subst r. rewrite <- Z.mul_mod, <- Z.pow_add_r by lia.
    replace (E + E) with (1 + (2 * E - 1)) by lia.
    now rewrite Z.pow_add_r, Z.pow_1_r by lia. }
  rewrite Hrr.
  destruct (Z.eq_dec (c mod p) 0) as [Hc|Hc].
  - left. rewrite Z.mul_mod, Hc by lia. rewrite Z.mul_0_l. apply Z.mod_0_l. lia.
  - set (t := c ^ (2 * E - 1)).
    assert (Ht : (t * t) mod p = 1).
    { subst t. rewrite <- Z.pow_add_r by lia.
      replace (2 * E - 1 + (2 * E - 1)) with (p - 1) by lia.
      now apply Z.fermat_nz. }
    assert (Hdiv : (p | (t - 1) * (t + 1))).
    { apply Z.mod_divide; [lia|].
      replace ((t - 1) * (t + 1)) with (t * t - 1) by ring.
      rewrite <- Zminus_mod_idemp_l, Ht. reflexivity. }
    apply (Z.divide_prime_mul _ _ _ Hp) in Hdiv as [[k Hk]|[k Hk]].
    + left. replace t with (1 + k * p) by lia.
      replace (c * (1 + k * p)) with (c + c * k * p) by ring.
      now rewrite Z.mod_add by lia.
    + right. replace t with (-1 + k * p) by lia.
      replace (c * (-1 + k * p)) with (- c + c * k * p) by ring.
      now rewrite Z.mod_add by lia.
Qed.

(** X14. For every integer [c], a residue or not, the square root of
    P-256 returns a value in [[0, p)] whose square is [c] or [-c] modulo
    the prime. *)
Theorem sqrt_P256_square_is_signed (c : Z) :
  let p := elliptic.P (p256.p p256.P256.Init) in
  let r := p256.sqrt (p256.ops p256.P256.Init) c in
  0 <= r < p /\
  ((r * r) mod p = c mod p \/ (r * r) mod p = (- c) mod p).
Proof.
  intros p r. subst p r.
  destruct P256_prime_shape as (Hprime & HE & Hpos).
  rewrite P256_sqrt_power. split.
  - apply Z.mod_pos_bound. exact Hpos.
  - apply (power_squares_to_sign _ sqrt_exponent c Hprime HE).
Qed.

(** ** [Embed]: truncation and the turn it stops at *)

(** The candidate of a turn when [data] is non-nil and at least [dl]
    bytes long: the last byte is the tag [dl], and the [dl] bytes before
    it are the first [dl] bytes of the data. *)
Lemma Embed_candidate_take (P : p256.CurvePoint) (d : list byte)
    (dl : Z) (rand : cipher.Stream) :
  let bitlen := big.BitLen (elliptic.P (p256.p (p256.C P))) in
  let n := Z.to_nat ((bitlen + 7) ÷ 8) in
  let l := Z.of_nat n in
  1 <= bitlen ->
  0 <= dl <= l - 1 -> dl <= len d ->
  exists b,
    p256.Embed_candidate P (Some d) l dl rand
    = Some (b, cipher.advance rand n) /\
    length b = n /\
    index b (l - 1) = Some (byte_of_Z dl) /\
    slice b (l - dl - 1) (l - 1) = Some (take (Z.to_nat dl) d).
Proof.
  intros bitlen n l Hb Hdl Hd. unfold p256.Embed_candidate. fold bitlen.
  destruct (Bits_spec bitlen rand Hb) as (b & EB & Hlen). fold n in EB, Hlen.
  rewrite EB. cbn [mbind option_bind].
  rewrite set_index_Some by (unfold len; lia). cbn [mbind option_bind].
  set (b1 := <[Z.to_nat (l - 1) := byte_of_Z dl]> b).
  assert (Hlen1 : length b1 = n) by (subst b1; now rewrite length_insert).
  unfold copy_into.
  destruct (Z.ltb_spec (l - dl - 1) 0); [lia|].
  destruct (Z.ltb_spec (l - 1) (l - dl - 1)); [lia|].
  destruct (Z.ltb_spec (Z.of_nat (length b1)) (l - 1)); [lia|].
  cbn [orb mbind option_bind]. eexists. split; [reflexivity|].
  replace (Z.to_nat (l - 1 - (l - dl - 1))) with (Z.to_nat dl) by lia.
  unfold len in Hd. rewrite Nat.min_l by lia.
  set (d' := take (Z.to_nat dl) d).
  assert (Hd' : length d' = Z.to_nat dl)
    by (subst d'; rewrite length_take; lia).
  assert (Hdrop : drop (Z.to_nat (l - dl - 1) + Z.to_nat dl) b1
                  = [byte_of_Z dl]).
  { replace (Z.to_nat (l - dl - 1) + Z.to_nat dl)%nat
      with (Z.to_nat (l - 1)) by lia.
    subst b1.
    destruct (lookup_lt_is_Some_2 b (Z.to_nat (l - 1)) ltac:(lia))
      as [old Hold].
    rewrite <- (take_drop_middle b _ _ Hold) at 1.
    rewrite insert_app_r_alt by (rewrite length_take; lia).
    rewrite length_take.
    replace (Z.to_nat (l - 1) - Z.to_nat (l - 1) `min` length b)%nat
      with 0%nat by lia.
    cbn [insert list_insert].
    rewrite drop_app_length' by (rewrite length_take; lia).
    f_equal. apply drop_ge. lia. }
  rewrite Hdrop. split; [|split].
  - rewrite !length_app, length_take. simpl length. lia.
  - unfold index. destruct (Z.ltb_spec (l - 1) 0); [lia|].
    rewrite lookup_app_r by (rewrite length_take; lia).
    rewrite length_take.
    rewrite lookup_app_r by lia.
    replace (Z.to_nat (l - 1) - Z.to_nat (l - dl - 1) `min` length b1
             - length d')%nat with 0%nat by lia.
    reflexivity.
  - unfold slice.
    destruct (Z.ltb_spec (l - dl - 1) 0); [lia|].
    destruct (Z.ltb_spec (l - 1) (l - dl - 1)); [lia|].
    rewrite !length_app, length_take. simpl length.
    destruct (Z.ltb_spec
                (Z.of_nat (Z.to_nat (l - dl - 1) `min` length b1
                           + (length d' + 1))) (l - 1)); [lia|].
    cbn [orb]. f_equal.
    rewrite drop_app_length' by (rewrite length_take; lia).
    replace (Z.to_nat (l - 1 - (l - dl - 1))) with (length d') by lia.
    now rewrite take_app_length.
Qed.

Lemma payload_take (P : p256.CurvePoint) (d : list byte) :
  0 <= p256.EmbedLen P ->
  payload_len P (Some d) <= len d /\
  take (Z.to_nat (payload_len P (Some d))) d
  = take (Z.to_nat (p256.EmbedLen P)) d.
Proof.
  intros He. unfold payload_len.
  change (default [] (Some d)) with d. unfold len.
  destruct (Z.gtb_spec (p256.EmbedLen P) (Z.of_nat (length d))).
  - split; [lia|]. rewrite Nat2Z.id. rewrite !take_ge by lia. reflexivity.
  - split; [lia | reflexivity].
Qed.

Section EmbedTruncation.
Variable P : p256.CurvePoint.
Variable d : list byte.
Hypothesis curve_ok : embeddable (p256.C P).
Hypothesis tag_fits : p256.EmbedLen P < 256.

(** Whatever point the loop returns for the non-nil payload [d] decodes
    to the first [EmbedLen] bytes of [d]. *)
Lemma Embed_loop_Data_take fuel : forall rand h P' rand' h',
  p256.Embed_loop fuel P (Some d) (p256.coordLen (p256.C P))
    (payload_len P (Some d)) rand h = Some (Some (P', rand'), h') ->
  p256.Data P' h' = Some (inl (take (Z.to_nat (p256.EmbedLen P)) d), h').
Proof.
  destruct (embeddable_lengths P (Some d) curve_ok)
    as (Hl & HE & Hdl & Hle & _).
  destruct (payload_take P d ltac:(lia)) as [Hfit Htake].
  induction fuel as [|fuel IH]; intros rand h P' rand' h' E; [discriminate|].
  destruct (Embed_turn P (Some d) rand h curve_ok)
    as (b & EC & Hlen & _ & ET).
  rewrite Embed_loop_S, ET in E.
  destruct (accepted (p256.C P) (big.SetBytes b)); [|eapply IH; eauto].
  injection E as <- <- <-.
  assert (Hbit : 1 <= big.BitLen (elliptic.P (p256.p (p256.C P))))
    by (destruct curve_ok as (_ & ? & _); lia).
  destruct (Embed_candidate_take P d (payload_len P (Some d)) rand
              Hbit Hdl Hfit) as (b' & EC' & _ & Htag & Hslice).
  rewrite <- Hl in EC', Htag, Hslice. rewrite EC in EC'.
  injection EC' as <-.
  rewrite Htake in Hslice.
  apply (Data_of_bytes _ (length h) b _ (payload_len P (Some d))).
  - reflexivity.
  - apply lookup_fresh.
  - cbn [p256.C]. now rewrite Hlen.
  - unfold p256.EmbedLen in *. cbn [p256.C]. lia.
  - lia.
  - now rewrite Hlen.
  - now rewrite Hlen.
Qed.
End EmbedTruncation.

(** X15. [Embed] stores at most [EmbedLen] bytes: the point it returns for
    a non-nil payload [d] of any length decodes, with [Data], to the
    first [EmbedLen] bytes of [d]; a longer payload is cut without
    notice. *)
Theorem Embed_truncates (P P' : p256.CurvePoint) (d : list byte)
    (fuel : nat) (rand rand' : cipher.Stream) (h h' : list Z) :
  embeddable (p256.C P) ->
  p256.EmbedLen P < 256 ->
  p256.Embed fuel P (Some d) rand h = Some (Some (P', rand'), h') ->
  p256.Data P' h' = Some (inl (take (Z.to_nat (p256.EmbedLen P)) d), h').
Proof.
  intros Hc Hsmall E.
  eapply (Embed_loop_Data_take P d Hc Hsmall fuel); exact E.
Qed.

Lemma Embed_truncates_P256 :
  let P := p256.Point p256.P256.Init in
  let d := replicate 31 x01 in
  exists P' rand' h',
    p256.Embed 1 P (Some d) ks00 [] = Some (Some (P', rand'), h') /\
    p256.Data P' h'
    = Some (inl (take (Z.to_nat (p256.EmbedLen P)) d), h').
Proof.
  intros P d.
  assert (Hrun : match p256.Embed 1 P (Some d) ks00 [] with
                 | Some (Some _, _) => true
                 | _ => false
                 end = true) by (vm_compute; reflexivity).
  destruct (p256.Embed 1 P (Some d) ks00 []) as [[[[P' rand']|] h']|] eqn:E;
    try discriminate Hrun.
  exists P', rand', h'. split; [reflexivity|].
  apply (Embed_truncates P P' d 1 ks00 rand' [] h').
  - exact P256_embeddable.
  - vm_compute. reflexivity.
  - exact E.
Defined.

Lemma accepted_on_curve curve xv rand :
  0 < elliptic.P (p256.p curve) ->
  accepted curve xv = true ->
  (chosen_root curve xv rand * chosen_root curve xv rand)
    mod elliptic.P (p256.p curve)
  = (xv * xv * xv - 3 * xv + elliptic.B (p256.p curve))
    mod elliptic.P (p256.p curve).
Proof.
  intros Hm Hacc. rewrite chosen_root_square by exact Hm.
  unfold accepted in Hacc. cbv zeta in Hacc. apply Z.eqb_eq in Hacc.
  unfold big.Mod in Hacc at 1. rewrite Z.abs_eq in Hacc by lia.
  rewrite Hacc. now apply curve_rhs_spec.
Qed.

Section EmbedFirst.
Variable P : p256.CurvePoint.
Variable data : option (list byte).
Hypothesis curve_ok : embeddable (p256.C P).

(** The loop returns at the first turn whose candidate is accepted. *)
Lemma Embed_loop_first j : forall fuel rand h,
  (j < fuel)%nat ->
  turn_accepts P data rand j = true ->
  (forall i, (i < j)%nat -> turn_accepts P data rand i = false) ->
  exists xv yv garbage,
    length garbage = (2 * j)%nat /\
    p256.Embed_loop fuel P data (p256.coordLen (p256.C P))
      (payload_len P data) rand h
    = Some (Some ({| p256.x := Some (length h + 2 * j)%nat;
                     p256.y := Some (length h + 2 * j + 1)%nat;
                     p256.C := p256.C P |},
                  cipher.advance rand ((j + 1) * turn_bytes P)),
            h ++ garbage ++ [xv; yv]) /\
    (yv * yv) mod elliptic.P (p256.p (p256.C P))
    = (xv * xv * xv - 3 * xv + elliptic.B (p256.p (p256.C P)))
      mod elliptic.P (p256.p (p256.C P)).
Proof.
  pose proof curve_ok as (Hm & _ & _).
  induction j as [|j IH]; intros fuel rand h Hj Hacc Hrej;
    (destruct fuel as [|fuel]; [lia|]);
    destruct (Embed_turn P data rand h curve_ok) as (b & EC & _ & _ & ET);
    rewrite Embed_loop_S, ET.
  - rewrite (turn_accepts_0 _ _ _ _ _ EC) in Hacc. rewrite Hacc.
    eexists _, _, []. split; [reflexivity|]. split.
    + cbn [app].
      replace (length h + 2 * 0)%nat with (length h) by lia.
      replace (length h + 1)%nat with (S (length h)) by lia.
      replace ((0 + 1) * turn_bytes P)%nat with (turn_bytes P) by lia.
      reflexivity.
    + now apply accepted_on_curve.
  - pose proof (Hrej 0%nat ltac:(lia)) as H0.
    rewrite (turn_accepts_0 _ _ _ _ _ EC) in H0. rewrite H0.
    rewrite turn_accepts_S in Hacc.
    destruct (IH fuel (cipher.advance rand (turn_bytes P))
                (h ++ [big.SetBytes b;
                       chosen_root (p256.C P) (big.SetBytes b)
                         (cipher.advance rand (turn_bytes P - 1))])
                ltac:(lia) Hacc)
      as (xv & yv & garbage & Hg & E & Heq).
    { intros i Hi. rewrite <- turn_accepts_S. apply Hrej. lia. }
    rewrite E. eexists xv, yv, (_ :: _ :: garbage).
    split; [simpl; lia|]. split; [|exact Heq].
    rewrite advance_advance, length_app. cbn [length].
    rewrite <- app_assoc. cbn [app].
    replace (length h + 2 + 2 * j)%nat with (length h + 2 * S j)%nat by lia.
    replace (turn_bytes P + (j + 1) * turn_bytes P)%nat
      with ((S j + 1) * turn_bytes P)%nat by lia.
    reflexivity.
Qed.
End EmbedFirst.

(** X16. [Embed] returns at the first turn [j] whose candidate passes the
    check: it has then drawn exactly [(j+1) * (ceil(bitLen(p)/8) + 1)]
    bytes of key stream, the point holds two integers of its own, newer
    than every integer that existed before the call, and they satisfy the
    curve equation [y^2 = x^3 - 3x + b (mod p)]. *)
Theorem Embed_stops_at_first_accepted (P : p256.CurvePoint)
    (data : option (list byte)) (fuel j : nat) (rand : cipher.Stream)
    (h : list Z) :
  let m := elliptic.P (p256.p (p256.C P)) in
  embeddable (p256.C P) ->
  (j < fuel)%nat ->
  turn_accepts P data rand j = true ->
  (forall i, (i < j)%nat -> turn_accepts P data rand i = false) ->
  exists xv yv garbage,
    length garbage = (2 * j)%nat /\
    p256.Embed fuel P data rand h
    = Some (Some ({| p256.x := Some (length h + 2 * j)%nat;
                     p256.y := Some (length h + 2 * j + 1)%nat;
                     p256.C := p256.C P |},
                  cipher.advance rand ((j + 1) * turn_bytes P)),
            h ++ garbage ++ [xv; yv]) /\
    (yv * yv) mod m
    = (xv * xv * xv - 3 * xv + elliptic.B (p256.p (p256.C P))) mod m.
Proof.
  intros m Hc Hj Hacc Hrej. subst m.
  exact (Embed_loop_first P data Hc j fuel rand h Hj Hacc Hrej).
Qed.

Lemma Embed_stops_at_first_accepted_P256 :
  let P := p256.Point p256.P256.Init in
  let m := elliptic.P (p256.p (p256.C P)) in
  exists xv yv garbage,
    length garbage = (2 * 1)%nat /\
    p256.Embed 5 P (Some [x00]) ks33 []
    = Some (Some ({| p256.x := Some (length (@nil Z) + 2 * 1)%nat;
                     p256.y := Some (length (@nil Z) + 2 * 1 + 1)%nat;
                     p256.C := p256.C P |},
                  cipher.advance ks33 ((1 + 1) * turn_bytes P)),
            [] ++ garbage ++ [xv; yv]) /\
    (yv * yv) mod m
    = (xv * xv * xv - 3 * xv + elliptic.B (p256.p (p256.C P))) mod m.
Proof.
  intros P m.
  apply (Embed_stops_at_first_accepted P (Some [x00]) 5 1 ks33 []).
  - exact P256_embeddable.
  - lia.
  - vm_compute. reflexivity.
  - intros i Hi. assert (i = 0%nat) as -> by lia. vm_compute. reflexivity.
Defined.

(** ** [Sub] *)

(** X17. For a provider that keeps its part of the group law, subtracting
    a valid point from itself gives a point [Equal] to [Null]; [Sub]
    negates its second operand into a point of its own and leaves both
    operands as they were. *)
Theorem Sub_self_is_Null (curve : p256.Curve) (A Q R : p256.CurvePoint)
    (h : list Z) (xv yv : Z) :
  group_provider curve ->
  p256.C R = curve ->
  coordinates h A = Some (xv, yv) ->
  valid_coords curve xv yv = true ->
  exists S h1 O h2 h3,
    p256.Sub R A A h = Some (S, h1) /\
    coordinates h1 A = Some (xv, yv) /\
    p256.Null Q h1 = Some (O, h2) /\
    p256.Equal S O h2 = Some (true, h3).
Proof.
  intros [Hp Hn _ Hinv] HR Hc Hvalid.
  apply coordinates_inv in Hc as (xa & ya & Hxa & Hya & Hxv & Hyv).
  specialize (Hinv xv yv Hvalid).
  pose proof (Mul_spec (p256.Point (p256.C R))
                (modint.Neg (modint.One (p256.Scalar (p256.C R)))
                   (modint.One (p256.Scalar (p256.C R))))
                A h xa ya xv yv Hxa Hya Hxv Hyv) as EM.
  cbn [p256.Point p256.C] in EM. rewrite HR in EM.
  rewrite (Neg_scalar curve Hn) in EM.
  set (nr := elliptic.ScalarMult (p256.ec curve) xv yv
               (big.Bytes (elliptic.N (p256.p curve) - 1))) in *.
  set (h1 := h ++ [fst nr; snd nr]) in *.
  destruct (lookup_fresh_2 h (fst nr) (snd nr)) as [Hn1 Hn2].
  fold h1 in Hn1, Hn2.
  pose proof (Add_spec R A (fresh_point curve h) h1
                xa ya (length h) (S (length h)) xv yv (fst nr) (snd nr)
                Hxa Hya eq_refl eq_refl
                (lookup_old _ _ _ _ Hxv) (lookup_old _ _ _ _ Hyv) Hn1 Hn2)
    as EA.
  rewrite HR in EA.
  set (r := elliptic.Add (p256.ec curve) xv yv (fst nr) (snd nr)) in *.
  set (h2 := h1 ++ [fst r; snd r]) in *.
  destruct (lookup_fresh_2 h1 (fst r) (snd r)) as [Hr1 Hr2].
  fold h2 in Hr1, Hr2.
  destruct (lookup_fresh_2 h2 0 0) as [Ho1 Ho2].
  destruct (Equal_spec (fresh_point curve h1) (fresh_point (p256.C Q) h2)
              (h2 ++ [0; 0]) _ _ _ _ (fst r) (snd r) 0 0
              Hp eq_refl eq_refl eq_refl eq_refl
              (lookup_old _ _ _ _ Hr1) (lookup_old _ _ _ _ Hr2) Ho1 Ho2)
    as (h4 & EE & _).
  cbn [fresh_point p256.C] in EE.
  assert (Hr : congruent (elliptic.P (p256.p curve)) r (0, 0)).
  { subst r. destruct nr as [nx ny]. exact Hinv. }
  destruct Hr as [H1 H2]. cbn [fst snd] in H1, H2.
  rewrite H1, H2, !Z.eqb_refl in EE.
  eexists _, h2, _, _, h4.
  split; [|split; [|split; [apply Null_spec | exact EE]]].
  - unfold p256.Sub, mbind, Exec_bind, bind. unfold p256.Neg.
    cbn [p256.Point p256.C]. rewrite HR.
    change {| p256.x := None; p256.y := None; p256.C := curve |}
      with (p256.Point curve).
    rewrite EM. exact EA.
  - apply (coordinates_intro _ _ xa ya); auto;
      subst h2 h1; do 2 apply lookup_old; assumption.
Qed.

Lemma Sub_self_is_Null_toy :
  let A := {| p256.x := Some 0%nat; p256.y := Some 1%nat;
              p256.C := toy_curve |} in
  let Q := p256.Point toy_curve in
  exists S h1 O h2 h3,
    p256.Sub Q A A [1; 2] = Some (S, h1) /\
    coordinates h1 A = Some (1, 2) /\
    p256.Null Q h1 = Some (O, h2) /\
    p256.Equal S O h2 = Some (true, h3).
Proof.
  intros A Q.
  apply (Sub_self_is_Null toy_curve A Q Q [1; 2] 1 2).
  - exact toy_group_provider.
  - reflexivity.
  - reflexivity.
  - vm_compute. reflexivity.
Defined.

(** ** [Commit] and [NewPublicParams] *)

Lemma coordinates_None_cases h P :
  coordinates h P = None ->
  p256.x P = None \/
  (exists a, p256.x P = Some a /\ p256.y P = None) \/
  (exists a b, p256.x P = Some a /\ p256.y P = Some b /\
               (h !! a = None \/ (h !! a <> None /\ h !! b = None))).
Proof.
  unfold coordinates.
  destruct (p256.x P) as [a|]; [|auto].
  destruct (p256.y P) as [b|]; [|eauto]. cbn [mbind option_bind].
  destruct (h !! a) as [xv|] eqn:Ea; cbn [mbind option_bind].
  - destruct (h !! b) as [yv|] eqn:Eb; [discriminate|].
    intros _. right. right. exists a, b. rewrite Ea. intuition congruence.
  - intros _. right. right. exists a, b. auto.
Qed.

Lemma Add_closed P A B h :
  p256.Add P A B h
  = match coordinates h A, coordinates h B with
    | Some (ax, ay), Some (bx, by_) =>
        Some (fresh_point (p256.C P) h,
              h ++ [fst (elliptic.Add (p256.ec (p256.C P)) ax ay bx by_);
                    snd (elliptic.Add (p256.ec (p256.C P)) ax ay bx by_)])
    | _, _ => None
    end.
Proof.
  destruct (coordinates h A) as [[ax ay]|] eqn:CA.
  - apply coordinates_inv in CA as (xa & ya & Hxa & Hya & Hax & Hay).
    destruct (coordinates h B) as [[bx by_]|] eqn:CB.
    + apply coordinates_inv in CB as (xb & yb & Hxb & Hyb & Hbx & Hby).
      now apply (Add_spec P A B h xa ya xb yb).
    + unfold p256.Add. rewrite Hxa, Hya. exec. rewrite Hax, Hay.
      apply coordinates_None_cases in CB
        as [E | [(a & E1 & E2) | (a & b & E1 & E2 & [E3 | [E3 E4]])]].
      * now rewrite E.
      * rewrite E1, E2. now destruct (h !! a).
      * now rewrite E1, E3.
      * rewrite E1, E2. destruct (h !! a); [now rewrite E4 | reflexivity].
  - unfold p256.Add. exec.
    apply coordinates_None_cases in CA
      as [E | [(a & E1 & E2) | (a & b & E1 & E2 & [E3 | [E3 E4]])]].
    + now rewrite E.
    + rewrite E1, E2. now destruct (h !! a).
    + now rewrite E1, E3.
    + rewrite E1, E2. destruct (h !! a); [now rewrite E4 | reflexivity].
Qed.

Lemma Mul_closed P s B h :
  p256.Mul P s (Some B) h
  = match coordinates h B with
    | Some (bx, by_) =>
        Some (fresh_point (p256.C P) h,
              h ++ [fst (elliptic.ScalarMult (p256.ec (p256.C P)) bx by_
                           (big.Bytes (modint.V s)));
                    snd (elliptic.ScalarMult (p256.ec (p256.C P)) bx by_
                           (big.Bytes (modint.V s)))])
    | None => None
    end.
Proof.
  destruct (coordinates h B) as [[bx by_]|] eqn:CB.
  - apply coordinates_inv in CB as (xb & yb & Hxb & Hyb & Hbx & Hby).
    now apply (Mul_spec P s B h xb yb).
  - unfold p256.Mul. exec.
    apply coordinates_None_cases in CB
      as [E | [(a & E1 & E2) | (a & b & E1 & E2 & [E3 | [E3 E4]])]].
    + now rewrite E.
    + rewrite E1, E2. now destruct (h !! a).
    + now rewrite E1, E3.
    + rewrite E1, E2. destruct (h !! a); [now rewrite E4 | reflexivity].
Qed.

Lemma coordinates_app h t P v :
  coordinates h P = Some v -> coordinates (h ++ t) P = Some v.
Proof.
  destruct v as [xv yv]. intros H.
  apply coordinates_inv in H as (a & b & Ha & Hb & Hx & Hy).
  apply (coordinates_intro _ _ a b); auto using lookup_old.
Qed.

Lemma pointers_in_app h t P : pointers_in h P -> pointers_in (h ++ t) P.
Proof.
  intros H a Ha. specialize (H a Ha). rewrite length_app. lia.
Qed.

(** For a point whose pointers are nil or lead into the heap, having
    coordinates is having no nil pointer. *)
Lemma coordinates_nonnil h P :
  pointers_in h P ->
  (coordinates h P <> None <-> p256.x P <> None /\ p256.y P <> None).
Proof.
  unfold pointers_in, cells, coordinates. intros Hin.
  destruct (p256.x P) as [a|]; [|cbn; intuition congruence].
  destruct (p256.y P) as [b|]; [|cbn; intuition congruence].
  cbn [mbind option_bind].
  destruct (lookup_lt_is_Some_2 h a) as [xv ->];
    [apply Hin; cbn [app]; rewrite !elem_of_cons; tauto|].
  destruct (lookup_lt_is_Some_2 h b) as [yv ->];
    [apply Hin; cbn [app]; rewrite !elem_of_cons; tauto|].
  cbn [mbind option_bind]. intuition congruence.
Qed.

(** When one call of [Commitment.Add] returns. *)
Lemma vc_Add_returns c0 i xb h cv :
  coordinates h (vc.c c0) = Some cv ->
  (len xb = 32 /\
   exists g gv, index (vc.generators c0) i = Some g /\
                coordinates h g = Some gv) ->
  exists r t, vc.Add c0 i xb h = Some (r, h ++ t).
Proof.
  intros Hc (Hlen & g & [gx gy] & Hg & Hgv).
  unfold vc.Add. rewrite Hlen. cbn [Z.eqb Pos.eqb negb].
  rewrite Hg. unfold p256.MulPlain, p256.AddPlain.
  unfold mbind at 1, Exec_bind at 1, bind at 1, lift at 1, ret at 1.
  unfold mbind at 1, Exec_bind at 1, bind at 1.
  rewrite Mul_closed, Hgv.
  unfold mbind at 1, Exec_bind at 1, bind at 1.
  rewrite Add_closed.
  unfold fresh_point at 1.
  rewrite (coordinates_fresh _ h).
  rewrite (coordinates_app h _ _ cv Hc). destruct cv as [cx cy].
  unfold ret. rewrite <- app_assoc. eauto.
Qed.

Lemma vc_Add_panics c0 i xb h :
  len xb <> 32 \/
  index (vc.generators c0) i = None \/
  (exists g, index (vc.generators c0) i = Some g /\
             coordinates h g = None) ->
  vc.Add c0 i xb h = None.
Proof.
  intros H. unfold vc.Add.
  destruct (Z.eqb_spec (len xb) 32) as [Hlen|Hlen]; [|reflexivity].
  cbn [negb]. destruct H as [H | [H | (g & Hg & Hgv)]]; [contradiction| |].
  - now rewrite H.
  - rewrite Hg. unfold p256.MulPlain.
    unfold mbind at 1, Exec_bind at 1, bind at 1, lift at 1, ret at 1.
    unfold mbind at 1, Exec_bind at 1, bind at 1.
    now rewrite Mul_closed, Hgv.
Qed.

Section CommitLoop.
Variable c0 : vc.Commitment.

Let nonnil (g : p256.CurvePoint) : Prop :=
  p256.x g <> None /\ p256.y g <> None.

(** The loop of [Commit] returns exactly when every value is 32 bytes
    long and every index it reaches names a generator without a nil
    coordinate. *)
Lemma Commit_loop_returns xs : forall i h cv,
  0 <= i ->
  Forall (pointers_in h) (vc.generators c0) ->
  coordinates h (vc.c c0) = Some cv ->
  (vc.Commit_loop c0 i xs h <> None <->
   Forall (fun xi => len xi = 32) xs /\
   forall k, (k < length xs)%nat ->
             exists g, vc.generators c0 !! (Z.to_nat i + k)%nat = Some g /\
                       nonnil g).
Proof.
  induction xs as [|xi rest IH]; intros i h cv Hi Hwf Hc.
  { cbn [vc.Commit_loop length]. split; [|discriminate].
    intros _. split; [constructor | intros k Hk; lia]. }
  cbn [vc.Commit_loop]. unfold mbind, Exec_bind, bind.
  assert (Hidx : index (vc.generators c0) i
                 = vc.generators c0 !! Z.to_nat i).
  { unfold index. destruct (Z.ltb_spec i 0); [lia | reflexivity]. }
  assert (Hnn : forall g, vc.generators c0 !! Z.to_nat i = Some g ->
                          (coordinates h g <> None <-> nonnil g)).
  { intros g Hg. apply coordinates_nonnil.
    rewrite Forall_forall in Hwf. apply Hwf.
    eapply list_elem_of_lookup_2; eauto. }
  assert (Hnext : forall k, (Z.to_nat (i + 1) + k = Z.to_nat i + S k)%nat)
    by (intros k; lia).
  destruct (Z.eq_dec (len xi) 32) as [Hlen|Hlen].
  2:{ rewrite vc_Add_panics by auto. split; [congruence|].
      intros [H _]. inversion H; subst. contradiction. }
  destruct (vc.generators c0 !! Z.to_nat i) as [g|] eqn:Hg.
  2:{ rewrite vc_Add_panics by (rewrite Hidx; auto). split; [congruence|].
      intros [_ H]. destruct (H 0%nat) as (g & Hg' & _); [simpl; lia|].
      rewrite Nat.add_0_r in Hg'. congruence. }
  destruct (coordinates h g) as [gv|] eqn:Hgv.
  2:{ rewrite vc_Add_panics by (rewrite Hidx; eauto). split; [congruence|].
      intros [_ H]. destruct (H 0%nat) as (g' & Hg' & Hn); [simpl; lia|].
      rewrite Nat.add_0_r in Hg'. assert (g' = g) as -> by congruence.
      apply (Hnn g eq_refl) in Hn. contradiction. }
  destruct (vc_Add_returns c0 i xi h cv Hc) as (r & t & EA).
  { split; [exact Hlen|]. exists g, gv. rewrite Hidx. auto. }
  rewrite EA.
  rewrite (IH (i + 1) (h ++ t) cv ltac:(lia)); cycle 1.
  { eapply Forall_impl; [exact Hwf|]. intros P. apply pointers_in_app. }
  { now apply coordinates_app. }
  split.
  - intros [Hall Hk]. split; [constructor; assumption|].
    intros [|k] Hlt.
    + exists g. rewrite Nat.add_0_r. split; [exact Hg|].
      apply (Hnn g eq_refl). congruence.
    + rewrite <- Hnext. apply Hk. simpl in Hlt. lia.
  - intros [Hall Hk]. inversion Hall; subst. split; [assumption|].
    intros k Hlt. rewrite Hnext. apply Hk. simpl. lia.
Qed.
End CommitLoop.

Lemma forallb_len32 (xs : list (list byte)) :
  forallb (fun xi => len xi =? 32) xs = true <->
  Forall (fun xi => len xi = 32) xs.
Proof.
  rewrite forallb_forall, Forall_forall. split; intros H xi Hin.
  - apply Z.eqb_eq, H. now apply list_elem_of_In.
  - apply Z.eqb_eq, H. now apply list_elem_of_In.
Qed.

Lemma lookup_take_Forall {A} (Q : A -> Prop) (l : list A) (n : nat) :
  (forall k, (k < n)%nat -> exists a, l !! k = Some a /\ Q a) <->
  (n <= length l)%nat /\ Forall Q (take n l).
Proof.
  split.
  - intros H. assert (Hn : (n <= length l)%nat).
    { destruct n as [|n]; [lia|].
      destruct (H n ltac:(lia)) as (a & Ha & _).
      apply lookup_lt_Some in Ha. lia. }
    split; [exact Hn|]. apply Forall_lookup. intros k a Hk.
    pose proof (lookup_lt_Some _ _ _ Hk) as Hlt.
    rewrite length_take in Hlt.
    rewrite lookup_take_lt in Hk by lia.
    destruct (H k ltac:(lia)) as (a' & Ha' & HQ). congruence.
  - intros [Hn HQ] k Hk.
    destruct (lookup_lt_is_Some_2 l k ltac:(lia)) as [a Ha].
    exists a. split; [exact Ha|].
    rewrite Forall_lookup in HQ. apply (HQ k).
    now rewrite lookup_take_lt by lia.
Qed.

Lemma Commit_returns (pp : vc.PublicParams) (xs : list (list byte))
    (h : list Z) :
  Forall (pointers_in h) (vc.Generators pp) ->
  (vc.Commit pp xs h <> None <->
   Forall (fun xi => len xi = 32) xs /\
   (length xs <= length (vc.Generators pp))%nat /\
   Forall (fun g => p256.x g <> None /\ p256.y g <> None)
     (take (length xs) (vc.Generators pp))).
Proof.
  intros Hwf. rewrite <- lookup_take_Forall. unfold vc.Commit.
  destruct (forallb (fun xi => len xi =? 32) xs) eqn:E32; cbn [negb].
  2:{ unfold panic. split; [congruence|]. intros [H _].
      apply forallb_len32 in H. congruence. }
  apply forallb_len32 in E32.
  unfold mbind, Exec_bind, bind. rewrite Null_spec.
  set (c0 := {| vc.generators := vc.Generators pp;
                vc.c := fresh_point _ h;
                vc.suite := p256.P256.Init |}).
  pose proof (Commit_loop_returns c0 xs 0 (h ++ [0; 0]) (0, 0)
                ltac:(lia)) as H.
  cbn [vc.generators vc.c c0] in H. change (Z.to_nat 0) with 0%nat in H.
  cbn [Nat.add] in H. rewrite <- H.
  - destruct (vc.Commit_loop c0 0 xs (h ++ [0; 0])) as [[[] h1]|];
      unfold ret; split; congruence.
  - eapply Forall_impl; [exact Hwf|]. intros P. apply pointers_in_app.
  - unfold fresh_point. apply coordinates_fresh.
Qed.

(** X18. [Commit] returns exactly when every value is 32 bytes long, there
    are at least as many generators as values, and none of the generators
    it reaches has a nil coordinate; otherwise it panics. *)
Theorem Commit_returns_iff (pp : vc.PublicParams) (xs : list (list byte))
    (h : list Z) :
  Forall (pointers_in h) (vc.Generators pp) ->
  (vc.Commit pp xs h <> None <->
   Forall (fun xi => len xi = 32) xs /\
   (length xs <= length (vc.Generators pp))%nat /\
   Forall (fun g => p256.x g <> None /\ p256.y g <> None)
     (take (length xs) (vc.Generators pp))).
Proof. apply Commit_returns. Qed.

(** X19. Whatever the values, a commitment that [Commit] returns holds the
    identity (0,0) and the generators it was given, and every integer
    that existed before the call is as it was: the sums its [Add] calls
    compute are lost. *)
Theorem Commit_result_is_identity (pp : vc.PublicParams)
    (xs : list (list byte)) (h h' : list Z) (c1 : vc.Commitment) :
  vc.Commit pp xs h = Some (c1, h') ->
  vc.generators c1 = vc.Generators pp /\
  coordinates h' (vc.c c1) = Some (0, 0) /\
  h `prefix_of` h'.
Proof.
  intros E.
  destruct (Commit_returns_identity pp xs h c1 h' E) as (Hg & Hx & Hy).
  split; [exact Hg|]. split.
  - apply deref_inv in Hx as (_ & a & Ha & Hxa).
    apply deref_inv in Hy as (_ & b & Hb & Hyb).
    now apply (coordinates_intro _ _ a b).
  - revert E. unfold vc.Commit. destruct (negb _); [discriminate|].
    unfold mbind, Exec_bind, bind. rewrite Null_spec.
    destruct (vc.Commit_loop _ 0 xs (h ++ [0; 0])) as [[[] h1]|] eqn:EL;
      [|discriminate].
    intros E. injection E as _ <-.
    apply allocates_Commit_loop in EL.
    etransitivity; [|exact EL]. now apply prefix_app_r.
Qed.

Lemma pointers_in_base_heap : Forall (pointers_in base_heap) [point_at 0 1].
Proof.
  apply List.Forall_cons; [|apply List.Forall_nil].
  intros a Ha. unfold cells in Ha. cbn [point_at p256.x p256.y app] in Ha.
  rewrite !elem_of_cons in Ha. destruct Ha as [->|[->|Ha]];
    [simpl; lia | simpl; lia | now apply elem_of_nil in Ha].
Qed.

Lemma Commit_returns_iff_P256 :
  let pp := {| vc.Generators := [point_at 0 1] |} in
  let xs := [big.be_bytes 32 1] in
  vc.Commit pp xs base_heap <> None <->
  Forall (fun xi => len xi = 32) xs /\
  (length xs <= length (vc.Generators pp))%nat /\
  Forall (fun g => p256.x g <> None /\ p256.y g <> None)
    (take (length xs) (vc.Generators pp)).
Proof.
  intros pp xs. apply (Commit_returns_iff pp xs base_heap).
  exact pointers_in_base_heap.
Defined.

Lemma Commit_result_is_identity_P256 :
  let pp := {| vc.Generators := [point_at 0 1] |} in
  let xs := [big.be_bytes 32 1] in
  exists c1 h',
    vc.Commit pp xs base_heap = Some (c1, h') /\
    vc.generators c1 = vc.Generators pp /\
    coordinates h' (vc.c c1) = Some (0, 0) /\
    base_heap `prefix_of` h'.
Proof.
  intros pp xs.
  assert (Hrun : match vc.Commit pp xs base_heap with
                 | Some _ => true
                 | None => false
                 end = true) by (vm_compute; reflexivity).
  destruct (vc.Commit pp xs base_heap) as [[c1 h']|] eqn:E;
    [|discriminate Hrun].
  exists c1, h'. split; [reflexivity|].
  apply (Commit_result_is_identity pp xs base_heap h' c1). exact E.
Defined.

Lemma on_curve_app h t P : on_curve h P -> on_curve (h ++ t) P.
Proof.
  intros (xv & yv & Hc & He). exists xv, yv.
  split; [now apply coordinates_app | exact He].
Qed.

Section EmbedResult.
Variable P : p256.CurvePoint.
Variable data : option (list byte).
Hypothesis curve_ok : embeddable (p256.C P).

(** The loop never panics; a point it returns has two cells of its own,
    allocated during the call, that satisfy the curve equation. *)
Lemma Embed_loop_result fuel : forall rand h,
  exists r h',
    p256.Embed_loop fuel P data (p256.coordLen (p256.C P))
      (payload_len P data) rand h = Some (r, h') /\
    h `prefix_of` h' /\
    forall P' rand', r = Some (P', rand') ->
      p256.C P' = p256.C P /\ on_curve h' P' /\
      allocated_between h h' P' /\ NoDup (cells P').
Proof.
  pose proof curve_ok as (Hm & _ & _).
  induction fuel as [|fuel IH]; intros rand h.
  { eexists _, _. split; [reflexivity|]. split; [reflexivity|]. discriminate. }
  destruct (Embed_turn P data rand h curve_ok) as (b & _ & _ & _ & ET).
  rewrite Embed_loop_S, ET.
  destruct (accepted (p256.C P) (big.SetBytes b)) eqn:Hacc.
  - eexists _, _. split; [reflexivity|]. split; [now apply prefix_app_r|].
    intros P' rand' E. injection E as <- _. cbn [p256.C].
    split; [reflexivity|]. split; [|split].
    + eexists _, _. split; [apply coordinates_fresh|]. cbn [p256.C].
      now apply accepted_on_curve.
    + intros a Ha. unfold cells in Ha. cbn [p256.x p256.y app] in Ha.
      rewrite length_app. cbn [length].
      rewrite !elem_of_cons in Ha. destruct Ha as [->|[->|Ha]]; [lia|lia|].
      now apply elem_of_nil in Ha.
    + unfold cells. cbn [p256.x p256.y app].
      apply NoDup_cons. split; [|apply NoDup_singleton].
      rewrite list_elem_of_singleton. lia.
  - destruct (IH (cipher.advance rand (turn_bytes P))
                (h ++ [big.SetBytes b;
                       chosen_root (p256.C P) (big.SetBytes b)
                         (cipher.advance rand (turn_bytes P - 1))]))
      as (r & h' & E & Hpre & Hr).
    exists r, h'. split; [exact E|].
    split; [etransitivity; [|exact Hpre]; now apply prefix_app_r|].
    intros P' rand' Er. destruct (Hr P' rand' Er) as (HC & Hon & Hal & Hnd).
    split; [exact HC|]. split; [exact Hon|]. split; [|exact Hnd].
    intros a Ha. specialize (Hal a Ha). rewrite length_app in Hal. lia.
Qed.
End EmbedResult.

Lemma prefix_length_le {A} (l1 l2 : list A) :
  l1 `prefix_of` l2 -> (length l1 <= length l2)%nat.
Proof. intros [k ->]. rewrite length_app. lia. Qed.

Lemma on_curve_prefix h h' P : h `prefix_of` h' -> on_curve h P -> on_curve h' P.
Proof. intros [k ->]. apply on_curve_app. Qed.

(** What the loop of [NewPublicParams] returns. *)
Lemma Pick_each_result fuel (gs : list p256.CurvePoint) : forall rand h,
  Forall (fun g => embeddable (p256.C g)) gs ->
  exists r h',
    vc.Pick_each fuel gs rand h = Some (r, h') /\
    h `prefix_of` h' /\
    forall gs' rand', r = Some (gs', rand') ->
      Forall2 (fun g g' => p256.C g' = p256.C g) gs gs' /\
      Forall (fun g' => on_curve h' g' /\ allocated_between h h' g') gs' /\
      NoDup (concat (cells <$> gs')).
Proof.
  induction gs as [|g gs IH]; intros rand h Hall.
  { eexists _, _. split; [reflexivity|]. split; [reflexivity|].
    intros gs' rand' E. injection E as <- _.
    split; [constructor|]. split; constructor. }
  inversion Hall as [|? ? Hg Hgs]; subst.
  cbn [vc.Pick_each]. unfold p256.Pick, p256.Embed.
  destruct (Embed_loop_result g None Hg fuel rand h)
    as (r1 & h1 & E1 & Hpre1 & Hr1).
  unfold payload_len in E1. unfold mbind at 1, Exec_bind at 1, bind at 1.
  rewrite E1. destruct r1 as [[g' rand1]|].
  2:{ eexists _, _. split; [reflexivity|]. split; [exact Hpre1|]. discriminate. }
  destruct (Hr1 g' rand1 eq_refl) as (HC & Hon & Hal & Hnd).
  destruct (IH rand1 h1 Hgs) as (r2 & h2 & E2 & Hpre2 & Hr2).
  unfold mbind, Exec_bind, bind. rewrite E2.
  destruct r2 as [[rest' rand2]|].
  2:{ eexists _, _. split; [reflexivity|].
      split; [etransitivity; eauto | discriminate]. }
  destruct (Hr2 rest' rand2 eq_refl) as (HF2 & Hrest & Hnd2).
  eexists _, _. split; [reflexivity|].
  split; [etransitivity; eauto|].
  intros gs' rand' E. injection E as <- _.
  pose proof (prefix_length_le _ _ Hpre1) as L1.
  pose proof (prefix_length_le _ _ Hpre2) as L2.
  split; [constructor; assumption|]. split.
  - constructor.
    + split; [now apply (on_curve_prefix h1)|].
      intros a Ha. specialize (Hal a Ha). lia.
    + eapply Forall_impl; [exact Hrest|].
      intros q [Hq1 Hq2]. split; [exact Hq1|].
      intros a Ha. specialize (Hq2 a Ha). lia.
  - cbn [fmap list_fmap concat]. apply NoDup_app. split; [exact Hnd|].
    split; [|exact Hnd2].
    intros a Ha Hin. apply list_elem_of_In, in_concat in Hin as (cs & Hcs & Hacs).
    apply list_elem_of_In in Hcs, Hacs.
    apply list_elem_of_fmap in Hcs as (q & -> & Hq).
    rewrite Forall_forall in Hrest. destruct (Hrest q Hq) as [_ Hq2].
    specialize (Hal a Ha). specialize (Hq2 a Hacs). lia.
Qed.

Lemma replicate_embeddable n :
  Forall (fun g => embeddable (p256.C g))
    (replicate n (p256.PointPlain p256.P256.Init)).
Proof.
  apply Forall_forall. intros g Hg.
  apply elem_of_replicate in Hg as [-> _]. exact P256_embeddable.
Qed.

(** X20. [NewPublicParams] panics exactly for a negative [n]; for every
    other [n] it returns, whatever the key stream. *)
Theorem NewPublicParams_panics_iff (fuel : nat) (n : Z)
    (randBytes : cipher.Stream) (h : list Z) :
  vc.NewPublicParams fuel n randBytes h = None <-> n < 0.
Proof.
  unfold vc.NewPublicParams.
  destruct (Z.ltb_spec n 0) as [Hn|Hn]; [split; auto|].
  destruct (Pick_each_result fuel _ randBytes h
              (replicate_embeddable (Z.to_nat n))) as (r & h' & E & _).
  unfold mbind, Exec_bind, bind. rewrite E.
  split; [|lia]. destruct r as [[gs rand']|]; discriminate.
Qed.

(** X21. The parameters [NewPublicParams] returns hold [n] generators of
    the P-256 curve; each has two integers of its own, allocated during
    the call and shared with no other generator, that satisfy the curve
    equation; and [Commit] does not panic on them for up to [n] values of
    32 bytes. *)
Theorem NewPublicParams_generators (fuel : nat) (n : Z)
    (randBytes : cipher.Stream) (h h' : list Z) (pp : vc.PublicParams) :
  vc.NewPublicParams fuel n randBytes h = Some (Some pp, h') ->
  length (vc.Generators pp) = Z.to_nat n /\
  h `prefix_of` h' /\
  Forall (fun g => p256.C g = p256.P256.Init /\ on_curve h' g /\
                   allocated_between h h' g) (vc.Generators pp) /\
  NoDup (concat (cells <$> vc.Generators pp)) /\
  forall xs, Forall (fun xi => len xi = 32) xs ->
             (length xs <= length (vc.Generators pp))%nat ->
             exists c1 h'', vc.Commit pp xs h' = Some (c1, h'').
Proof.
  unfold vc.NewPublicParams. destruct (n <? 0); [discriminate|].
  destruct (Pick_each_result fuel _ randBytes h
              (replicate_embeddable (Z.to_nat n)))
    as (r & h1 & E & Hpre & Hr).
  unfold mbind, Exec_bind, bind. rewrite E.
  destruct r as [[gs rand']|]; [|discriminate].
  intros H. injection H as <- <-. cbn [vc.Generators].
  destruct (Hr gs rand' eq_refl) as (HF2 & Hgs & Hnd).
  assert (Hlen : length gs = Z.to_nat n).
  { apply Forall2_length in HF2. now rewrite length_replicate in HF2. }
  assert (HC : Forall (fun g => p256.C g = p256.P256.Init) gs).
  { apply Forall_lookup. intros i g Hi.
    destruct (Forall2_lookup_r _ _ _ _ _ HF2 Hi) as (g0 & Hg0 & HCg).
    apply lookup_replicate in Hg0 as [-> _]. exact HCg. }
  split; [exact Hlen|]. split; [exact Hpre|]. split; [|split; [exact Hnd|]].
  - apply Forall_and. split; [exact HC | exact Hgs].
  - intros xs H32 Hxs.
    destruct (vc.Commit {| vc.Generators := gs |} xs h1) as [[c1 h'']|] eqn:EC;
      [eauto|].
    exfalso. revert EC. apply Commit_returns; cbn [vc.Generators].
    + eapply Forall_impl; [exact Hgs|]. intros g [_ Hal] a Ha.
      specialize (Hal a Ha). lia.
    + split; [exact H32|]. split; [exact Hxs|].
      apply Forall_take. eapply Forall_impl; [exact Hgs|].
      intros g [(xv & yv & Hc & _) _].
      apply coordinates_inv in Hc as (a & b & -> & -> & _). split; discriminate.
Qed.

Lemma NewPublicParams_generators_P256 :
  exists pp h',
    vc.NewPublicParams 1 2 ks0201 [] = Some (Some pp, h') /\
    length (vc.Generators pp) = Z.to_nat 2 /\
    [] `prefix_of` h' /\
    Forall (fun g => p256.C g = p256.P256.Init /\ on_curve h' g /\
                     allocated_between [] h' g) (vc.Generators pp) /\
    NoDup (concat (cells <$> vc.Generators pp)) /\
    forall xs, Forall (fun xi => len xi = 32) xs ->
               (length xs <= length (vc.Generators pp))%nat ->
               exists c1 h'', vc.Commit pp xs h' = Some (c1, h'').
Proof.
  assert (Hrun : match vc.NewPublicParams 1 2 ks0201 [] with
                 | Some (Some _, _) => true
                 | _ => false
                 end = true) by (vm_compute; reflexivity).
  destruct (vc.NewPublicParams 1 2 ks0201 []) as [[[pp|] h']|] eqn:E;
    try discriminate Hrun.
  exists pp, h'. split; [reflexivity|].
  apply (NewPublicParams_generators 1 2 ks0201 [] h' pp). exact E.
Defined.
